(** * Verification of the neural-operator core: segment reduction, the RNO
    rollout driver, the UQNO data processor and its conformal calibration.

    The development is a shallow embedding of the Python sources

      - [neuralop/layers/segment_csr.py]     (module [SegmentCsr]),
      - [neuralop/models/rno.py]             (module [Rno]),
      - [scripts/train_uqno_darcy.py]        (modules [Calibration], [Uqno]).

    Python exceptions are values of [exn] carried by the [result] monad.
    Tensors that are mutated in place are threaded explicitly, so that a
    view of a tensor row aliases the row it was taken from.  The float64
    scalars of the calibration are primitive floats (module [Float64]). *)

From Stdlib Require Import ZArith QArith Qabs List Sorted Floats Uint63 Reals Lra Lia.
From Stdlib Require Lqa.
From stdpp Require Import base option list gmap strings sorting pretty.

(** ** Python exceptions and the result monad *)

Inductive exn : Type :=
| ValueError
| IndexError
| KeyError (key : string)
| NameError (name : string)
| TypeError
| RuntimeError
| OverflowError.

Inductive result (A : Type) : Type :=
| Ok (a : A)
| Raise (e : exn).
Arguments Ok {A} a.
Arguments Raise {A} e.

#[global] Instance result_ret : MRet result := fun A a => Ok a.
#[global] Instance result_bind : MBind result := fun A B f m =>
  match m with
  | Ok a => f a
  | Raise e => Raise e
  end.

Definition is_Ok {A} (r : result A) : Prop := exists a, r = Ok a.

(** ** The ceiling of a real number *)

Definition Rceil (r : R) : Z := (- Int_part (- r))%Z.

(** An integer converted to a float, exact below 2^53. *)
Definition float_of_Z (n : Z) : float :=
  match n with
  | Z0 => 0%float
  | Zpos _ => PrimFloat.of_uint63 (Uint63.of_Z n)
  | Zneg p => PrimFloat.opp (PrimFloat.of_uint63 (Uint63.of_Z (Zpos p)))
  end.

(** ** IEEE binary64 arithmetic

    numpy's [float64] scalars and Python's [float] are binary64 numbers:
    Rocq's primitive floats.  Addition, subtraction, multiplication,
    division and the square root are the primitive operations, rounded to
    nearest with ties to even.  The logarithm and the exponential are
    computed in fixed point with [fraction_bits] binary digits and rounded
    to nearest once; the library routines behind [np.log] and [np.exp] are
    accurate to within one unit in the last place. *)
Module Float64.
Local Open Scope Z_scope.

(** [m * 2^e] rounded to the nearest binary64 number. *)
Definition round_float (m e : Z) : float :=
  SF2Prim (binary_normalize prec emax m e false).

(** Fixed-point numbers: the integer [a] stands for [a / 2^fraction_bits]. *)
Definition fraction_bits : Z := 200.
Definition fp_one : Z := 2 ^ fraction_bits.
Definition fp_mul (a b : Z) : Z := a * b / fp_one.

(** [atanh z = z + z^3/3 + z^5/5 + ...] *)
Fixpoint atanh_series (fuel : nat) (z2 power k acc : Z) : Z :=
  match fuel with
  | O => acc
  | S fuel =>
      if power =? 0 then acc
      else atanh_series fuel z2 (fp_mul power z2) (k + 2) (acc + power / k)
  end.

Definition fp_atanh (z : Z) : Z := atanh_series 300 (fp_mul z z) z 1 0.

(** [ln 2 = 2 atanh (1/3)] *)
Definition fp_ln2 : Z := Eval vm_compute in 2 * fp_atanh (fp_one / 3).

(** [exp r = 1 + r + r^2/2! + ...] *)
Fixpoint exp_series (fuel : nat) (r term k acc : Z) : Z :=
  match fuel with
  | O => acc
  | S fuel =>
      if term =? 0 then acc
      else exp_series fuel r (fp_mul term r / k) (k + 1) (acc + term)
  end.

Definition fp_exp (r : Z) : Z := exp_series 300 r fp_one 1 0.

(** The fixed-point value of [m * 2^e] *)
Definition fp_of (m e : Z) : Z :=
  let s := e + fraction_bits in
  if 0 <=? s then m * 2 ^ s else m / 2 ^ (- s).

(** [np.log]: for [x = m * 2^e] with [m] scaled into [sqrt 1/2, sqrt 2],
    [ln x = (e + b) ln 2 + 2 atanh ((m - 2^b) / (m + 2^b))].  The logarithm
    of zero is [-inf], that of a negative number is nan; numpy warns and
    raises nothing. *)
Definition np_log (x : float) : float :=
  match Prim2SF x with
  | S754_nan => nan
  | S754_zero _ => neg_infinity
  | S754_infinity false => infinity
  | S754_infinity true => nan
  | S754_finite true _ _ => nan
  | S754_finite false m e =>
      let m := Zpos m in
      let b := Z.log2 m in
      let b := if 2 ^ (2 * b + 1) <? m * m then b + 1 else b in
      let z := (m - 2 ^ b) * fp_one / (m + 2 ^ b) in
      round_float ((e + b) * fp_ln2 + 2 * fp_atanh z) (- fraction_bits)
  end.

(** [np.exp]: [exp x = 2^k exp (x - k ln 2)] for the [k] nearest to
    [x / ln 2]; the result overflows to [inf] above 710 and is zero
    below -746. *)
Definition np_exp (x : float) : float :=
  match Prim2SF x with
  | S754_nan => nan
  | S754_zero _ => one
  | S754_infinity false => infinity
  | S754_infinity true => zero
  | S754_finite s m e =>
      let x := fp_of (if s then Zneg m else Zpos m) e in
      if 710 * fp_one <? x then infinity
      else if x <? -746 * fp_one then zero
      else
        let k := (2 * x + fp_ln2) / (2 * fp_ln2) in
        round_float (fp_exp (x - k * fp_ln2)) (k - fraction_bits)
  end.

(** [np.ceil]: the least whole number that is not below [x], as a float;
    between -1 and 0 it is the negative zero.  Non-finite values and zeros
    are kept. *)
Definition np_ceil (x : float) : float :=
  match Prim2SF x with
  | S754_finite s m e =>
      if 0 <=? e then x
      else
        let v := if s then Zneg m else Zpos m in
        let q := - ((- v) / 2 ^ (- e)) in
        if q =? 0 then (if s then neg_zero else zero) else round_float q 0
  | _ => x
  end.

(** A Python [int] as an operand of float arithmetic: the nearest float,
    OverflowError when there is none. *)
Definition float_of_int (n : Z) : result float :=
  let x := round_float n 0 in
  if PrimFloat.is_infinity x then Raise OverflowError else Ok x.

(** Python's [int(x)]: truncation towards zero; ValueError for a nan,
    OverflowError for an infinity. *)
Definition py_int (x : float) : result Z :=
  match Prim2SF x with
  | S754_zero _ => Ok 0
  | S754_finite s m e =>
      let v := if 0 <=? e then Zpos m * 2 ^ e else Zpos m / 2 ^ (- e) in
      Ok (if s then - v else v)
  | S754_infinity _ => Raise OverflowError
  | S754_nan => Raise ValueError
  end.

End Float64.

Module Calibration.
Import Float64.

(** *** [get_coeff_quantile_idx] (train_uqno_darcy.py, lines 454-479)

    [alpha] and [delta] are floats, [n_samples] and [n_gridpts] are Python
    ints, converted where they meet a float; the literals 2 and 3 convert
    exactly.  The three [print] calls are omitted. *)
Definition get_coeff_quantile_idx (alpha delta : float) (n_samples n_gridpts : Z)
  : result (Z * Z) :=
  gridpts ← float_of_int n_gridpts;
  let lb := PrimFloat.sqrt (- np_log delta / 2 / gridpts)%float in
  let t := ((alpha - lb) / 3 + lb)%float in
  let percentile := (alpha - t)%float in
  domain_idx ← py_int (np_ceil (percentile * gridpts)%float);
  minus_two_gridpts ← float_of_int (-2 * n_gridpts);
  samples_plus_one ← float_of_int (n_samples + 1);
  samples ← float_of_int n_samples;
  let function_percentile :=
    (np_ceil (samples_plus_one
              * (delta - np_exp (minus_two_gridpts * t * t)))
     / samples)%float in
  function_idx ← py_int (np_ceil (function_percentile * samples)%float);
  mret (domain_idx, function_idx).

(** *** The closed-form description of the calibration indices

    These definitions follow the words of the specification (steps 1-3 of
    the conformal calibration procedure), over the real numbers. *)
Definition spec_lb (delta : R) (n_gridpoints : Z) : R :=
  sqrt (- ln delta / (2 * IZR n_gridpoints)).

Definition spec_t (alpha delta : R) (n_gridpoints : Z) : R :=
  let lb := spec_lb delta n_gridpoints in
  (lb + (alpha - lb) / 3)%R.

Definition spec_domain_idx (alpha delta : R) (n_gridpoints : Z) : Z :=
  let t := spec_t alpha delta n_gridpoints in
  Rceil ((alpha - t) * IZR n_gridpoints).

Definition spec_function_percentile
    (alpha delta : R) (n_samples n_gridpoints : Z) : R :=
  let t := spec_t alpha delta n_gridpoints in
  (IZR (Rceil (IZR (n_samples + 1)
               * (delta - exp (- 2 * IZR n_gridpoints * t ^ 2))))
   / IZR n_samples)%R.

Definition spec_function_idx
    (alpha delta : R) (n_samples n_gridpoints : Z) : Z :=
  Rceil (spec_function_percentile alpha delta n_samples n_gridpoints
         * IZR n_samples).

(** *** Ranking the calibration ratios (train_uqno_darcy.py, lines 548-558)

    The ratios are elements of a type [A] with a comparison and an absolute
    value, as the tensor primitives provide them. *)
Class RatioOps (A : Type) : Type := {
  ratio_leb : A -> A -> bool;
  ratio_abs : A -> A
}.

(** The order of [torch.topk] on floats: a nan ranks above every number. *)
Definition topk_leb (x y : float) : bool :=
  if PrimFloat.is_nan y then true
  else if PrimFloat.is_nan x then false
  else PrimFloat.leb x y.

#[global] Instance float_ratio : RatioOps float :=
  {| ratio_leb := topk_leb; ratio_abs := PrimFloat.abs |}.

#[global] Instance Z_ratio : RatioOps Z :=
  {| ratio_leb := Z.leb; ratio_abs := Z.abs |}.

(** Ranking in descending order: the largest value first. *)
Fixpoint insert_desc `{RatioOps A} (x : A) (l : list A) : list A :=
  match l with
  | [] => [x]
  | y :: l' => if ratio_leb y x then x :: y :: l' else y :: insert_desc x l'
  end.

Definition sort_desc `{RatioOps A} (l : list A) : list A :=
  foldr insert_desc [] l.

(** [torch.topk(l, k).values]: the [k] largest values, largest first; torch
    refuses a [k] outside of [0 .. len(l)]. *)
Definition torch_topk `{RatioOps A} (l : list A) (k : Z) : result (list A) :=
  if decide (0 <= k <= Z.of_nat (length l))%Z
  then Ok (take (Z.to_nat k) (sort_desc l))
  else Raise RuntimeError.

(** [values[-1]] *)
Definition py_last {A} (l : list A) : result A :=
  match last l with
  | Some x => Ok x
  | None => Raise IndexError
  end.

(** [torch.topk(val_ratios.view(n, -1), domain_idx+1, dim=1).values[:,-1]] *)
Definition val_ratios_pointwise_quantile `{RatioOps A}
    (val_ratios : list (list A)) (domain_idx : Z) : result (list A) :=
  mapM (fun row => vals ← torch_topk row (domain_idx + 1); py_last vals)
       val_ratios.

(** [torch.abs(torch.topk(q, function_idx+1, dim=0).values[-1])] *)
Definition uncertainty_scaling_factor `{RatioOps A}
    (val_ratios : list (list A)) (domain_idx function_idx : Z) : result A :=
  q ← val_ratios_pointwise_quantile val_ratios domain_idx;
  vals ← torch_topk q (function_idx + 1);
  c ← py_last vals;
  mret (ratio_abs c).

(** One iteration of the calibration loop: the indices come from
    [get_coeff_quantile_idx] with [n_samples = len(calib_loader)], one
    calibration function per batch, and [n_gridpts = darcy_discretization]. *)
Definition calibration_scale_factor `{RatioOps A}
    (alpha delta : float) (darcy_discretization : Z) (val_ratios : list (list A))
  : result A :=
  '(domain_idx, function_idx) ←
    get_coeff_quantile_idx alpha delta
      (Z.of_nat (length val_ratios)) darcy_discretization;
  uncertainty_scaling_factor val_ratios domain_idx function_idx.


(** The ranking in the words of the specification: the [k]-th largest value,
    [k] counted from 1 at the top. *)
Definition kth_largest `{RatioOps A} (k : Z) (l : list A) : option A :=
  if decide (1 <= k)%Z then sort_desc l !! Z.to_nat (k - 1) else None.

Definition spec_scale_factor `{RatioOps A}
    (val_ratios : list (list A)) (domain_idx function_idx : Z) : option A :=
  stats ← mapM (kth_largest domain_idx) val_ratios;
  kth_largest function_idx stats.

End Calibration.

Module SegmentCsr.

(** *** Tensor elements

    The element type of [src], a floating dtype, with the operations the
    reducer applies: the zero of [torch.zeros], [+=] and [/=] by an
    integer count.  (On a [src] of an integer dtype torch refuses the
    in-place division of mean mode.) *)
Class Scalar (T : Type) : Type := {
  s_zero : T;
  s_add : T -> T -> T;
  s_div_int : T -> Z -> T
}.

(** IEEE floats: a division by zero raises nothing and yields an infinity
    or a nan. *)
#[global] Instance float_scalar : Scalar float :=
  {| s_zero := 0%float;
     s_add := PrimFloat.add;
     s_div_int x n := PrimFloat.div x (float_of_Z n) |}.

(** float32, the dtype of the result: [torch.zeros] allocates [out] in the
    default dtype.  On a [src] of this dtype [+=] is the float32 addition,
    [/=] divides by the count converted to float32, and [out[i] = accum]
    copies the row as it is. *)
Definition float32 : Type := spec_float.

Definition float32_of_Z (n : Z) : float32 := binary_normalize 24 128 n 0 false.

#[global] Instance float32_scalar : Scalar float32 :=
  {| s_zero := S754_zero false;
     s_add := SFadd 24 128;
     s_div_int x n := SFdiv 24 128 x (float32_of_Z n) |}.

Section Reducer.
Context {T : Type} `{Scalar T}.

(** A row of [src]: one feature vector, its trailing shape flattened. *)
Local Abbreviation row := (list T).

Definition row_zero (width : nat) : row := replicate width s_zero.
Definition row_add (a b : row) : row := zip_with s_add a b.
Definition row_div (a : row) (n : Z) : row := (fun x => s_div_int x n) <$> a.

(** Python indexing along the first axis: a negative index counts from the
    end, anything outside [-len, len) raises IndexError. *)
Definition py_index (len : nat) (i : Z) : result nat :=
  if decide (0 <= i < Z.of_nat len)%Z then Ok (Z.to_nat i)
  else if decide (- Z.of_nat len <= i < 0)%Z then Ok (Z.to_nat (Z.of_nat len + i))
  else Raise IndexError.

(** The memory the call works on: the rows of the caller's [src] tensor and
    the rows of the freshly allocated [out]. *)
Record state : Type := State {
  st_src : list row;
  st_out : list row
}.

(** [for j in range(1, n_nbrs[i]): accum += src[start + j]] where [accum]
    is the view [src[start]], row [p] of [src]: the in-place addition
    writes row [p] of [src]. *)
Fixpoint accumulate (p : nat) (start : Z) (js : list Z) (src : list row)
  : result (list row) :=
  match js with
  | [] => Ok src
  | j :: js' =>
      q ← py_index (length src) (start + j);
      match src !! p, src !! q with
      | Some accum, Some x => accumulate p start js' (<[p := row_add accum x]> src)
      | _, _ => Raise IndexError
      end
  end.

(** The loop over [enumerate(indptr[:-1])]; [groups] pairs each [start]
    with its [n_nbrs[i]]. *)
Fixpoint reduce_loop (mean : bool) (i : nat) (groups : list (Z * Z)) (st : state)
  : result state :=
  match groups with
  | [] => Ok st
  | (start, n) :: groups' =>
      if decide (start = Z.of_nat (length (st_src st))) then Ok st (* break *)
      else
        p ← py_index (length (st_src st)) start;
        src1 ← accumulate p start (seqZ 1 (n - 1)) (st_src st);
        let src2 := if mean then alter (fun accum => row_div accum n) p src1
                    else src1 in
        match src2 !! p with
        | Some accum =>
            reduce_loop mean (S i) groups'
              {| st_src := src2; st_out := <[i := accum]> (st_out st) |}
        | None => Raise IndexError
        end
  end.

(** [segment_csr(src, indptr, reduce)] (segment_csr.py, lines 27-47).
    [width] is the trailing shape [src.shape[1:]].  The value returned to
    the caller is [st_out]; [st_src] is the caller's [src] after the call. *)
Definition segment_csr (width : nat) (src : list row) (indptr : list Z)
    (reduce : string) : result state :=
  if decide (reduce ∈ ["mean"; "sum"]) then
    match indptr with
    | [] => Raise RuntimeError (* torch.zeros with a negative dimension *)
    | _ :: indptr_tail =>
        let n_nbrs := zip_with Z.sub indptr_tail (removelast indptr) in
        let out := replicate (length indptr - 1) (row_zero width) in
        reduce_loop (String.eqb reduce "mean") 0
          (zip (removelast indptr) n_nbrs)
          {| st_src := src; st_out := out |}
    end
  else Raise ValueError.

(** The aggregate the contract asks for: the elementwise sum of the rows
    [src[a:b]], and its mean. *)
Definition slice (src : list row) (a b : Z) : list row :=
  take (Z.to_nat b - Z.to_nat a) (drop (Z.to_nat a) src).

Definition group_sum (width : nat) (rows : list row) : row :=
  match rows with
  | [] => row_zero width
  | r :: rows' => foldl row_add r rows'
  end.

Definition group_mean (width : nat) (rows : list row) : row :=
  row_div (group_sum width rows) (Z.of_nat (length rows)).


(** A well-formed CSR grouping of [len] rows: offsets that start at 0 or
    later, never decrease and end at [len] or earlier. *)
Definition csr_valid (len : nat) (indptr : list Z) : Prop :=
  (exists a, indptr !! 0%nat = Some a /\ (0 <= a)%Z)
  /\ (forall i a b, indptr !! i = Some a -> indptr !! S i = Some b -> (a <= b)%Z)
  /\ (forall a, last indptr = Some a -> (a <= Z.of_nat len)%Z).


End Reducer.

(** The groups a valid CSR yields: each starts where the previous one
    ended, and ends inside [src]. *)
Inductive chain (len : Z) : Z -> list (Z * Z) -> Prop :=
| chain_nil a : chain len a []
| chain_cons a n rest :
    (0 <= n)%Z -> (a + n <= len)%Z -> chain len (a + n) rest ->
    chain len a ((a, n) :: rest).

End SegmentCsr.

Module Uqno.

(** *** The collaborators of [UQNODataProcessor]

    The tensor arithmetic, the residual model's output normalizer and the
    solution model's data processor live outside of the script; they are
    taken as an interface.  The base processor's [postprocess] reads its
    [train] attribute, which the UQNO processor writes. *)
Class Collaborators (tensor : Type) : Type := {
  t_sub : tensor -> tensor -> tensor;
  t_mul : tensor -> tensor -> tensor;
  residual_normalizer_inverse_transform : tensor -> tensor;
  base_postprocess :
    bool -> tensor -> gmap string tensor -> tensor * gmap string tensor
}.

Section Processor.
Context {tensor : Type} `{Collaborators tensor}.

(** A sample is a Python dict from field names to tensors. *)
Local Abbreviation sample := (gmap string tensor).

(** The attributes of the processor that [postprocess] reads or writes:
    [self.base_data_processor.train] and [self.scale_factor]. *)
Record processor : Type := Processor {
  base_train : bool;
  scale_factor : option tensor
}.

(** [sample[key]] *)
Definition dict_get (d : sample) (key : string) : result tensor :=
  match d !! key with
  | Some v => Ok v
  | None => Raise (KeyError key)
  end.

(** [sample.pop(key)]: the dict without [key]. *)
Definition dict_pop (d : sample) (key : string) : result sample :=
  match d !! key with
  | Some _ => Ok (delete key d)
  | None => Raise (KeyError key)
  end.

(** [set_scale_factor] (line 280); moving the tensor to a device does not
    change its value. *)
Definition set_scale_factor (self : processor) (factor : tensor) : processor :=
  {| base_train := base_train self; scale_factor := Some factor |}.

(** [UQNODataProcessor.postprocess] (lines 305-332): the processor after
    the call and the returned pair. *)
Definition postprocess (self : processor) (out : tensor * tensor) (smp : sample)
  : result (processor * (tensor * sample)) :=
  let self := {| base_train := false; scale_factor := scale_factor self |} in
  let '(g_hat, pred_uncertainty) := out in
  let pred_uncertainty := residual_normalizer_inverse_transform pred_uncertainty in
  let '(g_hat, smp) := base_postprocess (base_train self) g_hat smp in
  g_true ← dict_get smp "y";
  let smp := <["y" := t_sub g_true g_hat]> smp in
  smp ← dict_pop smp "x";
  let pred_uncertainty :=
    match scale_factor self with
    | Some c => t_mul pred_uncertainty c
    | None => pred_uncertainty
    end in
  mret (self, (pred_uncertainty, smp)).

End Processor.

(** A concrete instance over integers: the base processor denormalizes by
    doubling in evaluation mode and is the identity in training mode. *)
#[global] Instance Z_collaborators : Collaborators Z :=
  {| t_sub := Z.sub;
     t_mul := Z.mul;
     residual_normalizer_inverse_transform := fun u => (u + 1)%Z;
     base_postprocess := fun train g smp =>
       if train then (g, smp) else ((2 * g)%Z, (Z.mul 2) <$> smp) |}.

End Uqno.

Module Rno.

(** *** The tensor primitives and the sub-modules of an RNO

    [RNO_layer], [DomainPadding] and [nn.Linear] are defined outside of
    rno.py; a layer is a function of the running field and of an optional
    incoming hidden state. *)
Class TensorOps (tensor : Type) : Type := {
  shape : tensor -> list nat;
  movedim : tensor -> Z -> Z -> tensor;
  t_add : tensor -> tensor -> tensor;
  select_last_step : tensor -> tensor;      (* x[:, -1] *)
  unsqueeze : tensor -> Z -> tensor;
  select_first_step : tensor -> tensor;     (* h[:, 0] *)
  reshape : tensor -> list nat -> tensor;
  stack : list tensor -> Z -> tensor
}.

Record DomainPadding (tensor : Type) : Type := {
  pad : tensor -> tensor;
  unpad : tensor -> tensor
}.
Arguments pad {tensor} _ _.
Arguments unpad {tensor} _ _.

(** The attributes of an RNO instance that [forward] and [predict] read. *)
Record RNO (tensor : Type) : Type := {
  n_layers : nat;
  residual : bool;
  domain_padding : option (DomainPadding tensor);
  lifting : tensor -> tensor;
  layers : list (tensor -> option tensor -> tensor);
  projection : tensor -> tensor
}.
Arguments n_layers {tensor} _.
Arguments residual {tensor} _.
Arguments domain_padding {tensor} _.
Arguments lifting {tensor} _ _.
Arguments layers {tensor} _.
Arguments projection {tensor} _ _.

Section Model.
Context {tensor : Type} `{TensorOps tensor}.

(** [l[i]] for a natural index. *)
Definition list_get {A} (l : list A) (i : nat) : result A :=
  match l !! i with
  | Some x => Ok x
  | None => Raise IndexError
  end.

(** [l[-1]] *)
Definition list_last {A} (l : list A) : result A :=
  match last l with
  | Some x => Ok x
  | None => Raise IndexError
  end.

(** The loop of [forward] over [range(self.n_layers)] (lines 106-117):
    the running field and [final_hidden_states]. *)
Fixpoint forward_layers (self : RNO tensor)
    (init_hidden_states : list (option tensor)) (idxs : list nat)
    (x : tensor) (final_hidden_states : list tensor)
  : result (tensor * list tensor) :=
  match idxs with
  | [] => Ok (x, final_hidden_states)
  | i :: idxs' =>
      layer ← list_get (layers self) i;
      h ← list_get init_hidden_states i;
      let pred_x := layer x h in
      if decide (Z.of_nat i < Z.of_nat (n_layers self) - 1)%Z then
        let x := if residual self then t_add x pred_x else pred_x in
        forward_layers self init_hidden_states idxs' x
          (final_hidden_states ++ [select_last_step x])
      else
        let x := pred_x in
        forward_layers self init_hidden_states idxs' x
          (final_hidden_states ++ [x])
  end.

(** [torch.movedim(t, source, destination)]: both positions have to name an
    axis of [t], counted from the front or, when negative, from the back; a
    tensor without axes is treated as one with a single axis. *)
Definition torch_movedim (t : tensor) (source destination : Z) : result tensor :=
  let n := Z.max (Z.of_nat (length (shape t))) 1 in
  if decide ((- n <= source < n)%Z /\ (- n <= destination < n)%Z)
  then Ok (movedim t source destination)
  else Raise IndexError.

(** [RNO.forward] (lines 90-129).  A hidden state handed in is a tensor or
    [None]; the hidden states handed back are tensors. *)
Definition forward (self : RNO tensor) (x : tensor)
    (init_hidden_states : option (list (option tensor)))
  : result (tensor * list tensor) :=
  (* batch_size, timesteps = x.shape[:2] *)
  if decide (length (shape x) < 2)%nat then Raise ValueError else
  let x_size := Z.of_nat (length (shape x)) in
  let init_hidden_states :=
    match init_hidden_states with
    | None => replicate (n_layers self) None
    | Some hs => hs
    end in
  let x := lifting self x in
  x ← torch_movedim x (x_size - 1) 2;
  let x := match domain_padding self with
           | Some dp => pad dp x
           | None => x
           end in
  '(x, final_hidden_states) ←
    forward_layers self init_hidden_states (seq 0 (n_layers self)) x [];
  h ← list_last final_hidden_states;
  let h := match domain_padding self with
           | Some dp => select_first_step (unpad dp (unsqueeze h 1))
           | None => h
           end in
  h ← torch_movedim h 1 (x_size - 2);
  let pred := projection self h in
  mret (pred, final_hidden_states).

(** [torch.stack(output, dim=1)]: torch refuses an empty list. *)
Definition torch_stack (output : list tensor) (dim : Z) : result tensor :=
  match output with
  | [] => Raise RuntimeError
  | _ => Ok (stack output dim)
  end.

(** [pred.reshape((pred.shape[0], 1, *pred.shape[1:]))] *)
Definition add_time_axis (pred : tensor) : result tensor :=
  match shape pred with
  | [] => Raise IndexError
  | b :: rest => Ok (reshape pred (b :: 1%nat :: rest))
  end.

(** The loop of [predict] over [range(num_steps)] (lines 135-138). *)
Fixpoint predict_loop (self : RNO tensor) (num_steps : nat) (x : tensor)
    (states : list (option tensor)) (output : list tensor)
  : result (list tensor) :=
  match num_steps with
  | O => Ok output
  | S steps_left =>
      '(pred, states) ← forward self x (Some states);
      let output := output ++ [pred] in
      x ← add_time_axis pred;
      predict_loop self steps_left x (Some <$> states) output
  end.

(** [RNO.predict] (lines 131-140). *)
Definition predict (self : RNO tensor) (x : tensor) (num_steps : nat)
  : result tensor :=
  output ← predict_loop self num_steps x (replicate (n_layers self) None) [];
  torch_stack output 1.

(** The rollout done by hand, in the words of the specification: [forward]
    is called [k] times, the first time without hidden states; each
    prediction gets a singleton time axis behind its batch axis and is the
    next input, and the returned hidden states go to the next call; the
    [k] predictions are stacked along axis 1.  The steps are written with
    the tensor primitives themselves: [t.unsqueeze(1)] asks for a tensor
    with a first axis, stacking asks for at least one prediction. *)
Definition with_time_axis (prediction : tensor) : result tensor :=
  if decide (shape prediction = []) then Raise IndexError
  else Ok (unsqueeze prediction 1).

Fixpoint manual_steps (self : RNO tensor) (k : nat) (x : tensor)
    (states : option (list (option tensor))) : result (list tensor) :=
  match k with
  | O => Ok []
  | S k' =>
      '(prediction, new_states) ← forward self x states;
      next_x ← with_time_axis prediction;
      rest ← manual_steps self k' next_x (Some (Some <$> new_states));
      mret (prediction :: rest)
  end.

Definition manual_rollout (self : RNO tensor) (x0 : tensor) (k : nat)
  : result tensor :=
  predictions ← manual_steps self k x0 None;
  if decide (k = 0%nat) then Raise RuntimeError
  else Ok (stack predictions 1).

End Model.

(** *** A small instance to run the rollout on *)

(** A toy tensor: a shape and one number standing for the contents. *)
Definition move_axis (l : list nat) (source destination : nat) : list nat :=
  match l !! source with
  | Some d => let l' := delete source l in
              take destination l' ++ d :: drop destination l'
  | None => l
  end.

Definition axis (l : list nat) (position : Z) : nat :=
  Z.to_nat (if (position <? 0)%Z then Z.of_nat (length l) + position
            else position).

#[global] Instance toy_ops : TensorOps (list nat * Z) :=
  {| shape t := t.1;
     movedim t source destination :=
       (move_axis t.1 (axis t.1 source) (axis t.1 destination), t.2);
     t_add a b := (a.1, (a.2 + b.2)%Z);
     select_last_step t := (take 1 t.1 ++ drop 2 t.1, t.2);
     unsqueeze t position :=
       (take (Z.to_nat position) t.1 ++ 1%nat :: drop (Z.to_nat position) t.1,
        t.2);
     select_first_step t := (take 1 t.1 ++ drop 2 t.1, t.2);
     reshape t l := (l, t.2);
     stack l _ :=
       match l with
       | [] => ([], 0%Z)
       | t :: _ => (take 1 t.1 ++ length l :: drop 1 t.1,
                    foldr (fun u acc => (u.2 + acc)%Z) 0%Z l)
       end |}.

Definition toy_value (h : option (list nat * Z)) : Z :=
  match h with
  | Some t => t.2
  | None => 0%Z
  end.

(** Two layers with residual connections and no padding; the last layer
    returns its final time step only. *)
Definition toy_rno : RNO (list nat * Z) :=
  {| n_layers := 2;
     residual := true;
     domain_padding := None;
     lifting t := (t.1, (2 * t.2)%Z);
     layers :=
       [ (fun x h => (x.1, (x.2 + toy_value h + 1)%Z));
         (fun x h => (take 1 x.1 ++ drop 2 x.1, (x.2 + toy_value h)%Z)) ];
     projection t := (t.1, (t.2 + 1)%Z) |}.

(** *** The constructor [RNO.__init__] (lines 49-88)

    Python values as far as the constructor handles them; an object built
    by a class defined elsewhere ([DomainPadding], [nn.Linear], [RNO_layer],
    [nn.ModuleList]) is recorded with its class name and its arguments. *)
#[warnings="-register-all"]
Inductive pyval : Type :=
| VNone
| VBool (b : bool)
| VInt (z : Z)
| VFloat (f : float)
| VStr (s : string)
| VList (l : list pyval)
| VObj (cls : string) (args : list pyval).

(** The arguments of the constructor, typed as its docstring types them. *)
Record init_args : Type := {
  arg_n_modes : list Z;
  arg_hidden_channels : Z;
  arg_in_channels : Z;
  arg_out_channels : Z;
  arg_n_layers : Z;
  arg_residual : bool;
  arg_domain_padding : option (list float);
  arg_domain_padding_mode : string;
  arg_output_scaling_factor : option Z;
  arg_fft_norm : string;
  arg_separable : bool;
  arg_factorization : option string
}.

Definition opt_val {A} (inj : A -> pyval) (o : option A) : pyval :=
  match o with
  | Some a => inj a
  | None => VNone
  end.

(** The local names bound when the body starts: the parameters. *)
Definition init_locals (self : pyval) (a : init_args) : gmap string pyval :=
  list_to_map
    [ ("self", self);
      ("n_modes", VList (VInt <$> arg_n_modes a));
      ("hidden_channels", VInt (arg_hidden_channels a));
      ("in_channels", VInt (arg_in_channels a));
      ("out_channels", VInt (arg_out_channels a));
      ("n_layers", VInt (arg_n_layers a));
      ("residual", VBool (arg_residual a));
      ("domain_padding",
        opt_val (fun l => VList (VFloat <$> l)) (arg_domain_padding a));
      ("domain_padding_mode", VStr (arg_domain_padding_mode a));
      ("output_scaling_factor", opt_val VInt (arg_output_scaling_factor a));
      ("fft_norm", VStr (arg_fft_norm a));
      ("separable", VBool (arg_separable a));
      ("factorization", opt_val VStr (arg_factorization a)) ].

(** The names bound at module level in rno.py (its imports and the class)
    and the builtins the module uses. *)
Definition module_globals : list string :=
  ["torch"; "np"; "nn"; "F"; "RNO_layer"; "DomainPadding"; "RNO"].

Definition builtins : list string :=
  ["super"; "len"; "isinstance"; "list"; "sum"; "range"].

(** Reading a name: the local scope, then the module, then the builtins;
    a name bound nowhere raises NameError. *)
Definition load_name (locals : gmap string pyval) (name : string)
  : result pyval :=
  match locals !! name with
  | Some v => Ok v
  | None =>
      if decide (name ∈ module_globals ++ builtins)
      then Ok (VObj name [])
      else Raise (NameError name)
  end.

Definition py_len (v : pyval) : result Z :=
  match v with
  | VList l => Ok (Z.of_nat (length l))
  | VStr s => Ok (Z.of_nat (String.length s))
  | _ => Raise TypeError
  end.

Definition as_int (v : pyval) : result Z :=
  match v with
  | VInt z => Ok z
  | VBool b => Ok (if b then 1 else 0)%Z
  | _ => Raise TypeError
  end.

Definition as_float (v : pyval) : result float :=
  match v with
  | VFloat f => Ok f
  | VInt z => Ok (float_of_Z z)
  | _ => Raise TypeError
  end.

(** [sum(l) > 0] *)
Definition sum_is_positive (l : list pyval) : result bool :=
  fs ← mapM as_float l;
  mret (PrimFloat.ltb 0 (foldl PrimFloat.add 0%float fs)).

(** Lines 69-73: the padding attribute. *)
Definition init_domain_padding (locals : gmap string pyval)
  : result pyval :=
  domain_padding ← load_name locals "domain_padding";
  match domain_padding with
  | VNone => Ok VNone
  | VList l =>
      positive ← sum_is_positive l;
      if positive : bool then
        let domain_padding := VList (VInt 0 :: l) in
        padding_mode ← load_name locals "domain_padding_mode";
        output_scaling_factor ← load_name locals "output_scaling_factor";
        mret (VObj "DomainPadding"
                [domain_padding; padding_mode; output_scaling_factor])
      else Ok VNone
  | _ => Ok VNone
  end.

(** One [RNO_layer(n_modes, width, return_sequences=..., ...)]. *)
Definition make_layer (locals : gmap string pyval) (return_sequences : bool)
  : result pyval :=
  n_modes ← load_name locals "n_modes";
  width ← load_name locals "width";
  fft_norm ← load_name locals "fft_norm";
  factorization ← load_name locals "factorization";
  separable ← load_name locals "separable";
  mret (VObj "RNO_layer"
          [n_modes; width; VBool return_sequences; fft_norm; factorization;
           separable]).

(** Lines 69-88, after [self.width] is set. *)
Definition init_rest (locals : gmap string pyval)
    (self : gmap string pyval) : result (gmap string pyval) :=
  padding ← init_domain_padding locals;
  let self := <["domain_padding" := padding]> self in
  domain_padding_mode ← load_name locals "domain_padding_mode";
  let self := <["domain_padding_mode" := domain_padding_mode]> self in
  in_channels ← load_name locals "in_channels";
  let self := <["in_channels" := in_channels]> self in
  out_channels ← load_name locals "out_channels";
  let self := <["out_channels" := out_channels]> self in
  residual ← load_name locals "residual";
  let self := <["residual" := residual]> self in
  in_channels ← load_name locals "in_channels";
  self_width ← match self !! "width" with
               | Some w => Ok w
               | None => Raise TypeError
               end;
  let self := <["lifting" := VObj "Linear" [in_channels; self_width]]> self in
  n_layers ← load_name locals "n_layers";
  n ← as_int n_layers;
  module_list ← mapM (fun _ => make_layer locals true)
                     (seqZ 0 (n - 1));
  last_layer ← make_layer locals false;
  let module_list := module_list ++ [last_layer] in
  let self := <["layers" := VObj "ModuleList" [VList module_list]]> self in
  out_channels ← load_name locals "out_channels";
  let self := <["projection" := VObj "Linear" [self_width; out_channels]]> self in
  mret self.

(** [RNO.__init__]: the attributes of the new object, or the exception. *)
Definition RNO_init (a : init_args) : result (gmap string pyval) :=
  let locals := init_locals (VObj "RNO" []) a in
  let self : gmap string pyval := ∅ in (* super(RNO, self).__init__() *)
  n_modes ← load_name locals "n_modes";
  let self := <["n_modes" := n_modes]> self in
  n_modes ← load_name locals "n_modes";
  n_dims ← py_len n_modes;
  let self := <["n_dims" := VInt n_dims]> self in
  n_layers ← load_name locals "n_layers";
  let self := <["n_layers" := n_layers]> self in
  width ← load_name locals "width";
  let self := <["width" := width]> self in
  init_rest locals self.

End Rno.

Module CalibrationSet.
Import Calibration.

(** The number of values of [row] that rank strictly above [c]. *)
Definition n_above `{RatioOps A} (c : A) (row : list A) : nat :=
  length (filter (fun r => ratio_leb r c = false) row).

(** The calibration functions with more than [d] pointwise ratios above
    [c]. *)
Definition uncovered `{RatioOps A} (c : A) (d : nat) (rows : list (list A))
  : list (list A) :=
  filter (fun row => (d < n_above c row)%nat) rows.
End CalibrationSet.

Module Coverage.

(** *** eval_coverage_bandwidth (scripts/train_uqno_darcy.py)

    One batch of the test loader after [uqno_data_proc.postprocess]: the
    pointwise true error [sample['y']] and the predicted uncertainty, two
    tensors of one shape, stored flat in row-major order.  Their float32
    values and the means taken over them are idealised as exact
    rationals. *)
Record batch : Type := {
  b_shape : list nat;
  pointwise_true_err : list Q;
  uncertainty_pred : list Q
}.

Definition numel (shape : list nat) : nat := foldr Nat.mul 1%nat shape.

Definition batch_wf (b : batch) : Prop :=
  length (pointwise_true_err b) = numel (b_shape b)
  /\ length (uncertainty_pred b) = numel (b_shape b).

(** [t.squeeze()] drops every axis of size 1. *)
Definition squeeze (shape : list nat) : list nat :=
  filter (fun d => d <> 1%nat) shape.

(** [t.shape[0]] *)
Definition shape0 (shape : list nat) : result nat :=
  match shape with
  | [] => Raise IndexError
  | d :: _ => Ok d
  end.

Definition chunks {A} (m : nat) (l : list A) (count : nat) : list (list A) :=
  (fun i => take m (drop (i * m) l)) <$> seq 0 count.

(** [t.view(d0, -1)] on flat data: torch refuses a tensor without elements
    (the free axis is ambiguous) and a [d0] that does not divide the number
    of elements. *)
Definition view_rows {A} (d0 : nat) (l : list A) : result (list (list A)) :=
  if decide (length l = 0%nat) then Raise RuntimeError
  else if decide (d0 = 0%nat \/ (length l mod d0 <> 0)%nat) then Raise RuntimeError
  else Ok (chunks (length l / d0) l d0).

Definition Qsum (l : list Q) : Q := foldr Qplus 0%Q l.

(** [torch.mean] along the last axis *)
Definition Qmean (l : list Q) : Q :=
  (Qsum l / inject_Z (Z.of_nat (length l)))%Q.

Definition Qlt_bool (x y : Q) : bool := negb (Qle_bool y x).

(** [.float()] of a boolean tensor *)
Definition to_float (b : bool) : Q := if b then 1%Q else 0%Q.

(** The body of the loop over the test loader: the average interval width
    per instance, and whether each instance has at least [1 - alpha] of its
    points inside the predicted band. *)
Definition in_pred (b : batch) : list bool :=
  zip_with (fun e u => Qlt_bool (Qabs e) (Qabs u))
           (pointwise_true_err b) (uncertainty_pred b).

Definition batch_stats (alpha : Q) (b : batch) : result (list Q * list bool) :=
  let in_pred := in_pred b in
  n ← shape0 (b_shape b);
  widths ← view_rows n (Qabs <$> uncertainty_pred b);
  let avg_interval := Qmean <$> (widths : list (list Q)) in
  n' ← shape0 (squeeze (b_shape b));
  in_pred_flattened ← view_rows n' in_pred;
  let in_pred_instancewise :=
    (fun row : list bool => Qle_bool (1 - alpha)%Q (Qmean (to_float <$> row)))
      <$> (in_pred_flattened : list (list bool)) in
  mret (avg_interval, in_pred_instancewise).

(** [torch.cat] of one-dimensional tensors; an empty list is refused with
    a ValueError. *)
Definition torch_cat {A} (l : list (list A)) : result (list A) :=
  match l with
  | [] => Raise ValueError
  | _ => Ok (concat l)
  end.

Definition eval_coverage_bandwidth (test_loader : list batch) (alpha : Q)
  : result (Q * Q) :=
  stats ← mapM (batch_stats alpha) test_loader;
  in_pred ← torch_cat (snd <$> stats);
  intervals ← torch_cat (fst <$> stats);
  let mean_interval := Qmean intervals in
  let in_pred_percentage := Qmean (to_float <$> (in_pred : list bool)) in
  mret (mean_interval, in_pred_percentage).

(** [uncertainty_pred * scale_factor], as [UQNODataProcessor.postprocess]
    applies the scale factor. *)
Definition scaled (c : Q) (b : batch) : batch :=
  {| b_shape := b_shape b;
     pointwise_true_err := pointwise_true_err b;
     uncertainty_pred := (fun u => u * c)%Q <$> uncertainty_pred b |}.


(** Two outcomes that differ at most in the returned values: the same
    exception, or two results related by [R]. *)
Definition outcome_rel {A B} (R : A -> B -> Prop) (r : result A) (r' : result B)
  : Prop :=
  match r, r' with
  | Ok a, Ok b => R a b
  | Raise e, Raise e' => e = e'
  | _, _ => False
  end.

Definition stats_rel (Rw : Q -> Q -> Prop)
    (s s' : list Q * list bool) : Prop :=
  Forall2 Rw s.1 s'.1
  /\ Forall2 (fun b b' : bool => b = true -> b' = true) s.2 s'.2.

(** Two small batches on a 2 x 2 grid, of two instances and of one. *)
Definition two_instance_batch : batch :=
  {| b_shape := [2; 1; 2; 2]%nat;
     pointwise_true_err := [1; 1; 1; 3; 1; 1; 1; 1]%Q;
     uncertainty_pred := [2; 2; 2; 2; 2; 2; 2; 2]%Q |}.

Definition one_instance_batch : batch :=
  {| b_shape := [1; 1; 2; 2]%nat;
     pointwise_true_err := [1; 1; 3; 3]%Q;
     uncertainty_pred := [2; 2; 2; 2]%Q |}.

End Coverage.

Module DatasetSplit.

(** *** The split of the training set (scripts/train_uqno_darcy.py)

    The dataset is indexed with slices over its samples; [lo:hi] follows
    Python's rules: a negative bound counts from the end, and both bounds
    are clipped to the length. *)
Definition slice_bound (len : Z) (i : Z) : Z :=
  if (i <? 0)%Z then Z.max (i + len) 0 else Z.min i len.

Definition py_slice {A} (l : list A) (lo hi : option Z) : list A :=
  let len := Z.of_nat (length l) in
  let a := from_option (slice_bound len) 0%Z lo in
  let b := from_option (slice_bound len) len hi in
  take (Z.to_nat (b - a)) (drop (Z.to_nat a) l).

Record split (A : Type) : Type := {
  solution_train_db : list A;
  residual_train_db : list A;
  residual_calib_db : list A
}.
Arguments solution_train_db {A}.
Arguments residual_train_db {A}.
Arguments residual_calib_db {A}.

Definition split_train_db {A} (train_db : list A)
    (n_train_solution n_train_residual n_calib_residual : Z) : split A :=
  {| solution_train_db := py_slice train_db None (Some n_train_solution);
     residual_train_db :=
       py_slice train_db (Some n_train_solution)
                (Some (n_train_solution + n_train_residual)%Z);
     residual_calib_db :=
       py_slice train_db (Some (n_train_solution + n_train_residual)%Z)
                (Some (n_train_solution + n_train_residual
                       + n_calib_residual)%Z) |}.

End DatasetSplit.

Module Utils.

(** *** The wandb API key (neuralop/utils.py, lines 110-136)

    [os.environ] is a map from names to values.  Reading the key file
    either gives its content or raises, whatever [open] and [read] raise;
    [str.strip] is taken as given. *)
Definition has_nul (s : string) : bool :=
  existsb (Ascii.eqb Ascii.zero) (String.list_ascii_of_string s).

(** [os.environ[name] = value]: a value with an embedded null byte is
    refused. *)
Definition environ_set (environ : gmap string string) (name value : string)
  : result (gmap string string) :=
  if has_nul value then Raise ValueError else Ok (<[name := value]> environ).

Section WandbKey.
Variable strip : string -> string.

Local Abbreviation environ_t := (gmap string string).

Definition get_wandb_api_key (environ : environ_t)
    (api_key_file : result string) : result string :=
  match environ !! "WANDB_API_KEY" with
  | Some key => Ok key
  | None => key ← api_key_file; mret (strip key)
  end.

(** The environment after the call *)
Definition set_wandb_api_key (environ : environ_t)
    (api_key_file : result string) : result environ_t :=
  match environ !! "WANDB_API_KEY" with
  | Some _ => Ok environ
  | None => key ← api_key_file; environ_set environ "WANDB_API_KEY" (strip key)
  end.

(** [wandb_login]: the key handed to [wandb.login] *)
Definition wandb_login (environ : environ_t) (api_key_file : result string)
    (key : option string) : result string :=
  match key with
  | None => get_wandb_api_key environ api_key_file
  | Some key => Ok key
  end.

End WandbKey.

(** *** Tensor elements of the normalizer

    An element is a finite value, a real number, or [None] for a
    non-finite one (nan or an infinity).  torch raises nothing on a
    division by zero or on the square root of a negative number: the
    result is non-finite, and every later operation keeps it so.  The
    roundings of the finite values are left out. *)
Definition np_float : Type := option R.

Definition fin (r : R) : np_float := Some r.
Definition of_int (z : Z) : np_float := Some (IZR z).

Definition np_lift2 (f : R -> R -> R) (x y : np_float) : np_float :=
  a ← x; b ← y; Some (f a b).

Definition np_add : np_float -> np_float -> np_float := np_lift2 Rplus.
Definition np_sub : np_float -> np_float -> np_float := np_lift2 Rminus.
Definition np_mul : np_float -> np_float -> np_float := np_lift2 Rmult.
Definition np_div (x y : np_float) : np_float :=
  a ← x; b ← y; if Req_dec_T b 0 then None else Some (a / b)%R.
Definition np_sqrt (x : np_float) : np_float :=
  a ← x; if Rle_dec 0 a then Some (sqrt a) else None.

(** *** UnitGaussianNormalizer (neuralop/utils.py, lines 8-100)

    Data tensors [X] and statistics tensors [S] (the mean and the standard
    deviation, of the shape of one sample) with the tensor operations the
    class applies.  Indexing a statistics tensor can raise. *)
Class NormalizerOps (X S : Type) : Type := {
  x_sub : X -> S -> X;                    (* x -= s *)
  x_div : X -> S -> X;                    (* x /= s *)
  x_mul : X -> S -> X;                    (* x *= s *)
  x_add : X -> S -> X;                    (* x += s *)
  s_add_eps : S -> np_float -> S          (* self.std + self.eps *)
}.

Class IndexOps (S I : Type) : Type := {
  s_rank : S -> nat;                      (* len(s.shape) *)
  idx_rank : I -> nat;                    (* len(sample_idx[0].shape) *)
  s_index : S -> I -> result S;           (* s[sample_idx] *)
  s_index_cols : S -> I -> result S       (* s[:, sample_idx] *)
}.

Record UnitGaussianNormalizer (S : Type) : Type := {
  mean : S;
  std : S;
  eps : np_float
}.
Arguments mean {S}.
Arguments std {S}.
Arguments eps {S}.

Section Normalizer.
Context {X S I : Type} `{NormalizerOps X S} `{IndexOps S I}.

(** [encode] works in place: the value is both what [x] holds after the
    call and what is returned. *)
Definition encode (self : UnitGaussianNormalizer S) (x : X) : X :=
  let x := x_sub x (mean self) in
  let x := x_div x (s_add_eps (std self) (eps self)) in
  x.

(** The local names [std] and [mean] of [decode]: with a [sample_idx],
    each of the two [if] statements binds them or leaves them as they
    are. *)
Definition decode_locals (self : UnitGaussianNormalizer S)
    (sample_idx : option I) : result (option (S * S)) :=
  match sample_idx with
  | None => Ok (Some (s_add_eps (std self) (eps self), mean self))
  | Some sample_idx =>
      let bound : option (S * S) := None in
      bound ←
        (if decide (s_rank (mean self) = idx_rank sample_idx) then
           s ← s_index (std self) sample_idx;
           m ← s_index (mean self) sample_idx;
           mret (Some (s_add_eps s (eps self), m))
         else mret bound);
      if decide (idx_rank sample_idx < s_rank (mean self))%nat then
        s ← s_index_cols (std self) sample_idx;
        m ← s_index_cols (mean self) sample_idx;
        mret (Some (s_add_eps s (eps self), m))
      else mret bound
  end.

(** [decode] works in place as well.  Reading a local name that no
    statement has bound raises UnboundLocalError, a NameError. *)
Definition decode (self : UnitGaussianNormalizer S) (x : X)
    (sample_idx : option I) : result X :=
  bound ← decode_locals self sample_idx;
  match bound with
  | None => Raise (NameError "std")
  | Some (std, mean) =>
      let x := x_mul x std in
      let x := x_add x mean in
      mret x
  end.

End Normalizer.

(** Batches of flattened samples: a statistics tensor is one flattened
    sample, and it is broadcast over the samples of a batch. *)
Definition rows_op (f : np_float -> np_float -> np_float)
    (x : list (list np_float)) (s : list np_float) : list (list np_float) :=
  (fun row => zip_with f row s) <$> x.

#[global] Instance rows_ops : NormalizerOps (list (list np_float)) (list np_float) :=
  {| x_sub := rows_op np_sub;
     x_div := rows_op np_div;
     x_mul := rows_op np_mul;
     x_add := rows_op np_add;
     s_add_eps s e := (fun v => np_add v e) <$> s |}.

(** A small index structure: the statistics have one axis, an index is
    given by the rank of its first entry, and indexing keeps the
    statistics as they are. *)
Definition toy_index_ops : IndexOps (list np_float) nat :=
  {| s_rank _ := 1%nat;
     idx_rank i := i;
     s_index s _ := Ok s;
     s_index_cols s _ := Ok s |}.

(** *** compute_statistics on a generator (lines 43-55)

    The items are statistics-shaped tensors.  [total_sum = first_item]
    binds a second name to the first item, so the [+=] of the loop writes
    into the tensor that the generator yielded first: the result carries
    what that tensor holds after the call. *)
Inductive statistics_exn : Type :=
| StopIteration      (* next() on a generator without items *)
| UnsupportedType.   (* the ValueError of the last branch *)

Inductive statistics_input (X S : Type) : Type :=
| TensorInput (x : X)
| GeneratorInput (items : list S)
| OtherInput.
Arguments TensorInput {X S} x.
Arguments GeneratorInput {X S} items.
Arguments OtherInput {X S}.

Class StatisticsOps (S : Type) : Type := {
  s_add : S -> S -> S;
  s_minus : S -> S -> S;
  s_square : S -> S;                 (* item**2 *)
  s_div_count : S -> Z -> S;         (* s / count *)
  s_sqrt : S -> S
}.

(** The reductions of the tensor branch, taken as given *)
Class TensorStatistics (X S : Type) : Type := {
  torch_mean : X -> list Z -> S;     (* torch.mean(x, reduce_dim, keepdim=True).squeeze(0) *)
  torch_std : X -> list Z -> S;
  x_len : X -> Z
}.

Record statistics (S : Type) : Type := {
  first_item_after : option S;
  st_count : Z;
  st_mean : S;
  st_std : S
}.
Arguments first_item_after {S}.
Arguments st_count {S}.
Arguments st_mean {S}.
Arguments st_std {S}.

Section Statistics.
Context {X S : Type} `{StatisticsOps S} `{TensorStatistics X S}.

(** The loop over the remaining items *)
Fixpoint accumulate_items (items : list S) (total_sum total_sum_square : S)
    (count : Z) : S * S * Z :=
  match items with
  | [] => (total_sum, total_sum_square, count)
  | item :: items =>
      accumulate_items items (s_add total_sum item)
        (s_add total_sum_square (s_square item)) (count + 1)%Z
  end.

Definition compute_statistics (x : statistics_input X S) (reduce_dim : list Z)
  : statistics_exn + statistics S :=
  match x with
  | TensorInput x =>
      inr {| first_item_after := None;
             st_count := x_len x;
             st_mean := torch_mean x reduce_dim;
             st_std := torch_std x reduce_dim |}
  | GeneratorInput [] => inl StopIteration
  | GeneratorInput (first_item :: items) =>
      let '(total_sum, total_sum_square, count) :=
        accumulate_items items first_item (s_square first_item) 1%Z in
      let mean := s_div_count total_sum count in
      let variance :=
        s_div_count
          (s_minus total_sum_square (s_div_count (s_square total_sum) count))
          (count - 1)%Z in
      inr {| first_item_after := Some total_sum;
             st_count := count;
             st_mean := mean;
             st_std := s_sqrt variance |}
  | OtherInput => inl UnsupportedType
  end.

End Statistics.

#[global] Instance vector_statistics_ops : StatisticsOps (list np_float) :=
  {| s_add := zip_with np_add;
     s_minus := zip_with np_sub;
     s_square s := (fun v => np_mul v v) <$> s;
     s_div_count s n := (fun v => np_div v (of_int n)) <$> s;
     s_sqrt s := np_sqrt <$> s |}.

End Utils.

Module Uno.

(** *** UNO.forward (neuralop/models/tfno.py, lines 220-243)

    The lifting, the Fourier blocks, the skip modules, the projection, the
    padding, [resample] and [torch.cat] are defined elsewhere; tensors are
    taken with their shape, which has no empty axis. *)
Class UnoOps (tensor : Type) : Type := {
  shape : tensor -> list positive;
  resample : tensor -> list Q -> list Z -> tensor;
  cat : list tensor -> Z -> tensor
}.

(** The attributes of an UNO instance that [forward] reads.
    [horizontal_skips_map] is a dict from layer numbers to layer numbers,
    [horizontal_skips] a ModuleDict keyed by [str(i)]. *)
Record UNO (tensor : Type) : Type := {
  n_dim : Z;
  n_layers : nat;
  horizontal_skips_map : gmap Z Z;
  domain_padding : option (Rno.DomainPadding tensor);
  lifting : tensor -> tensor;
  fno_blocks : list (tensor -> tensor);
  horizontal_skips : gmap string (tensor -> tensor);
  projection : tensor -> tensor
}.
Arguments n_dim {tensor} _.
Arguments n_layers {tensor} _.
Arguments horizontal_skips_map {tensor} _.
Arguments domain_padding {tensor} _.
Arguments lifting {tensor} _ _.
Arguments fno_blocks {tensor} _.
Arguments horizontal_skips {tensor} _.
Arguments projection {tensor} _ _.

Section Model.
Context {tensor : Type} `{UnoOps tensor}.

(** [d[key]] for a dict with integer keys and for a ModuleDict *)
Definition int_dict_get {A} (d : gmap Z A) (key : Z) : result A :=
  match d !! key with
  | Some v => Ok v
  | None => Raise (KeyError (pretty key))
  end.

Definition module_dict_get {A} (d : gmap string A) (key : string) : result A :=
  match d !! key with
  | Some v => Ok v
  | None => Raise (KeyError key)
  end.

(** [layer_idx in self.horizontal_skips_map.values()] *)
Definition is_skip_source (m : gmap Z Z) (layer_idx : Z) : bool :=
  bool_decide (layer_idx ∈ (map_to_list m).*2).

(** [[m/n for (m,n) in zip(x.shape, skip_val.shape)][-1*self.n_dim:]] *)
Definition res_scalings (x skip_val : tensor) (n_dim : Z) : list Q :=
  let res_scalings :=
    zip_with (fun m n => Zpos m # n) (shape x) (shape skip_val) in
  DatasetSplit.py_slice res_scalings (Some (-1 * n_dim)%Z) None.

(** The loop over [range(self.n_layers)] with the dict [skip_outputs] *)
Fixpoint forward_layers (self : UNO tensor) (idxs : list nat) (x : tensor)
    (skip_outputs : gmap Z tensor) : result tensor :=
  match idxs with
  | [] => Ok x
  | layer_idx :: idxs' =>
      x ← match horizontal_skips_map self !! Z.of_nat layer_idx with
          | Some source =>
              skip_val ← int_dict_get skip_outputs source;
              let res_scalings := res_scalings x skip_val (n_dim self) in
              let t := resample skip_val res_scalings
                         (seqZ (- n_dim self) (n_dim self)) in
              mret (cat [x; t] 1)
          | None => mret x
          end;
      block ← Rno.list_get (fno_blocks self) layer_idx;
      let x := block x in
      skip_outputs ←
        (if is_skip_source (horizontal_skips_map self) (Z.of_nat layer_idx) then
           skip ← module_dict_get (horizontal_skips self)
                    (pretty (Z.of_nat layer_idx));
           mret (<[Z.of_nat layer_idx := skip x]> skip_outputs)
         else mret skip_outputs);
      forward_layers self idxs' x skip_outputs
  end.

Definition forward (self : UNO tensor) (x : tensor) : result tensor :=
  let x := lifting self x in
  let x := match domain_padding self with
           | Some p => Rno.pad p x
           | None => x
           end in
  x ← forward_layers self (seq 0 (n_layers self)) x ∅;
  let x := match domain_padding self with
           | Some p => Rno.unpad p x
           | None => x
           end in
  mret (projection self x).

(** An UNO as [__init__] assembles it: one block per layer and a skip
    module for every layer that is the source of a skip connection. *)
Definition assembled (self : UNO tensor) : Prop :=
  length (fno_blocks self) = n_layers self
  /\ forall i : nat,
       (i < n_layers self)%nat ->
       is_skip_source (horizontal_skips_map self) (Z.of_nat i) = true ->
       is_Some (horizontal_skips self !! pretty (Z.of_nat i)).

(** Every skip connection that enters one of the layers comes from an
    earlier layer. *)
Definition skips_point_back (self : UNO tensor) : Prop :=
  forall (i : nat) (source : Z),
    (i < n_layers self)%nat ->
    horizontal_skips_map self !! Z.of_nat i = Some source ->
    (0 <= source < Z.of_nat i)%Z.

End Model.

(** A small instance: a tensor is its number of channels. *)
Definition toy_ops : UnoOps positive :=
  {| shape t := [t];
     resample t _ _ := t;
     cat ts _ := foldr Pos.add 1%positive ts |}.

Definition toy_uno (skips : gmap Z Z) : UNO positive :=
  {| n_dim := 2;
     n_layers := 3;
     horizontal_skips_map := skips;
     domain_padding := None;
     lifting t := t;
     fno_blocks := [Pos.succ; Pos.succ; Pos.succ];
     horizontal_skips :=
       <["0" := fun t => t]> (<["1" := fun t => t]> (<["2" := fun t => t]> ∅));
     projection t := t |}.

End Uno.

Module Spectrum.

(** *** spectrum_2d (neuralop/utils.py, lines 140-192)

    The wavenumber bookkeeping works on two-dimensional tensors of whole
    numbers: a tensor is its shape and its entries.  ([index] is a float
    tensor in the source; it only ever holds -1 and sums of whole
    numbers.) *)
Record matrix : Type := {
  m_rows : nat;
  m_cols : nat;
  m_at : nat -> nat -> Z
}.

(** [torch.arange(start, end, step=1)] *)
Definition arange (start stop : Z) : list Z := seqZ start (stop - start).

(** [row.repeat(n, 1)]: [n] copies of a one-dimensional tensor, one per
    row *)
Definition repeat_rows (row : list Z) (n : nat) : matrix :=
  {| m_rows := n; m_cols := length row;
     m_at _ j := default 0%Z (row !! j) |}.

Definition transpose (m : matrix) : matrix :=
  {| m_rows := m_cols m; m_cols := m_rows m;
     m_at i j := m_at m j i |}.

Definition mat_abs (m : matrix) : matrix :=
  {| m_rows := m_rows m; m_cols := m_cols m;
     m_at i j := Z.abs (m_at m i j) |}.

(** Broadcasting of one axis: equal sizes, or one of them is 1 *)
Definition broadcast (a b : nat) : result nat :=
  if decide (a = b) then Ok a
  else if decide (a = 1%nat) then Ok b
  else if decide (b = 1%nat) then Ok a
  else Raise RuntimeError.

Definition bcast_idx (size i : nat) : nat :=
  if decide (size = 1%nat) then 0%nat else i.

Definition mat_add (a b : matrix) : result matrix :=
  rows ← broadcast (m_rows a) (m_rows b);
  cols ← broadcast (m_cols a) (m_cols b);
  mret {| m_rows := rows; m_cols := cols;
          m_at i j :=
            (m_at a (bcast_idx (m_rows a) i) (bcast_idx (m_cols a) j)
             + m_at b (bcast_idx (m_rows b) i) (bcast_idx (m_cols b) j))%Z |}.

(** [m[0:r, 0:c]]: slices are clipped to the shape *)
Definition slice_block (m : matrix) (r c : nat) : matrix :=
  {| m_rows := r `min` m_rows m; m_cols := c `min` m_cols m;
     m_at := m_at m |}.

(** [target[0:r, 0:c] = value]: the value has to broadcast to the shape of
    the block *)
Definition set_block (target : matrix) (r c : nat) (value : matrix)
  : result matrix :=
  let block_rows := r `min` m_rows target in
  let block_cols := c `min` m_cols target in
  if decide ((m_rows value = block_rows \/ m_rows value = 1%nat)
             /\ (m_cols value = block_cols \/ m_cols value = 1%nat))
  then
    Ok {| m_rows := m_rows target; m_cols := m_cols target;
          m_at i j :=
            if decide (i < block_rows /\ j < block_cols)%nat
            then m_at value (bcast_idx (m_rows value) i)
                            (bcast_idx (m_cols value) j)
            else m_at target i j |}
  else Raise RuntimeError.

(** [-1.0 * torch.ones((n, n))] *)
Definition minus_ones (n : nat) : matrix :=
  {| m_rows := n; m_cols := n; m_at _ _ := (-1)%Z |}.

(** [torch.where(index == j)]: the positions in row-major order *)
Definition where_eq (index : matrix) (j : Z) : list (nat * nat) :=
  a ← seq 0 (m_rows index);
  b ← filter (fun b => m_at index a b = j) (seq 0 (m_cols index));
  [(a, b)].

(** Lines 166-184: the tensor [index] *)
Definition spectrum_index (n_observations : nat) : result matrix :=
  let k_max := (Z.of_nat n_observations / 2)%Z in
  let wavenumers :=
    repeat_rows (arange 0 k_max ++ arange (- k_max) 0) n_observations in
  let k_x := transpose wavenumers in
  let k_y := wavenumers in
  sum_k ← mat_add (mat_abs k_x) (mat_abs k_y);
  let index := minus_ones n_observations in
  let block := Z.to_nat (k_max + 1) in
  set_block index block block (slice_block sum_k block block).

(** The signal, its Fourier transform and the reductions over it are
    torch's: [band signal ind] stands for the column
    [(signal[:, ind[0], ind[1]].sum(dim=1)).abs() ** 2] and [mean_rows] for
    the mean over the first axis of the tensor with these columns.
    Without [normalize] the source calls [torch.fft.rfft2] with the keyword
    [normalized], which that function does not have: a TypeError. *)
Class SpectrumOps (signal column out : Type) : Type := {
  shape0 : signal -> result Z;
  view : signal -> Z -> nat -> nat -> result signal;
  fft2 : signal -> signal;
  band : signal -> list (nat * nat) -> column;
  mean_rows : list column -> out
}.

Definition spectrum_2d `{SpectrumOps signal column out}
    (sig : signal) (n_observations : nat) (normalize : bool) : result out :=
  T ← shape0 sig;
  sig ← view sig T n_observations n_observations;
  sig ← (if normalize then Ok (fft2 sig) else Raise TypeError);
  index ← spectrum_index n_observations;
  let spectrum :=
    (fun j => band sig (where_eq index j))
      <$> seqZ 1 (Z.of_nat n_observations) in
  mret (mean_rows spectrum).

(** A small instance: a signal is a list of numbers, a band collects the
    positions it sums over. *)
Definition toy_spectrum_ops
  : SpectrumOps (list Z) (list (nat * nat)) (list (list (nat * nat))) :=
  {| shape0 s := Ok (Z.of_nat (length s));
     view s _ _ _ := Ok s;
     fft2 s := s;
     band _ ind := ind;
     mean_rows cols := cols |}.

End Spectrum.

(** * Properties *)

(** ** The ceiling *)

Lemma Rceil_spec (r : R) : (IZR (Rceil r) - 1 < r <= IZR (Rceil r))%R.
Proof.
  unfold Rceil, Int_part. destruct (archimed (- r)) as [Hgt Hle].
  rewrite opp_IZR, minus_IZR. lra.
Qed.

Lemma Rceil_unique (r : R) (z : Z) :
  (IZR z - 1 < r <= IZR z)%R -> Rceil r = z.
Proof.
  intros [Hlo Hhi]. destruct (Rceil_spec r) as [Clo Chi].
  assert (IZR (Rceil r) < IZR z + 1)%R as Ha by lra.
  assert (IZR z < IZR (Rceil r) + 1)%R as Hb by lra.
  rewrite <- plus_IZR in Ha, Hb. apply lt_IZR in Ha, Hb. lia.
Qed.

Lemma Rceil_IZR (z : Z) : Rceil (IZR z) = z.
Proof. apply Rceil_unique. lra. Qed.

Lemma Rceil_le (a b : R) : (a <= b)%R -> (Rceil a <= Rceil b)%Z.
Proof.
  intros Hab. destruct (Rceil_spec a) as [Alo _], (Rceil_spec b) as [_ Bhi].
  assert (IZR (Rceil a) < IZR (Rceil b) + 1)%R as Hlt by lra.
  rewrite <- plus_IZR in Hlt. apply lt_IZR in Hlt. lia.
Qed.

Module CalibrationFacts.
Import Float64 Calibration.

(** *** The closed forms of the specification, over the real numbers *)
(** Facts of real analysis the bounds below rest on. *)
Lemma exp_le (a b : R) : (a <= b)%R -> (exp a <= exp b)%R.
Proof.
  intros [Hlt | ->].
  - left. apply exp_increasing. exact Hlt.
  - right. reflexivity.
Qed.

Lemma ln_le_minus1 (y : R) : (0 < y)%R -> (ln y <= y - 1)%R.
Proof.
  intros Hy. destruct (Rle_or_lt (ln y) (y - 1)) as [Hle | Hgt]; [exact Hle|].
  exfalso. apply exp_increasing in Hgt. rewrite (exp_ln y Hy) in Hgt.
  pose proof (exp_ineq1_le (y - 1)). lra.
Qed.

Lemma ln_nonpos (delta : R) : (0 < delta <= 1)%R -> (ln delta <= 0)%R.
Proof. intros [Hd Hd1]. pose proof (ln_le_minus1 delta Hd). lra. Qed.

Lemma IZR_pos (n : Z) : (0 < n)%Z -> (0 < IZR n)%R.
Proof. intros Hn. apply (IZR_lt 0 n). exact Hn. Qed.

Lemma radicand_nonneg (delta : R) (n_gridpts : Z) :
  (0 < n_gridpts)%Z -> (0 < delta <= 1)%R ->
  (0 <= - ln delta / 2 / IZR n_gridpts)%R.
Proof.
  intros Hn Hd. pose proof (ln_nonpos delta Hd) as Hl.
  pose proof (Rinv_0_lt_compat _ (IZR_pos n_gridpts Hn)) as Hi.
  unfold Rdiv. apply Rmult_le_pos; [lra | lra].
Qed.

Lemma spec_lb_nonneg (delta : R) (n : Z) : (0 <= spec_lb delta n)%R.
Proof. apply sqrt_pos. Qed.

Lemma spec_lb_sqr (delta : R) (n : Z) :
  (0 < n)%Z -> (0 < delta <= 1)%R ->
  (spec_lb delta n * spec_lb delta n = - ln delta / (2 * IZR n))%R.
Proof.
  intros Hn Hd. unfold spec_lb. apply sqrt_sqrt.
  pose proof (radicand_nonneg delta n Hn Hd) as Hr. pose proof (IZR_pos n Hn).
  replace (- ln delta / (2 * IZR n))%R with (- ln delta / 2 / IZR n)%R
    by (field; lra).
  exact Hr.
Qed.

(** Over the reals the division by [n_samples] and the multiplication that
    follows cancel. *)
Lemma spec_function_idx_cancel (alpha delta : R) (n_samples n : Z) :
  n_samples <> 0%Z ->
  spec_function_idx alpha delta n_samples n
  = Rceil (IZR (n_samples + 1)
           * (delta - exp (- 2 * IZR n * spec_t alpha delta n ^ 2))).
Proof.
  intros Hs. unfold spec_function_idx, spec_function_percentile.
  cbv zeta.
  set (c := Rceil (IZR (n_samples + 1) * _)).
  replace (IZR c / IZR n_samples * IZR n_samples)%R with (IZR c)
    by (field; apply not_0_IZR; exact Hs).
  apply Rceil_IZR.
Qed.

(** The intermediate tolerance lies between the lower bound and alpha, on
    the side alpha is on. *)
Lemma spec_t_between (alpha delta : R) (n : Z) :
  (spec_lb delta n <= alpha)%R ->
  (spec_lb delta n <= spec_t alpha delta n <= alpha)%R.
Proof. unfold spec_t. cbv zeta. intros Ha. lra. Qed.

(** Over the reals both closed forms are non-decreasing in alpha. *)
Lemma spec_domain_idx_mono (alpha1 alpha2 delta : R) (n : Z) :
  (0 < n)%Z -> (alpha1 <= alpha2)%R ->
  (spec_domain_idx alpha1 delta n <= spec_domain_idx alpha2 delta n)%Z.
Proof.
  intros Hn Ha. unfold spec_domain_idx, spec_t. cbv zeta.
  apply Rceil_le. apply Rmult_le_compat_r.
  - left. apply IZR_pos. exact Hn.
  - lra.
Qed.

Lemma spec_function_idx_mono (alpha1 alpha2 delta : R) (n_samples n : Z) :
  (0 < n)%Z -> (0 < n_samples)%Z ->
  (spec_lb delta n <= alpha1)%R -> (alpha1 <= alpha2)%R ->
  (spec_function_idx alpha1 delta n_samples n
   <= spec_function_idx alpha2 delta n_samples n)%Z.
Proof.
  intros Hn Hs Hlb Ha.
  rewrite !spec_function_idx_cancel by lia.
  pose proof (spec_lb_nonneg delta n) as Hlb0.
  pose proof (spec_t_between alpha1 delta n Hlb) as [Ht1 _].
  assert (spec_t alpha1 delta n <= spec_t alpha2 delta n)%R as Ht
    by (unfold spec_t; cbv zeta; lra).
  set (t1 := spec_t alpha1 delta n) in *. set (t2 := spec_t alpha2 delta n) in *.
  pose proof (IZR_pos n Hn) as HN.
  assert (t1 * t1 <= t2 * t2)%R as Hsq by (apply Rmult_le_compat; lra).
  assert (- 2 * IZR n * t2 ^ 2 <= - 2 * IZR n * t1 ^ 2)%R as Hexp.
  { replace (t2 ^ 2)%R with (t2 * t2)%R by ring.
    replace (t1 ^ 2)%R with (t1 * t1)%R by ring.
    pose proof (Rmult_le_compat_l (IZR n) _ _ (Rlt_le _ _ HN) Hsq). lra. }
  apply exp_le in Hexp.
  apply Rceil_le. apply Rmult_le_compat_l.
  - apply (IZR_le 0 (n_samples + 1)). lia.
  - lra.
Qed.






(** *** The closed form at one input *)

(** Bounds on the exponential by repeated squaring *)
Lemma exp_double_lower (y a : R) :
  (0 <= a <= exp y)%R -> (a * a <= exp (2 * y))%R.
Proof.
  intros [Ha Hy]. replace (2 * y)%R with (y + y)%R by ring.
  rewrite exp_plus. apply Rmult_le_compat; assumption.
Qed.

Lemma ln_lower (a y : R) : (0 < y)%R -> (exp a <= y)%R -> (a <= ln y)%R.
Proof.
  intros Hy Ha. destruct (Rle_or_lt a (ln y)) as [Hle | Hlt]; [exact Hle|].
  exfalso. apply exp_increasing in Hlt. rewrite (exp_ln y Hy) in Hlt. lra.
Qed.

Lemma ln_upper (a y : R) : (0 < y)%R -> (y <= exp a)%R -> (ln y <= a)%R.
Proof.
  intros Hy Ha. destruct (Rle_or_lt (ln y) a) as [Hle | Hlt]; [exact Hle|].
  exfalso. apply exp_increasing in Hlt. rewrite (exp_ln y Hy) in Hlt. lra.
Qed.


(** From [a <= exp y] with a rational [a >= 0] to [b <= exp (2 y)] for a
    rational [b <= a * a]. *)
Ltac exp_square H b y2 :=
  match type of H with
  | (?a <= exp ?y)%R =>
      let H' := fresh "Hsq" in
      assert (b <= exp y2)%R as H'
        by (replace y2 with (2 * y)%R by lra;
            apply Rle_trans with (a * a)%R;
            [lra | apply exp_double_lower; split; [lra | exact H]]);
      clear H; rename H' into H
  end.

(** exp 0.29 >= 4/3 *)
Lemma exp_029 : (4 / 3 <= exp (29 / 100))%R.
Proof.
  pose proof (exp_ineq1_le (29 / 6400)) as H.
  exp_square H (100908 / 100000)%R (29 / 3200)%R.
  exp_square H (101824 / 100000)%R (29 / 1600)%R.
  exp_square H (103681 / 100000)%R (29 / 800)%R.
  exp_square H (107497 / 100000)%R (29 / 400)%R.
  exp_square H (115556 / 100000)%R (29 / 200)%R.
  exp_square H (4 / 3)%R (29 / 100)%R.
  exact H.
Qed.

(** exp (-0.285) >= 3/4 *)
Lemma exp_m0285 : (3 / 4 <= exp (- (285 / 1000)))%R.
Proof.
  pose proof (exp_ineq1_le (- (285 / 64000))) as H.
  exp_square H (99111 / 100000)%R (- (285 / 32000))%R.
  exp_square H (98229 / 100000)%R (- (285 / 16000))%R.
  exp_square H (96489 / 100000)%R (- (285 / 8000))%R.
  exp_square H (93101 / 100000)%R (- (285 / 4000))%R.
  exp_square H (86677 / 100000)%R (- (285 / 2000))%R.
  exp_square H (3 / 4)%R (- (285 / 1000))%R.
  exact H.
Qed.

(** exp (-0.69) >= 0.49 *)
Lemma exp_m069 : (49 / 100 <= exp (- (69 / 100)))%R.
Proof.
  pose proof (exp_ineq1_le (- (69 / 1600))) as H.
  exp_square H (9156 / 10000)%R (- (69 / 800))%R.
  exp_square H (8383 / 10000)%R (- (69 / 400))%R.
  exp_square H (7027 / 10000)%R (- (69 / 200))%R.
  exp_square H (49 / 100)%R (- (69 / 100))%R.
  exact H.
Qed.

(** exp 0.68 >= 1.94 *)
Lemma exp_068 : (194 / 100 <= exp (68 / 100))%R.
Proof.
  pose proof (exp_ineq1_le (68 / 1600)) as H.
  exp_square H (10868 / 10000)%R (68 / 800)%R.
  exp_square H (11811 / 10000)%R (68 / 400)%R.
  exp_square H (13949 / 10000)%R (68 / 200)%R.
  exp_square H (194 / 100)%R (68 / 100)%R.
  exact H.
Qed.

Lemma ln_three_quarters : (- (29 / 100) <= ln (3 / 4) <= - (285 / 1000))%R.
Proof.
  split.
  - apply ln_lower; [lra|]. rewrite exp_Ropp.
    pose proof exp_029 as H. pose proof (exp_pos (29 / 100)) as Hp.
    replace (3 / 4)%R with (/ (4 / 3))%R by lra.
    apply Rinv_le_contravar; lra.
  - apply ln_upper; [lra|]. exact exp_m0285.
Qed.

(** The closed form for alpha = 0.5, delta = 0.75, 25 samples and 4 grid
    points: the indices (1, 7). *)
Lemma spec_indices_round_trip :
  spec_domain_idx (1 / 2) (3 / 4) 4 = 1%Z
  /\ spec_function_idx (1 / 2) (3 / 4) 25 4 = 7%Z.
Proof.
  pose proof (spec_lb_nonneg (3 / 4) 4) as Hlb0.
  pose proof (spec_lb_sqr (3 / 4) 4 ltac:(lia) ltac:(lra)) as Hsq.
  pose proof ln_three_quarters as [Hlo Hhi].
  set (lb := spec_lb (3 / 4) 4) in *.
  assert (1887 / 10000 <= lb <= 1904 / 10000)%R as [Hlb1 Hlb2].
  { split.
    - destruct (Rle_or_lt (1887 / 10000) lb) as [Hle | Hlt]; [exact Hle|].
      exfalso.
      assert (lb * lb < 1887 / 10000 * (1887 / 10000))%R
        by (apply Rmult_le_0_lt_compat; lra).
      lra.
    - destruct (Rle_or_lt lb (1904 / 10000)) as [Hle | Hlt]; [exact Hle|].
      exfalso.
      assert (1904 / 10000 * (1904 / 10000) < lb * lb)%R
        by (apply Rmult_le_0_lt_compat; lra).
      lra. }
  split.
  - unfold spec_domain_idx, spec_t. cbv zeta. fold lb.
    apply Rceil_unique. lra.
  - rewrite spec_function_idx_cancel by lia. unfold spec_t. cbv zeta. fold lb.
    set (t := (lb + (1 / 2 - lb) / 3)%R).
    assert (2924 / 10000 <= t <= 2936 / 10000)%R as [Ht1 Ht2] by (unfold t; lra).
    assert (2924 / 10000 * (2924 / 10000) <= t * t)%R as Htt1
      by (apply Rmult_le_compat; lra).
    assert (t * t <= 2936 / 10000 * (2936 / 10000))%R as Htt2
      by (apply Rmult_le_compat; lra).
    replace (t ^ 2)%R with (t * t)%R by ring.
    assert (49 / 100 <= exp (-2 * 4 * (t * t)))%R as He1.
    { apply Rle_trans with (exp (- (69 / 100))); [exact exp_m069|].
      apply exp_le. lra. }
    assert (exp (-2 * 4 * (t * t)) <= 100 / 194)%R as He2.
    { apply Rle_trans with (exp (- (68 / 100))); [apply exp_le; lra|].
      rewrite exp_Ropp. pose proof exp_068 as H68.
      replace (100 / 194)%R with (/ (194 / 100))%R by lra.
      apply Rinv_le_contravar; lra. }
    apply Rceil_unique. change (IZR (25 + 1)) with 26%R. lra.
Qed.

(** *** Ranking *)

Section Ranking.
Context {A : Type} `{RatioOps A}.

(** The ranking is a rearrangement of the values *)
Lemma insert_desc_Permutation (x : A) (l : list A) : insert_desc x l ≡ₚ x :: l.
Proof.
  induction l as [|y l IH]; [reflexivity|]. cbn [insert_desc].
  destruct (ratio_leb y x); [reflexivity|].
  rewrite IH. apply Permutation_swap.
Qed.

Lemma sort_desc_Permutation (l : list A) : sort_desc l ≡ₚ l.
Proof.
  induction l as [|x l IH]; [reflexivity|].
  change (sort_desc (x :: l)) with (insert_desc x (sort_desc l)).
  rewrite insert_desc_Permutation, IH. reflexivity.
Qed.

(** and, for a total and transitive comparison, puts every value before
    the values it is at least as large as. *)
Lemma insert_desc_sorted (x : A) (l : list A) :
  (forall a b, ratio_leb a b = true \/ ratio_leb b a = true) ->
  (forall a b c, ratio_leb a b = true -> ratio_leb b c = true ->
                 ratio_leb a c = true) ->
  StronglySorted (fun a b => ratio_leb b a = true) l ->
  StronglySorted (fun a b => ratio_leb b a = true) (insert_desc x l).
Proof.
  intros Htotal Htrans Hsorted.
  induction Hsorted as [|y l Hl IH Hy]; cbn [insert_desc].
  - repeat constructor.
  - destruct (ratio_leb y x) eqn:Hyx.
    + constructor; [constructor; assumption|].
      constructor; [exact Hyx|].
      eapply Forall_impl; [exact Hy|]. cbn. intros z Hz.
      apply (Htrans z y x); assumption.
    + constructor; [exact IH|].
      rewrite insert_desc_Permutation. constructor; [|exact Hy].
      destruct (Htotal x y) as [Hxy | Hxy]; [exact Hxy | congruence].
Qed.

Lemma sort_desc_sorted (l : list A) :
  (forall a b, ratio_leb a b = true \/ ratio_leb b a = true) ->
  (forall a b c, ratio_leb a b = true -> ratio_leb b c = true ->
                 ratio_leb a c = true) ->
  StronglySorted (fun a b => ratio_leb b a = true) (sort_desc l).
Proof.
  intros Htotal Htrans. induction l as [|x l IH]; [constructor|].
  change (sort_desc (x :: l)) with (insert_desc x (sort_desc l)).
  apply insert_desc_sorted; assumption.
Qed.

Lemma insert_desc_length (x : A) (l : list A) :
  length (insert_desc x l) = S (length l).
Proof.
  induction l as [|y l IH]; [reflexivity|]. cbn [insert_desc].
  destruct (ratio_leb y x); cbn [length]; [reflexivity | now rewrite IH].
Qed.

Lemma sort_desc_length (l : list A) : length (sort_desc l) = length l.
Proof.
  induction l as [|x l IH]; [reflexivity|].
  change (sort_desc (x :: l)) with (insert_desc x (sort_desc l)).
  rewrite insert_desc_length, IH. reflexivity.
Qed.

(** The last of the first [k+1] values is the value of rank [k], counted
    from 0. *)
Lemma py_last_take (l : list A) (k : nat) (x : A) :
  l !! k = Some x -> py_last (take (S k) l) = Ok x.
Proof.
  intros Hk. unfold py_last. rewrite (take_S_r _ _ _ Hk), last_snoc. reflexivity.
Qed.

Lemma kth_largest_succ (d : Z) (l : list A) :
  (0 <= d)%Z -> kth_largest (d + 1) l = sort_desc l !! Z.to_nat d.
Proof.
  intros Hd. unfold kth_largest. destruct (decide (1 <= d + 1)%Z); [|lia].
  do 2 f_equal. lia.
Qed.

Lemma topk_last_rank (d : Z) (l : list A) (x : A) :
  (0 <= d)%Z -> kth_largest (d + 1) l = Some x ->
  (vals ← torch_topk l (d + 1); py_last vals) = Ok x.
Proof.
  intros Hd Hx. rewrite kth_largest_succ in Hx by exact Hd.
  pose proof (lookup_lt_Some _ _ _ Hx) as Hlen. rewrite sort_desc_length in Hlen.
  unfold torch_topk. destruct (decide (0 <= d + 1 <= Z.of_nat (length l))%Z); [|lia].
  cbn [mbind result_bind].
  replace (Z.to_nat (d + 1)) with (S (Z.to_nat d)) by lia.
  apply py_last_take. exact Hx.
Qed.

Lemma kth_largest_in_range (d : Z) (l : list A) :
  (0 <= d < Z.of_nat (length l))%Z -> exists x, kth_largest (d + 1) l = Some x.
Proof.
  intros Hd. rewrite kth_largest_succ by lia.
  apply lookup_lt_is_Some. rewrite sort_desc_length. lia.
Qed.

Lemma pointwise_quantile_rank (val_ratios : list (list A)) (d : Z) :
  (0 <= d)%Z ->
  Forall (fun row => (d < Z.of_nat (length row))%Z) val_ratios ->
  exists stats,
    mapM (kth_largest (d + 1)) val_ratios = Some stats
    /\ val_ratios_pointwise_quantile val_ratios d = Ok stats
    /\ length stats = length val_ratios.
Proof.
  intros Hd Hrows. unfold val_ratios_pointwise_quantile.
  induction Hrows as [|row rows Hrow _ IH].
  - exists []. repeat split.
  - destruct IH as (stats & Hspec & Hcode & Hlen).
    destruct (kth_largest_in_range d row ltac:(lia)) as [x Hx].
    exists (x :: stats). cbn [mapM].
    rewrite (topk_last_rank d row x Hd Hx), Hx, Hspec, Hcode.
    cbn. rewrite Hlen. repeat split.
Qed.

(** C2 (as the code has it). Whenever get_coeff_quantile_idx returns
    (domain_idx, function_idx) with 0 <= domain_idx below the number of
    ratios of every calibration function and 0 <= function_idx below the
    number of calibration functions, the scale factor of the calibration
    run is the absolute value of the (function_idx + 1)-th largest
    (1-indexed, ranked descending) per-function statistic, where each
    statistic is the (domain_idx + 1)-th largest pointwise ratio of its
    function. *)
Theorem calibration_scale_factor_rank
    (alpha delta : float) (darcy_discretization : Z) (val_ratios : list (list A))
    (domain_idx function_idx : Z) :
  get_coeff_quantile_idx alpha delta
    (Z.of_nat (length val_ratios)) darcy_discretization
  = Ok (domain_idx, function_idx) ->
  (0 <= domain_idx)%Z ->
  Forall (fun row => (domain_idx < Z.of_nat (length row))%Z) val_ratios ->
  (0 <= function_idx < Z.of_nat (length val_ratios))%Z ->
  exists c : A,
    spec_scale_factor val_ratios (domain_idx + 1) (function_idx + 1) = Some c
    /\ calibration_scale_factor alpha delta darcy_discretization val_ratios
       = Ok (ratio_abs c).
Proof.
  intros Hidx Hd Hrows Hf.
  destruct (pointwise_quantile_rank val_ratios domain_idx Hd Hrows)
    as (stats & Hspec & Hcode & Hlen).
  destruct (kth_largest_in_range function_idx stats ltac:(lia)) as [c Hc].
  exists c. split.
  - unfold spec_scale_factor. rewrite Hspec. exact Hc.
  - unfold calibration_scale_factor. rewrite Hidx. cbn [mbind result_bind].
    unfold uncertainty_scaling_factor. rewrite Hcode. cbn [mbind result_bind].
    pose proof (topk_last_rank function_idx stats c (proj1 Hf) Hc) as Hlast.
    destruct (torch_topk stats (function_idx + 1)) as [vals|e];
      cbn [mbind result_bind] in Hlast |- *; [|discriminate Hlast].
    rewrite Hlast. reflexivity.
Qed.

End Ranking.

(** *** The outcomes of the calibration run *)

Section Outcome.
Context {A : Type} `{RatioOps A}.








End Outcome.

(** *** Concrete calls *)

(** On integers the comparison is total and transitive. *)
Lemma sort_desc_sorted_Z (l : list Z) :
  StronglySorted (fun a b => (b <=? a)%Z = true) (sort_desc l).
Proof.
  refine (sort_desc_sorted (A := Z) l _ _); cbn [ratio_leb Z_ratio].
  - intros a b. rewrite !Z.leb_le. lia.
  - intros a b c. rewrite !Z.leb_le. lia.
Qed.

(** [alpha = 0.75, delta = 0.25] on two grid points and two samples: both
    indices are 1. *)
Lemma get_coeff_quantile_idx_above_lb :
  get_coeff_quantile_idx 0.75 0.25 2 2 = Ok (1, 1)%Z.
Proof. vm_compute. reflexivity. Qed.

Lemma calibration_scale_factor_rank_witness :
  exists c : float,
    spec_scale_factor [[4; 3]; [2; 1]]%float (1 + 1) (1 + 1) = Some c
    /\ calibration_scale_factor 0.75 0.25 2 [[4; 3]; [2; 1]]%float
       = Ok (ratio_abs c).
Proof.
  apply (calibration_scale_factor_rank 0.75 0.25 2 [[4; 3]; [2; 1]]%float 1 1).
  - exact get_coeff_quantile_idx_above_lb.
  - lia.
  - repeat constructor.
  - cbn. lia.
Defined.

(** C2 fails on the code: for two calibration functions with the ratios
    (4, 3) and (2, 1), alpha = 0.75 and delta = 0.25 give the indices
    (1, 1); the largest per-function statistic over the largest pointwise
    ratios is 4, and the calibration run sets the scale factor 1. *)
Lemma calibration_scale_factor_off_by_one :
  get_coeff_quantile_idx 0.75 0.25 2 2 = Ok (1, 1)%Z
  /\ spec_scale_factor [[4; 3]; [2; 1]]%float 1 1 = Some 4%float
  /\ calibration_scale_factor 0.75 0.25 2 [[4; 3]; [2; 1]]%float
     = Ok 1%float.
Proof.
  split; [exact get_coeff_quantile_idx_above_lb|]. split; [reflexivity|].
  unfold calibration_scale_factor.
  change (Z.of_nat (length [[4; 3]; [2; 1]]%float)) with 2%Z.
  rewrite get_coeff_quantile_idx_above_lb. reflexivity.
Qed.


(** C1, on the code: for alpha = 0.5, delta = 0.75, 25 samples and 4 grid
    points the call returns (1, 8), and the closed form of the claim gives
    (1, 7): ceil(26 (0.75 - exp(-8 t^2))) is 7, and 7/25 times 25 is 7.
    In float64 the quotient 7/25 times 25 is 7.000000000000001, whose
    ceiling is 8. *)
Theorem get_coeff_quantile_idx_round_trip :
  get_coeff_quantile_idx 0.5 0.75 25 4 = Ok (1, 8)%Z
  /\ spec_domain_idx (1 / 2) (3 / 4) 4 = 1%Z
  /\ spec_function_idx (1 / 2) (3 / 4) 25 4 = 7%Z
  /\ (np_ceil (7 / 25 * 25) = 8)%float.
Proof.
  split; [vm_compute; reflexivity|].
  split; [exact (proj1 spec_indices_round_trip)|].
  split; [exact (proj2 spec_indices_round_trip)|].
  vm_compute. reflexivity.
Qed.
(** *** Shuffling the calibration set *)

Section Shuffle.
Context {A : Type} `{RatioOps A}.

Lemma sort_desc_Permutation_eq (l l' : list A) :
  (forall a b, ratio_leb a b = true \/ ratio_leb b a = true) ->
  (forall a b c, ratio_leb a b = true -> ratio_leb b c = true ->
                 ratio_leb a c = true) ->
  (forall a b, ratio_leb a b = true -> ratio_leb b a = true -> a = b) ->
  l ≡ₚ l' -> sort_desc l = sort_desc l'.
Proof.
  intros Htotal Htrans Hanti Hperm.
  apply (StronglySorted_unique_strong (fun a b => ratio_leb b a = true)).
  - intros a b _ _ Hab Hba. apply Hanti; assumption.
  - apply sort_desc_sorted; assumption.
  - apply sort_desc_sorted; assumption.
  - rewrite !sort_desc_Permutation. exact Hperm.
Qed.

Lemma torch_topk_Permutation (l l' : list A) (k : Z) :
  (forall a b, ratio_leb a b = true \/ ratio_leb b a = true) ->
  (forall a b c, ratio_leb a b = true -> ratio_leb b c = true ->
                 ratio_leb a c = true) ->
  (forall a b, ratio_leb a b = true -> ratio_leb b a = true -> a = b) ->
  l ≡ₚ l' -> torch_topk l k = torch_topk l' k.
Proof.
  intros Htotal Htrans Hanti Hperm. unfold torch_topk.
  rewrite (sort_desc_Permutation_eq l l' Htotal Htrans Hanti Hperm).
  rewrite (Permutation_length Hperm). reflexivity.
Qed.

Lemma mapM_result_Permutation {B C : Type} (f : B -> result C) (l l' : list B) :
  l ≡ₚ l' ->
  forall ys, mapM f l = Ok ys -> exists ys', mapM f l' = Ok ys' /\ ys ≡ₚ ys'.
Proof.
  induction 1 as [|x l l' Hperm IH|x y l|l l' l'' _ IH1 _ IH2]; intros ys Hys.
  - exists ys. split; [exact Hys | reflexivity].
  - cbn [mapM] in Hys |- *.
    destruct (f x) as [z|e]; cbn [mbind result_bind] in Hys |- *; [|discriminate Hys].
    destruct (mapM f l) as [zs|e]; cbn [mbind result_bind] in Hys; [|discriminate Hys].
    injection Hys as <-. destruct (IH zs eq_refl) as (zs' & -> & Hzs).
    exists (z :: zs'). split; [reflexivity | constructor; exact Hzs].
  - cbn [mapM] in Hys |- *.
    destruct (f y) as [zy|e]; cbn [mbind result_bind] in Hys |- *; [|discriminate Hys].
    destruct (f x) as [zx|e]; cbn [mbind result_bind] in Hys |- *; [|discriminate Hys].
    destruct (mapM f l) as [zs|e]; cbn [mbind result_bind] in Hys |- *; [|discriminate Hys].
    injection Hys as <-. exists (zx :: zy :: zs). split; [reflexivity | constructor].
  - destruct (IH1 ys Hys) as (ys' & Hys' & Hp1).
    destruct (IH2 ys' Hys') as (ys'' & Hys'' & Hp2).
    exists ys''. split; [exact Hys'' | etransitivity; eassumption].
Qed.

Lemma mapM_result_ext {B C : Type} (f : B -> result C) (R : B -> B -> Prop)
    (l l' : list B) :
  (forall x y, R x y -> f x = f y) ->
  Forall2 R l l' -> mapM f l = mapM f l'.
Proof.
  intros Hf. induction 1 as [|x y l l' Hxy _ IH]; [reflexivity|].
  cbn [mapM]. rewrite (Hf x y Hxy), IH. reflexivity.
Qed.

(** For a comparison that is a total order, the scale factor does not
    depend on the order of the ratios within a calibration function, nor,
    when it is computed, on the order of the calibration functions (the
    calibration loader shuffles them). *)
Theorem uncertainty_scaling_factor_shuffle
    (val_ratios val_ratios' : list (list A)) (domain_idx function_idx : Z) :
  (forall a b, ratio_leb a b = true \/ ratio_leb b a = true) ->
  (forall a b c, ratio_leb a b = true -> ratio_leb b c = true ->
                 ratio_leb a c = true) ->
  (forall a b, ratio_leb a b = true -> ratio_leb b a = true -> a = b) ->
  (Forall2 Permutation val_ratios val_ratios' ->
   uncertainty_scaling_factor val_ratios domain_idx function_idx
   = uncertainty_scaling_factor val_ratios' domain_idx function_idx)
  /\ (val_ratios ≡ₚ val_ratios' ->
      forall c,
        uncertainty_scaling_factor val_ratios domain_idx function_idx = Ok c ->
        uncertainty_scaling_factor val_ratios' domain_idx function_idx = Ok c).
Proof.
  intros Htotal Htrans Hanti. split.
  - intros Hrows. unfold uncertainty_scaling_factor, val_ratios_pointwise_quantile.
    rewrite (mapM_result_ext _ Permutation val_ratios val_ratios'); [reflexivity| |exact Hrows].
    intros row row' Hrow.
    rewrite (torch_topk_Permutation row row' _ Htotal Htrans Hanti Hrow).
    reflexivity.
  - intros Hperm c Hc.
    unfold uncertainty_scaling_factor, val_ratios_pointwise_quantile in Hc |- *.
    match type of Hc with
    | context [mapM ?f val_ratios] =>
        destruct (mapM f val_ratios) as [q|e] eqn:Hq;
        cbn [mbind result_bind] in Hc; [|discriminate Hc];
        destruct (mapM_result_Permutation f _ _ Hperm q Hq) as (q' & -> & Hqq')
    end.
    cbn [mbind result_bind].
    rewrite <- (torch_topk_Permutation q q' _ Htotal Htrans Hanti Hqq').
    exact Hc.
Qed.

End Shuffle.

Lemma Z_leb_total (a b : Z) : (a <=? b)%Z = true \/ (b <=? a)%Z = true.
Proof. rewrite !Z.leb_le. lia. Qed.

Lemma Z_leb_trans (a b c : Z) :
  (a <=? b)%Z = true -> (b <=? c)%Z = true -> (a <=? c)%Z = true.
Proof. rewrite !Z.leb_le. lia. Qed.

Lemma Z_leb_antisym (a b : Z) :
  (a <=? b)%Z = true -> (b <=? a)%Z = true -> a = b.
Proof. rewrite !Z.leb_le. lia. Qed.

Lemma uncertainty_scaling_factor_shuffle_witness :
  (Forall2 Permutation [[4; 3]; [2; 1]]%Z [[3; 4]; [1; 2]]%Z ->
   uncertainty_scaling_factor [[4; 3]; [2; 1]]%Z 1 1
   = uncertainty_scaling_factor [[3; 4]; [1; 2]]%Z 1 1)
  /\ ([[4; 3]; [2; 1]]%Z ≡ₚ [[3; 4]; [1; 2]]%Z ->
      forall c,
        uncertainty_scaling_factor [[4; 3]; [2; 1]]%Z 1 1 = Ok c ->
        uncertainty_scaling_factor [[3; 4]; [1; 2]]%Z 1 1 = Ok c).
Proof.
  apply (uncertainty_scaling_factor_shuffle (A := Z)
           [[4; 3]; [2; 1]]%Z [[3; 4]; [1; 2]]%Z 1 1).
  - exact Z_leb_total.
  - exact Z_leb_trans.
  - exact Z_leb_antisym.
Defined.

End CalibrationFacts.

Module SegmentCsrFacts.
Import SegmentCsr.

Section ReducerFacts.
Context {T : Type} `{Scalar T}.

Lemma py_index_in_range (len : nat) (i : Z) :
  (0 <= i < Z.of_nat len)%Z -> py_index len i = Ok (Z.to_nat i).
Proof. intros Hi. unfold py_index. destruct (decide _); [reflexivity | lia]. Qed.

Lemma seqZ_to_nat (m n : Z) : seqZ m n = seqZ m (Z.of_nat (Z.to_nat n)).
Proof. unfold seqZ. rewrite Nat2Z.id. reflexivity. Qed.

(** The inner loop adds the rows after [p] into row [p] and leaves every
    other row as it was. *)
Lemma accumulate_spec (p cnt : nat) :
  forall (j0 : Z) (src : list (list T)) (acc : list T),
    (1 <= j0)%Z ->
    src !! p = Some acc ->
    (p + Z.to_nat j0 + cnt <= length src)%nat ->
    accumulate p (Z.of_nat p) (seqZ j0 (Z.of_nat cnt)) src
    = Ok (<[p := foldl row_add acc (take cnt (drop (p + Z.to_nat j0) src))]> src).
Proof.
  induction cnt as [|cnt IH]; intros j0 src acc Hj Hp Hlen.
  - rewrite seqZ_nil by lia. cbn [accumulate take foldl].
    rewrite list_insert_id by exact Hp. reflexivity.
  - rewrite seqZ_cons by lia. cbn [accumulate].
    rewrite py_index_in_range by lia. cbn [mbind result_bind].
    replace (Z.to_nat (Z.of_nat p + j0)) with (p + Z.to_nat j0)%nat by lia.
    destruct (lookup_lt_is_Some_2 src (p + Z.to_nat j0) ltac:(lia)) as [x Hx].
    rewrite Hp, Hx.
    replace (Z.pred (Z.of_nat (S cnt))) with (Z.of_nat cnt) by lia.
    rewrite (IH (Z.succ j0) _ (row_add acc x)).
    + rewrite list_insert_insert_eq. f_equal. f_equal.
      rewrite (drop_S _ _ _ Hx). cbn [take foldl]. f_equal. f_equal.
      replace (p + Z.to_nat (Z.succ j0))%nat with (S (p + Z.to_nat j0)) by lia.
      apply drop_insert_lt. lia.
    + lia.
    + apply list_lookup_insert_eq. apply (lookup_lt_Some _ _ _ Hp).
    + rewrite length_insert. lia.
Qed.


Lemma chain_inv (len a a' n : Z) (rest : list (Z * Z)) :
  chain len a ((a', n) :: rest) ->
  a' = a /\ (0 <= n)%Z /\ (a + n <= len)%Z /\ chain len (a + n) rest.
Proof. intros Hc. inversion Hc; subst. repeat split; assumption. Qed.

Lemma chain_lookup (len a : Z) (groups : list (Z * Z)) :
  chain len a groups ->
  forall j b n, groups !! j = Some (b, n) ->
                (a <= b)%Z /\ (0 <= n)%Z /\ (b + n <= len)%Z.
Proof.
  induction 1 as [a | a n rest Hn Hlen Hrest IH]; intros j b m Hj.
  - discriminate Hj.
  - destruct j as [|j]; cbn in Hj.
    + injection Hj as <- <-. lia.
    + specialize (IH j b m Hj). lia.
Qed.



Lemma drop_agree (cur orig : list (list T)) (p : nat) :
  (forall k, (p <= k)%nat -> cur !! k = orig !! k) ->
  drop p cur = drop p orig.
Proof.
  intros Hagree. apply list_eq. intros k. rewrite !lookup_drop.
  apply Hagree. lia.
Qed.



(** The groups the function builds from [indptr]. *)
Lemma groups_cons (a b : Z) (tl : list Z) :
  zip (removelast (a :: b :: tl))
      (zip_with Z.sub (b :: tl) (removelast (a :: b :: tl)))
  = (a, (b - a)%Z)
      :: zip (removelast (b :: tl)) (zip_with Z.sub tl (removelast (b :: tl))).
Proof. reflexivity. Qed.

Lemma groups_length (tl : list Z) : forall a,
  length (zip (removelast (a :: tl)) (zip_with Z.sub tl (removelast (a :: tl))))
  = length tl.
Proof.
  induction tl as [|b tl IH]; intros a; [reflexivity|].
  rewrite groups_cons. cbn [length]. rewrite IH. reflexivity.
Qed.

Lemma groups_lookup (tl : list Z) : forall a0 j a b,
  (a0 :: tl) !! j = Some a -> (a0 :: tl) !! S j = Some b ->
  zip (removelast (a0 :: tl)) (zip_with Z.sub tl (removelast (a0 :: tl))) !! j
  = Some (a, (b - a)%Z).
Proof.
  induction tl as [|b0 tl IH]; intros a0 j a b Ha Hb.
  - destruct j; discriminate Hb.
  - rewrite groups_cons. destruct j as [|j].
    + cbn in Ha, Hb. injection Ha as <-. injection Hb as <-. reflexivity.
    + cbn [lookup list_lookup] in Ha, Hb |- *. apply IH; assumption.
Qed.

Lemma groups_lookup_inv (tl : list Z) : forall a0 j b n,
  zip (removelast (a0 :: tl)) (zip_with Z.sub tl (removelast (a0 :: tl))) !! j
  = Some (b, n) ->
  (a0 :: tl) !! j = Some b /\ (a0 :: tl) !! S j = Some (b + n)%Z.
Proof.
  induction tl as [|b0 tl IH]; intros a0 j b n Hj.
  - discriminate Hj.
  - rewrite groups_cons in Hj. destruct j as [|j].
    + cbn in Hj. injection Hj as <- <-. cbn. split; [reflexivity|].
      f_equal. lia.
    + cbn [lookup list_lookup] in Hj |- *. apply IH. exact Hj.
Qed.

Lemma groups_chain (len : Z) (tl : list Z) : forall a0,
  (forall i a b, (a0 :: tl) !! i = Some a -> (a0 :: tl) !! S i = Some b ->
                 (a <= b)%Z) ->
  (forall a, last (a0 :: tl) = Some a -> (a <= len)%Z) ->
  chain len a0
    (zip (removelast (a0 :: tl)) (zip_with Z.sub tl (removelast (a0 :: tl)))).
Proof.
  induction tl as [|b tl IH]; intros a0 Hmono Hlast.
  - apply chain_nil.
  - rewrite groups_cons.
    assert (chain len b
              (zip (removelast (b :: tl))
                   (zip_with Z.sub tl (removelast (b :: tl))))) as Hrest.
    { apply IH.
      - intros i x y Hx Hy. apply (Hmono (S i) x y); assumption.
      - intros x Hx. apply Hlast. exact Hx. }
    pose proof (Hmono 0%nat a0 b eq_refl eq_refl) as Hab.
    assert (b <= len)%Z as Hb.
    { destruct tl as [|c tl'].
      - apply Hlast. reflexivity.
      - destruct (chain_inv _ _ _ _ _ Hrest) as (_ & Hn & Hend & _). lia. }
    apply chain_cons; [lia | lia |].
    replace (a0 + (b - a0))%Z with b by lia. exact Hrest.
Qed.



(** *** The shape of the result *)

Lemma row_add_length (width : nat) (a b : list T) :
  length a = width -> length b = width -> length (row_add a b) = width.
Proof.
  intros Ha Hb. unfold row_add. rewrite length_zip_with. lia.
Qed.

Lemma row_div_length (a : list T) (n : Z) : length (row_div a n) = length a.
Proof. unfold row_div. apply length_fmap. Qed.

Lemma accumulate_shape (width p : nat) (start : Z) (js : list Z) :
  forall src src' : list (list T),
    accumulate p start js src = Ok src' ->
    Forall (fun r => length r = width) src ->
    Forall (fun r => length r = width) src'.
Proof.
  induction js as [|j js IH]; intros src src' Hrun Hsrc.
  - cbn in Hrun. injection Hrun as <-. exact Hsrc.
  - cbn [accumulate] in Hrun.
    destruct (py_index (length src) (start + j)) as [q|e];
      cbn [mbind result_bind] in Hrun; [|discriminate Hrun].
    destruct (src !! p) as [acc|] eqn:Hp; [|discriminate Hrun].
    destruct (src !! q) as [x|] eqn:Hq; [|discriminate Hrun].
    apply (IH _ _ Hrun). apply Forall_insert; [exact Hsrc|].
    apply row_add_length.
    + apply (Forall_lookup_1 _ _ _ _ Hsrc Hp).
    + apply (Forall_lookup_1 _ _ _ _ Hsrc Hq).
Qed.

Lemma reduce_loop_shape (mean : bool) (width : nat) (groups : list (Z * Z)) :
  forall (i : nat) (st st' : state),
    reduce_loop mean i groups st = Ok st' ->
    Forall (fun r => length r = width) (st_src st) ->
    Forall (fun r => length r = width) (st_out st) ->
    Forall (fun r => length r = width) (st_out st')
    /\ length (st_out st') = length (st_out st).
Proof.
  induction groups as [|[start n] groups IH]; intros i st st' Hrun Hsrc Hout.
  - cbn in Hrun. injection Hrun as <-. split; [exact Hout | reflexivity].
  - cbn [reduce_loop] in Hrun.
    destruct (decide (start = Z.of_nat (length (st_src st)))).
    { injection Hrun as <-. split; [exact Hout | reflexivity]. }
    destruct (py_index (length (st_src st)) start) as [p|e];
      cbn [mbind result_bind] in Hrun; [|discriminate Hrun].
    destruct (accumulate p start (seqZ 1 (n - 1)) (st_src st)) as [src1|e] eqn:Hacc;
      cbn [mbind result_bind] in Hrun; [|discriminate Hrun].
    pose proof (accumulate_shape width _ _ _ _ _ Hacc Hsrc) as Hsrc1.
    set (src2 := if mean then alter (fun accum => row_div accum n) p src1
                 else src1) in Hrun.
    assert (Forall (fun r => length r = width) src2) as Hsrc2.
    { unfold src2. destruct mean; [|exact Hsrc1].
      apply Forall_alter; [exact Hsrc1|].
      intros r _ Hr. rewrite row_div_length. exact Hr. }
    destruct (src2 !! p) as [accum|] eqn:Hp; [|discriminate Hrun].
    destruct (IH _ _ _ Hrun) as [Hshape Hlen]; cbn [st_src st_out].
    + exact Hsrc2.
    + apply Forall_insert; [exact Hout|].
      apply (Forall_lookup_1 _ _ _ _ Hsrc2 Hp).
    + split; [exact Hshape|]. rewrite Hlen. cbn [st_out]. apply length_insert.
Qed.

(** Whenever segment_csr returns, on a src whose rows all have the
    trailing shape [width], the result has one row per group,
    len(indptr) - 1 rows, each of the trailing shape of src. *)
Lemma segment_csr_shape
    (width : nat) (src : list (list T)) (indptr : list Z) (reduce : string)
    (st : state) :
  segment_csr width src indptr reduce = Ok st ->
  Forall (fun r => length r = width) src ->
  length (st_out st) = (length indptr - 1)%nat
  /\ Forall (fun r => length r = width) (st_out st).
Proof.
  intros Hrun Hsrc. unfold segment_csr in Hrun.
  destruct (decide (reduce ∈ ["mean"; "sum"])); [|discriminate Hrun].
  destruct indptr as [|a0 tl]; [discriminate Hrun|].
  apply reduce_loop_shape with (width := width) in Hrun; cbn [st_src st_out] in *.
  - destruct Hrun as [Hshape Hlen]. split; [|exact Hshape].
    rewrite Hlen. apply length_replicate.
  - exact Hsrc.
  - apply Forall_replicate. apply length_replicate.
Qed.

End ReducerFacts.

(** *** The spec's scenario, in mean mode *)





(** The mean of two float32 ones is one. *)
Example segment_csr_mean_float32 :
  segment_csr 1 [[float32_of_Z 1]; [float32_of_Z 1]] [0; 2]%Z "mean"
  = Ok {| st_src := [[float32_of_Z 1]; [float32_of_Z 1]];
          st_out := [[float32_of_Z 1]] |}.
Proof. vm_compute. reflexivity. Qed.

Lemma segment_csr_shape_witness :
  length (st_out {| st_src := [[2; 2]; [1; 1]; [2; 2]; [1; 1]]%float;
                    st_out := [[2; 2]; [2; 2]; [0; 0]]%float |})
  = (length [0; 2; 4; 4]%Z - 1)%nat
  /\ Forall (fun r : list float => length r = 2%nat)
       (st_out {| st_src := [[2; 2]; [1; 1]; [2; 2]; [1; 1]]%float;
                  st_out := [[2; 2]; [2; 2]; [0; 0]]%float |}).
Proof.
  apply (segment_csr_shape 2 [[1; 1]; [1; 1]; [1; 1]; [1; 1]]%float
           [0; 2; 4; 4]%Z "sum").
  - reflexivity.
  - repeat constructor.
Defined.

(** *** Three concrete calls on float tensors *)

(** C3, on the code: in mean mode an empty group that starts before the end
    of src corrupts the group after it.  For src = [[1,1],[1,1]] and
    indptr = [0,0,2] the second group is src[0:2], its mean is [1,1];
    the call returns [inf,inf] for it. *)
Theorem segment_csr_mean_after_empty_group :
  group_mean 2 (slice [[1; 1]; [1; 1]]%float 0 2) = [1; 1]%float
  /\ segment_csr 2 [[1; 1]; [1; 1]]%float [0; 0; 2]%Z "mean"
     = Ok {| st_src := [[infinity; infinity]; [1; 1]]%float;
             st_out := [[infinity; infinity]; [infinity; infinity]]%float |}.
Proof. split; reflexivity. Qed.

(** C4, on the code: the empty group of src = [[0,1],[1,1]],
    indptr = [0,0,2] starts at 0 < len(src); in mean mode its row is
    src[0] divided by zero, [nan, inf]: no error is raised, the row is
    not zero-filled, and the nan reaches the result. *)
Theorem segment_csr_mean_empty_group_divides_by_zero :
  segment_csr 2 [[0; 1]; [1; 1]]%float [0; 0; 2]%Z "mean"
  = Ok {| st_src := [[nan; infinity]; [1; 1]]%float;
          st_out := [[nan; infinity]; [nan; infinity]]%float |}.
Proof. reflexivity. Qed.

(** C9, on the code: the call writes its argument.  For src = four rows
    [1,1] and indptr = [0,2,4,4] in sum mode the result is
    [[2,2],[2,2],[0,0]] and src is [[2,2],[1,1],[2,2],[1,1]] afterwards;
    a second call on the same tensor returns [[3,3],[3,3],[0,0]]. *)
Theorem segment_csr_sum_writes_src :
  segment_csr 2 [[1; 1]; [1; 1]; [1; 1]; [1; 1]]%float [0; 2; 4; 4]%Z "sum"
  = Ok {| st_src := [[2; 2]; [1; 1]; [2; 2]; [1; 1]]%float;
          st_out := [[2; 2]; [2; 2]; [0; 0]]%float |}
  /\ [[2; 2]; [1; 1]; [2; 2]; [1; 1]]%float
     <> [[1; 1]; [1; 1]; [1; 1]; [1; 1]]%float
  /\ segment_csr 2 [[2; 2]; [1; 1]; [2; 2]; [1; 1]]%float [0; 2; 4; 4]%Z "sum"
     = Ok {| st_src := [[3; 3]; [1; 1]; [3; 3]; [1; 1]]%float;
             st_out := [[3; 3]; [3; 3]; [0; 0]]%float |}.
Proof.
  split; [reflexivity|]. split; [|reflexivity].
  intros Heq.
  apply (f_equal (fun l : list (list float) =>
                    match l with
                    | (x :: _) :: _ => PrimFloat.eqb x 1
                    | _ => true
                    end)) in Heq.
  vm_compute in Heq. discriminate Heq.
Qed.

Section ReducerFrame.
Context {T : Type} `{Scalar T}.

(** *** What the call writes, and which exceptions it raises *)

Lemma py_index_lt (len : nat) (i : Z) (p : nat) :
  py_index len i = Ok p -> (p < len)%nat.
Proof.
  unfold py_index. intros Hp.
  destruct (decide (0 <= i < Z.of_nat len)%Z); [injection Hp as <-; lia|].
  destruct (decide (- Z.of_nat len <= i < 0)%Z); [injection Hp as <-; lia|].
  discriminate Hp.
Qed.


(** The inner loop writes row [p] only. *)
Lemma accumulate_frame (p : nat) (start : Z) (js : list Z) :
  forall src src' : list (list T),
    accumulate p start js src = Ok src' ->
    length src' = length src
    /\ forall k, k <> p -> src' !! k = src !! k.
Proof.
  induction js as [|j js IH]; intros src src' Hrun.
  - cbn in Hrun. injection Hrun as <-. split; reflexivity.
  - cbn [accumulate] in Hrun.
    destruct (py_index (length src) (start + j)) as [q|e];
      cbn [mbind result_bind] in Hrun; [|discriminate Hrun].
    destruct (src !! p) as [acc|]; [|discriminate Hrun].
    destruct (src !! q) as [x|]; [|discriminate Hrun].
    destruct (IH _ _ Hrun) as [Hlen Hkeep]. rewrite length_insert in Hlen.
    split; [exact Hlen|]. intros k Hk.
    rewrite (Hkeep k Hk). apply list_lookup_insert_ne. congruence.
Qed.


(** The loop over the groups writes the rows the groups start at, and no
    other row of [src]. *)
Lemma reduce_loop_frame (mean : bool) (groups : list (Z * Z)) :
  forall (i : nat) (st st' : state),
    reduce_loop mean i groups st = Ok st' ->
    length (st_src st') = length (st_src st)
    /\ forall k,
         (forall start n, (start, n) ∈ groups ->
                          py_index (length (st_src st)) start <> Ok k) ->
         st_src st' !! k = st_src st !! k.
Proof.
  induction groups as [|[start n] groups IH]; intros i st st' Hrun.
  - cbn in Hrun. injection Hrun as <-. split; reflexivity.
  - cbn [reduce_loop] in Hrun.
    destruct (decide (start = Z.of_nat (length (st_src st)))).
    { injection Hrun as <-. split; reflexivity. }
    destruct (py_index (length (st_src st)) start) as [p|e] eqn:Hp;
      cbn [mbind result_bind] in Hrun; [|discriminate Hrun].
    destruct (accumulate p start (seqZ 1 (n - 1)) (st_src st)) as [src1|e] eqn:Hacc;
      cbn [mbind result_bind] in Hrun; [|discriminate Hrun].
    destruct (accumulate_frame _ _ _ _ _ Hacc) as [Hlen1 Hkeep1].
    set (src2 := if mean then alter (fun accum => row_div accum n) p src1
                 else src1) in Hrun.
    assert (length src2 = length (st_src st)) as Hlen2.
    { unfold src2. destruct mean; rewrite ?length_alter; exact Hlen1. }
    assert (forall k, k <> p -> src2 !! k = st_src st !! k) as Hkeep2.
    { intros k Hk. unfold src2. destruct mean.
      - rewrite list_lookup_alter_ne by congruence. apply Hkeep1. exact Hk.
      - apply Hkeep1. exact Hk. }
    destruct (src2 !! p) as [accum|]; [|discriminate Hrun].
    destruct (IH _ _ _ Hrun) as [Hlen Hkeep]; cbn [st_src] in Hlen, Hkeep.
    split; [rewrite Hlen; exact Hlen2|].
    intros k Hk. rewrite Hkeep.
    + apply Hkeep2. intros ->. apply (Hk start n); [left | exact Hp].
    + intros start' n' Hin. rewrite Hlen2. apply (Hk start' n'). right. exact Hin.
Qed.


(** Whenever segment_csr returns, src has as many rows as before, and
    every row that is not src[indptr[i]] for one of the group starts
    indptr[:-1] holds what it held before the call. *)
Theorem segment_csr_frame
    (width : nat) (src : list (list T)) (indptr : list Z) (reduce : string)
    (st : state) :
  segment_csr width src indptr reduce = Ok st ->
  length (st_src st) = length src
  /\ forall k,
       (forall start, start ∈ removelast indptr ->
                      py_index (length src) start <> Ok k) ->
       st_src st !! k = src !! k.
Proof.
  intros Hrun. unfold segment_csr in Hrun.
  destruct (decide (reduce ∈ ["mean"; "sum"])); [|discriminate Hrun].
  destruct indptr as [|a0 tl]; [discriminate Hrun|].
  destruct (reduce_loop_frame _ _ _ _ _ Hrun) as [Hlen Hkeep];
    cbn [st_src] in Hlen, Hkeep.
  split; [exact Hlen|]. intros k Hk. apply Hkeep.
  intros start n Hin. apply Hk. apply (elem_of_zip_l _ _ _ _ Hin).
Qed.



(** *** Sum mode *)

(** In sum mode a group of at most one element writes nothing. *)
Lemma reduce_loop_sum_frame (groups : list (Z * Z)) :
  forall (i : nat) (st st' : state),
    reduce_loop false i groups st = Ok st' ->
    forall k,
      (forall start n, (start, n) ∈ groups -> (2 <= n)%Z ->
                       py_index (length (st_src st)) start <> Ok k) ->
      st_src st' !! k = st_src st !! k.
Proof.
  induction groups as [|[start n] groups IH]; intros i st st' Hrun k Hk.
  - cbn in Hrun. injection Hrun as <-. reflexivity.
  - cbn [reduce_loop] in Hrun.
    destruct (decide (start = Z.of_nat (length (st_src st)))).
    { injection Hrun as <-. reflexivity. }
    destruct (py_index (length (st_src st)) start) as [p|e] eqn:Hp;
      cbn [mbind result_bind] in Hrun; [|discriminate Hrun].
    destruct (accumulate p start (seqZ 1 (n - 1)) (st_src st)) as [src1|e] eqn:Hacc;
      cbn [mbind result_bind] in Hrun; [|discriminate Hrun].
    destruct (accumulate_frame _ _ _ _ _ Hacc) as [Hlen1 Hkeep1].
    destruct (src1 !! p) as [accum|]; [|discriminate Hrun].
    rewrite (IH _ _ _ Hrun k); cbn [st_src].
    + destruct (decide (2 <= n)%Z) as [Hn | Hn].
      * apply Hkeep1. intros ->. apply (Hk start n); [left | exact Hn | exact Hp].
      * rewrite seqZ_nil in Hacc by lia. cbn in Hacc. injection Hacc as <-.
        reflexivity.
    + intros start' n' Hin Hn'. rewrite Hlen1. apply (Hk start' n'); [right; exact Hin | exact Hn'].
Qed.

(** In sum mode, whenever segment_csr returns, a row of src is left as it
    was unless a group of two or more elements starts at it; when every
    group has at most one element, src is unchanged. *)
Theorem segment_csr_sum_frame
    (width : nat) (src : list (list T)) (indptr : list Z) (st : state) :
  segment_csr width src indptr "sum" = Ok st ->
  (forall k,
     (forall i a b, indptr !! i = Some a -> indptr !! S i = Some b ->
                    (2 <= b - a)%Z -> py_index (length src) a <> Ok k) ->
     st_src st !! k = src !! k)
  /\ ((forall i a b, indptr !! i = Some a -> indptr !! S i = Some b ->
                     (b - a <= 1)%Z) ->
      st_src st = src).
Proof.
  intros Hrun.
  assert (forall k,
     (forall i a b, indptr !! i = Some a -> indptr !! S i = Some b ->
                    (2 <= b - a)%Z -> py_index (length src) a <> Ok k) ->
     st_src st !! k = src !! k) as Hframe.
  { unfold segment_csr in Hrun.
    destruct (decide ("sum" ∈ ["mean"; "sum"])); [|discriminate Hrun].
    destruct indptr as [|a0 tl]; [discriminate Hrun|].
    intros k Hk.
    apply (reduce_loop_sum_frame _ _ _ _ Hrun k). cbn [st_src].
    intros start n Hin Hn.
    apply list_elem_of_lookup_1 in Hin as [j Hj].
    destruct (groups_lookup_inv _ _ _ _ _ Hj) as [Hja Hjb].
    apply (Hk j start (start + n)%Z Hja Hjb). lia. }
  split; [exact Hframe|].
  intros Hshort. apply list_eq. intros k. apply Hframe.
  intros i a b Ha Hb Hab. specialize (Hshort i a b Ha Hb). lia.
Qed.

(** One iteration of the loop in sum mode, for a group inside src whose
    rows are still those of the original tensor. *)
Lemma reduce_loop_sum_step (orig cur out : list (list T))
    (a n : Z) (i : nat) (rest : list (Z * Z)) (acc : list T) :
  (0 <= a)%Z -> (0 <= n)%Z -> (a < Z.of_nat (length orig))%Z ->
  (a + n <= Z.of_nat (length orig))%Z ->
  length cur = length orig ->
  (forall k, (Z.to_nat a <= k)%nat -> cur !! k = orig !! k) ->
  orig !! Z.to_nat a = Some acc ->
  exists src2 : list (list T),
    reduce_loop false i ((a, n) :: rest) {| st_src := cur; st_out := out |}
    = reduce_loop false (S i) rest
        {| st_src := src2;
           st_out := <[i := foldl row_add acc
                              (take (Z.to_nat (n - 1))
                                 (drop (S (Z.to_nat a)) orig))]> out |}
    /\ length src2 = length orig
    /\ (forall k, (Z.to_nat (a + n) <= k)%nat -> src2 !! k = orig !! k).
Proof.
  intros Ha Hn Hlt Hend Hlen Hagree Hacc.
  assert (cur !! Z.to_nat a = Some acc) as Hcur
    by (rewrite Hagree by lia; exact Hacc).
  set (total := foldl row_add acc
                  (take (Z.to_nat (n - 1)) (drop (S (Z.to_nat a)) orig))).
  exists (<[Z.to_nat a := total]> cur).
  split; [|split].
  - cbn [reduce_loop st_src st_out].
    destruct (decide (a = Z.of_nat (length cur))); [lia|].
    rewrite py_index_in_range by lia. cbn [mbind result_bind].
    pose proof (accumulate_spec (Z.to_nat a) (Z.to_nat (n - 1)) 1 cur acc
                  ltac:(lia) Hcur ltac:(lia)) as Hinner.
    rewrite Z2Nat.id in Hinner by lia. rewrite <- seqZ_to_nat in Hinner.
    rewrite Hinner. clear Hinner. cbn [mbind result_bind].
    replace (Z.to_nat a + Z.to_nat 1)%nat with (S (Z.to_nat a)) by lia.
    rewrite (drop_agree cur orig (S (Z.to_nat a)))
      by (intros k Hk; apply Hagree; lia).
    fold total. rewrite list_lookup_insert_eq by lia. reflexivity.
  - rewrite length_insert. exact Hlen.
  - intros k Hk. destruct (decide (k = Z.to_nat a)) as [-> | Hne].
    + assert (n = 0)%Z as -> by lia.
      rewrite list_lookup_insert_eq by lia. rewrite Hacc. reflexivity.
    + rewrite list_lookup_insert_ne by congruence. apply Hagree. lia.
Qed.

Lemma reduce_loop_out_keep (mean : bool) (groups : list (Z * Z)) :
  forall (i : nat) (st st' : state),
    reduce_loop mean i groups st = Ok st' ->
    forall k, (k < i)%nat -> st_out st' !! k = st_out st !! k.
Proof.
  induction groups as [|[start n] groups IH]; intros i st st' Hrun k Hk.
  - cbn in Hrun. injection Hrun as <-. reflexivity.
  - cbn [reduce_loop] in Hrun.
    destruct (decide (start = Z.of_nat (length (st_src st)))).
    { injection Hrun as <-. reflexivity. }
    destruct (py_index (length (st_src st)) start) as [p|e];
      cbn [mbind result_bind] in Hrun; [|discriminate Hrun].
    destruct (accumulate p start (seqZ 1 (n - 1)) (st_src st)) as [src1|e];
      cbn [mbind result_bind] in Hrun; [|discriminate Hrun].
    destruct ((if mean then alter (fun accum => row_div accum n) p src1
               else src1) !! p) as [accum|]; [|discriminate Hrun].
    rewrite (IH _ _ _ Hrun k) by lia. cbn [st_out].
    apply list_lookup_insert_ne. lia.
Qed.

Lemma reduce_loop_sum_empty_group (orig : list (list T)) :
  forall (groups : list (Z * Z)) (a : Z) (i : nat)
         (cur out : list (list T)) (st : state),
    (0 <= a)%Z ->
    chain (Z.of_nat (length orig)) a groups ->
    length cur = length orig ->
    (forall k, (Z.to_nat a <= k)%nat -> cur !! k = orig !! k) ->
    (i + length groups <= length out)%nat ->
    reduce_loop false i groups {| st_src := cur; st_out := out |} = Ok st ->
    forall j b, groups !! j = Some (b, 0%Z) ->
                (b < Z.of_nat (length orig))%Z ->
                st_out st !! (i + j)%nat = orig !! Z.to_nat b.
Proof.
  induction groups as [|[a' n] rest IH];
    intros a i cur out st Ha Hchain Hlen Hagree Hout Hrun j b Hj Hb.
  - discriminate Hj.
  - destruct (chain_inv _ _ _ _ _ Hchain) as (-> & Hn & Hend & Hrest).
    cbn [length] in Hout.
    destruct (decide (a = Z.of_nat (length orig))) as [-> | Hne].
    + (* the loop has stopped: no later group starts before the end *)
      destruct (chain_lookup _ _ _ Hchain j b 0%Z Hj) as (Hab & _ & _). lia.
    + destruct (lookup_lt_is_Some_2 orig (Z.to_nat a) ltac:(lia)) as [acc Hacc].
      destruct (reduce_loop_sum_step orig cur out a n i rest acc
                  Ha Hn ltac:(lia) Hend Hlen Hagree Hacc)
        as (src2 & Hstep & Hlen2 & Hagree2).
      rewrite Hstep in Hrun.
      destruct j as [|j]; cbn in Hj.
      * injection Hj as <- ->. rewrite Nat.add_0_r.
        rewrite (reduce_loop_out_keep _ _ _ _ _ Hrun i) by lia. cbn [st_out].
        rewrite list_lookup_insert_eq by lia. cbn [take foldl]. 
        rewrite Hacc. reflexivity.
      * replace (i + S j)%nat with (S i + j)%nat by lia.
        eapply (IH (a + n)%Z (S i) src2 _ st); [lia | exact Hrest | exact Hlen2
          | exact Hagree2 | | exact Hrun | exact Hj | exact Hb].
        rewrite length_insert. lia.
Qed.

(** In sum mode, on a well-formed CSR grouping, the row of an empty group
    that starts before the end of src is the row of src it starts at (the
    first row of the next non-empty group), not zero. *)
Theorem segment_csr_sum_empty_group
    (width : nat) (src : list (list T)) (indptr : list Z) (st : state)
    (i : nat) (a : Z) :
  csr_valid (length src) indptr ->
  segment_csr width src indptr "sum" = Ok st ->
  indptr !! i = Some a -> indptr !! S i = Some a ->
  (a < Z.of_nat (length src))%Z ->
  st_out st !! i = src !! Z.to_nat a.
Proof.
  intros ([a0 [Hfirst Ha0]] & Hmono & Hlast) Hrun Hi HSi Ha.
  destruct indptr as [|a0' tl]; [discriminate Hfirst|].
  cbn in Hfirst. injection Hfirst as ->.
  unfold segment_csr in Hrun.
  destruct (decide ("sum" ∈ ["mean"; "sum"])); [|discriminate Hrun].
  change (String.eqb "sum" "mean") with false in Hrun.
  pose proof (groups_lookup tl a0 i a a Hi HSi) as Hg.
  replace (a - a)%Z with 0%Z in Hg by lia.
  apply (reduce_loop_sum_empty_group src _ a0 0 src _ st
           Ha0 (groups_chain _ _ _ Hmono Hlast) eq_refl
           (fun k _ => eq_refl)) with (j := i) (b := a) in Hrun.
  - exact Hrun.
  - rewrite groups_length, length_replicate. cbn [length]. lia.
  - exact Hg.
  - exact Ha.
Qed.

End ReducerFrame.


Lemma segment_csr_frame_witness :
  length (st_src {| st_src := [[2; 2]; [1; 1]; [2; 2]; [1; 1]]%float;
                    st_out := [[2; 2]; [2; 2]; [0; 0]]%float |})
  = length [[1; 1]; [1; 1]; [1; 1]; [1; 1]]%float
  /\ forall k,
       (forall start, start ∈ removelast [0; 2; 4; 4]%Z ->
          py_index (length [[1; 1]; [1; 1]; [1; 1]; [1; 1]]%float) start
          <> Ok k) ->
       st_src {| st_src := [[2; 2]; [1; 1]; [2; 2]; [1; 1]]%float;
                 st_out := [[2; 2]; [2; 2]; [0; 0]]%float |} !! k
       = [[1; 1]; [1; 1]; [1; 1]; [1; 1]]%float !! k.
Proof.
  apply (segment_csr_frame 2 [[1; 1]; [1; 1]; [1; 1]; [1; 1]]%float
           [0; 2; 4; 4]%Z "sum").
  reflexivity.
Defined.

Lemma segment_csr_sum_frame_witness :
  (forall k,
     (forall i a b, [0; 1; 3]%Z !! i = Some a -> [0; 1; 3]%Z !! S i = Some b ->
        (2 <= b - a)%Z ->
        py_index (length [[1; 1]; [2; 2]; [3; 3]]%float) a <> Ok k) ->
     st_src {| st_src := [[1; 1]; [5; 5]; [3; 3]]%float;
               st_out := [[1; 1]; [5; 5]]%float |} !! k
     = [[1; 1]; [2; 2]; [3; 3]]%float !! k)
  /\ ((forall i a b, [0; 1; 3]%Z !! i = Some a -> [0; 1; 3]%Z !! S i = Some b ->
         (b - a <= 1)%Z) ->
      st_src {| st_src := [[1; 1]; [5; 5]; [3; 3]]%float;
                st_out := [[1; 1]; [5; 5]]%float |}
      = [[1; 1]; [2; 2]; [3; 3]]%float).
Proof.
  apply (segment_csr_sum_frame 2 [[1; 1]; [2; 2]; [3; 3]]%float [0; 1; 3]%Z).
  reflexivity.
Defined.

Lemma csr_valid_empty_first : csr_valid 2 [0; 0; 2]%Z.
Proof.
  split; [|split].
  - exists 0%Z. split; [reflexivity | lia].
  - intros [|[|[|i]]] a b Ha Hb; cbn in Ha, Hb; simplify_eq; lia.
  - intros a Ha. cbn in Ha. simplify_eq. lia.
Qed.

Lemma segment_csr_sum_empty_group_witness :
  st_out {| st_src := [[1; 2]; [1; 1]]%float;
            st_out := [[0; 1]; [1; 2]]%float |} !! 0%nat
  = [[0; 1]; [1; 1]]%float !! Z.to_nat 0.
Proof.
  apply (segment_csr_sum_empty_group 2 [[0; 1]; [1; 1]]%float [0; 0; 2]%Z
           {| st_src := [[1; 2]; [1; 1]]%float;
              st_out := [[0; 1]; [1; 2]]%float |} 0 0%Z).
  - exact csr_valid_empty_first.
  - reflexivity.
  - reflexivity.
  - reflexivity.
  - cbn. lia.
Defined.

End SegmentCsrFacts.

Module UqnoFacts.
Import Uqno.

Section Postprocess.
Context {tensor : Type} `{Collaborators tensor}.

(** C5. For every model output (solution_prediction,
    uncertainty_prediction), every processor state and every sample whose
    base-postprocessed form carries 'y' and 'x', postprocess (1) puts the
    base processor in evaluation mode before anything else, so that the
    base postprocess runs in evaluation mode whatever the mode was;
    (2) returns the sample with 'y' replaced by ground truth minus solution
    prediction, both as the base processor denormalized them, without the
    key 'x' and with every other field kept; (3) returns the
    inverse-normalized uncertainty times the scale factor when one is set,
    and unscaled otherwise. *)
Theorem postprocess_spec
    (self : processor) (solution_prediction uncertainty_prediction : tensor)
    (smp : gmap string tensor) (g_hat g_true : tensor)
    (smp_base : gmap string tensor) :
  base_postprocess false solution_prediction smp = (g_hat, smp_base) ->
  smp_base !! "y" = Some g_true ->
  is_Some (smp_base !! "x") ->
  exists (self' : processor) (uncertainty : tensor)
         (smp' : gmap string tensor),
    postprocess self (solution_prediction, uncertainty_prediction) smp
    = Ok (self', (uncertainty, smp'))
    /\ base_train self' = false
    /\ scale_factor self' = scale_factor self
    /\ smp' = delete "x" (<["y" := t_sub g_true g_hat]> smp_base)
    /\ smp' !! "y" = Some (t_sub g_true g_hat)
    /\ smp' !! "x" = None
    /\ (forall key : string,
          key <> "x" -> key <> "y" -> smp' !! key = smp_base !! key)
    /\ uncertainty
       = match scale_factor self with
         | Some c =>
             t_mul (residual_normalizer_inverse_transform uncertainty_prediction) c
         | None => residual_normalizer_inverse_transform uncertainty_prediction
         end.
Proof.
  intros Hbase Hy [x Hx].
  eexists _, _, _. split.
  - unfold postprocess. cbn [base_train scale_factor]. rewrite Hbase.
    unfold dict_get. rewrite Hy. cbn [mbind result_bind].
    unfold dict_pop. rewrite lookup_insert_ne by discriminate. rewrite Hx.
    cbn [mbind result_bind mret result_ret]. reflexivity.
  - cbn [base_train scale_factor]. repeat split.
    + rewrite lookup_delete_ne by discriminate. apply lookup_insert_eq.
    + apply lookup_delete_eq.
    + intros key Hkx Hky.
      rewrite lookup_delete_ne by congruence.
      apply lookup_insert_ne. congruence.
Qed.

End Postprocess.

Lemma postprocess_spec_witness :
  exists (self' : processor) (uncertainty : Z) (smp' : gmap string Z),
    postprocess {| base_train := true; scale_factor := Some 3%Z |}
      (5, 7)%Z (<["x" := 1%Z]> (<["y" := 10%Z]> (∅ : gmap string Z)))
    = Ok (self', (uncertainty, smp'))
    /\ base_train self' = false
    /\ scale_factor self' = Some 3%Z
    /\ smp' = delete "x"
                (<["y" := t_sub 20%Z 10%Z]>
                   (Z.mul 2 <$> (<["x" := 1%Z]> (<["y" := 10%Z]> (∅ : gmap string Z)))))
    /\ smp' !! "y" = Some (t_sub 20%Z 10%Z)
    /\ smp' !! "x" = None
    /\ (forall key : string,
          key <> "x" -> key <> "y" ->
          smp' !! key
          = (Z.mul 2 <$> (<["x" := 1%Z]> (<["y" := 10%Z]> (∅ : gmap string Z)))) !! key)
    /\ uncertainty = t_mul (residual_normalizer_inverse_transform 7%Z) 3%Z.
Proof.
  apply (postprocess_spec
           {| base_train := true; scale_factor := Some 3%Z |} 5%Z 7%Z
           (<["x" := 1%Z]> (<["y" := 10%Z]> (∅ : gmap string Z))) 10%Z 20%Z
           (Z.mul 2 <$> (<["x" := 1%Z]> (<["y" := 10%Z]> (∅ : gmap string Z))))).
  - reflexivity.
  - reflexivity.
  - exists 2%Z. reflexivity.
Defined.

End UqnoFacts.

Module RnoFacts.
Import Rno.

Section Rollout.
Context {tensor : Type} `{TensorOps tensor}.

(** No hidden states and a list of [None], one per layer, are the same
    to [forward]. *)
Lemma forward_None (self : RNO tensor) (x : tensor) :
  forward self x None = forward self x (Some (replicate (n_layers self) None)).
Proof. reflexivity. Qed.

Lemma manual_steps_None (self : RNO tensor) (k : nat) (x : tensor) :
  manual_steps self k x None
  = manual_steps self k x (Some (replicate (n_layers self) None)).
Proof.
  destruct k as [|k]; [reflexivity|].
  cbn [manual_steps]. rewrite forward_None. reflexivity.
Qed.

Lemma manual_steps_length (self : RNO tensor) (k : nat) :
  forall (x : tensor) (states : option (list (option tensor)))
         (predictions : list tensor),
    manual_steps self k x states = Ok predictions -> length predictions = k.
Proof.
  induction k as [|k IH]; intros x states predictions Hrun.
  - injection Hrun as <-. reflexivity.
  - cbn [manual_steps] in Hrun.
    destruct (forward self x states) as [[prediction new_states]|e];
      cbn [mbind result_bind] in Hrun; [|discriminate Hrun].
    destruct (with_time_axis prediction) as [next_x|e];
      cbn [mbind result_bind] in Hrun; [|discriminate Hrun].
    destruct (manual_steps self k next_x (Some (Some <$> new_states)))
      as [rest|e] eqn:Hrest; cbn [mbind result_bind] in Hrun;
      [|discriminate Hrun].
    injection Hrun as <-. cbn [length]. f_equal. exact (IH _ _ _ Hrest).
Qed.

(** The law of the tensor primitives that the rollout rests on: reshaping
    a tensor to its own shape with a 1 put behind the first axis is
    [unsqueeze(1)]. *)
Hypothesis reshape_unsqueeze :
  forall (t : tensor) (b : nat) (rest : list nat),
    shape t = b :: rest -> reshape t (b :: 1%nat :: rest) = unsqueeze t 1.

Lemma add_time_axis_unsqueeze (prediction : tensor) :
  add_time_axis prediction = with_time_axis prediction.
Proof.
  unfold add_time_axis, with_time_axis.
  destruct (shape prediction) as [|b rest] eqn:Hshape.
  - rewrite decide_True by reflexivity. reflexivity.
  - rewrite decide_False by discriminate.
    rewrite (reshape_unsqueeze prediction b rest Hshape). reflexivity.
Qed.

(** The loop of [predict] appends to [output] what the steps done by hand
    produce. *)
Lemma predict_loop_manual_steps (self : RNO tensor) (k : nat) :
  forall (x : tensor) (states : list (option tensor)) (output : list tensor),
    predict_loop self k x states output
    = (rest ← manual_steps self k x (Some states); mret (output ++ rest)).
Proof.
  induction k as [|k IH]; intros x states output.
  - cbn. rewrite app_nil_r. reflexivity.
  - cbn [predict_loop manual_steps].
    destruct (forward self x (Some states)) as [[prediction new_states]|e];
      cbn [mbind result_bind]; [|reflexivity].
    rewrite add_time_axis_unsqueeze.
    destruct (with_time_axis prediction) as [next_x|e];
      cbn [mbind result_bind]; [|reflexivity].
    rewrite IH.
    destruct (manual_steps self k next_x (Some (Some <$> new_states)))
      as [rest|e]; cbn [mbind result_bind mret result_ret]; [|reflexivity].
    rewrite <- app_assoc. reflexivity.
Qed.

(** C6. On tensor primitives for which reshaping a tensor to its own shape
    with a 1 put behind the first axis is unsqueeze(1), as it is for
    torch's: for every RNO instance, every initial input x0 and every
    number of steps k, predict(x0, k) and the rollout done by hand have
    the same outcome, the same tensor or the same exception.  By hand,
    forward is called k times, the first time without hidden states; each
    prediction is given a singleton time axis by unsqueeze(1) and fed
    back, the returned hidden states are threaded, and the k predictions
    are stacked along axis 1, which fails for k = 0. *)
Theorem predict_eq_manual_rollout (self : RNO tensor) (x0 : tensor) (k : nat) :
  predict self x0 k = manual_rollout self x0 k.
Proof.
  unfold predict, manual_rollout.
  rewrite predict_loop_manual_steps, manual_steps_None.
  destruct (manual_steps self k x0 (Some (replicate (n_layers self) None)))
    as [predictions|e] eqn:Hrun; cbn [mbind result_bind mret result_ret];
    [|reflexivity].
  apply manual_steps_length in Hrun. rewrite app_nil_l.
  destruct predictions as [|p predictions]; cbn [length] in Hrun; subst k.
  - reflexivity.
  - rewrite decide_False by discriminate. reflexivity.
Qed.

End Rollout.

Lemma predict_eq_manual_rollout_witness :
  predict toy_rno ([1; 1; 4; 3]%nat, 1%Z) 5
  = manual_rollout toy_rno ([1; 1; 4; 3]%nat, 1%Z) 5.
Proof.
  apply (predict_eq_manual_rollout (H := toy_ops)).
  intros [l z] b rest Hshape. cbn in Hshape. subst l. reflexivity.
Defined.

(** The rollout on the small instance, for one and for five steps. *)
Example predict_toy_one_step :
  predict toy_rno ([1; 1; 4; 3]%nat, 1%Z) 1 = Ok ([1; 1; 4; 3]%nat, 6%Z).
Proof. reflexivity. Qed.

Example predict_toy_five_steps :
  predict toy_rno ([1; 1; 4; 3]%nat, 1%Z) 5 = Ok ([1; 5; 4; 3]%nat, 8660%Z)
  /\ manual_rollout toy_rno ([1; 1; 4; 3]%nat, 1%Z) 5
     = Ok ([1; 5; 4; 3]%nat, 8660%Z).
Proof. split; reflexivity. Qed.

(** C10. For every combination of constructor arguments, RNO.__init__
    raises NameError for the name width, which is bound neither as a
    parameter nor in the module nor as a builtin: the constructor never
    returns an object. *)
Theorem RNO_init_raises_NameError (a : init_args) :
  RNO_init a = Raise (NameError "width") /\ ~ is_Ok (RNO_init a).
Proof.
  assert (RNO_init a = Raise (NameError "width")) as Hraise.
  { destruct a. reflexivity. }
  split; [exact Hraise|].
  intros [obj Hobj]. rewrite Hraise in Hobj. discriminate Hobj.
Qed.

Section ForwardOutcome.
Context {tensor : Type} `{TensorOps tensor}.

(** *** When forward returns, and what it raises *)

Lemma forward_layers_outcome (self : RNO tensor)
    (init_hidden_states : list (option tensor)) (idxs : list nat) :
  forall (x : tensor) (final_hidden_states : list tensor),
    match forward_layers self init_hidden_states idxs x final_hidden_states with
    | Ok (_, final') =>
        length final' = (length final_hidden_states + length idxs)%nat
        /\ Forall (fun i => (i < length (layers self))%nat
                            /\ (i < length init_hidden_states)%nat) idxs
    | Raise e =>
        e = IndexError
        /\ ~ Forall (fun i => (i < length (layers self))%nat
                              /\ (i < length init_hidden_states)%nat) idxs
    end.
Proof.
  induction idxs as [|i idxs IH]; intros x fin.
  - cbn. split; [lia | constructor].
  - cbn [forward_layers]. unfold list_get.
    destruct (layers self !! i) as [layer|] eqn:Hlayer; cbn [mbind result_bind].
    2:{ split; [reflexivity|]. intros Hall. apply Forall_cons in Hall as [[Hl _] _].
        apply lookup_ge_None_1 in Hlayer. lia. }
    destruct (init_hidden_states !! i) as [h|] eqn:Hh; cbn [mbind result_bind].
    2:{ split; [reflexivity|]. intros Hall. apply Forall_cons in Hall as [[_ Hi] _].
        apply lookup_ge_None_1 in Hh. lia. }
    apply lookup_lt_Some in Hlayer, Hh.
    destruct (decide (Z.of_nat i < Z.of_nat (n_layers self) - 1)%Z).
    + match goal with
      | |- context [forward_layers self init_hidden_states idxs ?x' ?fin'] =>
          specialize (IH x' fin');
          destruct (forward_layers self init_hidden_states idxs x' fin')
            as [[x'' fin'']|e]
      end.
      * destruct IH as [Hlen Hall]. rewrite length_app in Hlen. cbn [length] in *.
        split; [lia|]. constructor; [split; assumption | exact Hall].
      * destruct IH as [He Hnot]. split; [exact He|].
        intros Hall. apply Forall_cons in Hall as [_ Hall]. contradiction.
    + match goal with
      | |- context [forward_layers self init_hidden_states idxs ?x' ?fin'] =>
          specialize (IH x' fin');
          destruct (forward_layers self init_hidden_states idxs x' fin')
            as [[x'' fin'']|e]
      end.
      * destruct IH as [Hlen Hall]. rewrite length_app in Hlen. cbn [length] in *.
        split; [lia|]. constructor; [split; assumption | exact Hall].
      * destruct IH as [He Hnot]. split; [exact He|].
        intros Hall. apply Forall_cons in Hall as [_ Hall]. contradiction.
Qed.

Lemma Forall_seq_lt (n m k : nat) :
  Forall (fun i => (i < m)%nat /\ (i < k)%nat) (seq 0 n)
  <-> (n <= m)%nat /\ (n <= k)%nat \/ n = 0%nat.
Proof.
  rewrite Forall_forall. split.
  - intros Hall. destruct n as [|n]; [right; reflexivity|]. left.
    specialize (Hall n). rewrite elem_of_seq in Hall. lia.
  - intros Hn i Hi. apply elem_of_seq in Hi. lia.
Qed.

Lemma torch_movedim_outcome (t : tensor) (source destination : Z) :
  match torch_movedim t source destination with
  | Ok _ =>
      let n := Z.max (Z.of_nat (length (shape t))) 1 in
      (- n <= source < n)%Z /\ (- n <= destination < n)%Z
  | Raise e => e = IndexError
  end.
Proof.
  unfold torch_movedim.
  destruct (decide _) as [Hin | _]; [exact Hin | reflexivity].
Qed.

(** forward returns only for an input with a batch and a time axis whose
    lifted tensor has at least three axes and no fewer than the input has,
    on an instance with at least one layer, a layer module for each of the
    n_layers layers and, when hidden states are passed, at least n_layers
    of them; it then hands back exactly n_layers hidden states.  It raises
    ValueError exactly for an input with fewer than two axes, and
    IndexError in every other failing case: so for an input with exactly
    two axes that the lifting leaves with two, where torch.movedim has no
    axis 2 to move to. *)
Theorem forward_outcome (self : RNO tensor) (x : tensor)
    (init_hidden_states : option (list (option tensor))) :
  match forward self x init_hidden_states with
  | Ok (_, final_hidden_states) =>
      (2 <= length (shape x))%nat
      /\ (3 <= length (shape (lifting self x)))%nat
      /\ (length (shape x) <= length (shape (lifting self x)))%nat
      /\ (1 <= n_layers self <= length (layers self))%nat
      /\ (forall hs, init_hidden_states = Some hs ->
                     (n_layers self <= length hs)%nat)
      /\ length final_hidden_states = n_layers self
  | Raise e =>
      (e = ValueError /\ (length (shape x) < 2)%nat
       \/ e = IndexError /\ (2 <= length (shape x))%nat)
      /\ (length (shape x) = 2%nat ->
          length (shape (lifting self x)) = 2%nat -> e = IndexError)
  end
  /\ (length (shape x) = 2%nat -> length (shape (lifting self x)) = 2%nat ->
      forward self x init_hidden_states = Raise IndexError).
Proof.
  assert (length (shape x) = 2%nat -> length (shape (lifting self x)) = 2%nat ->
          forward self x init_hidden_states = Raise IndexError) as Htwo.
  { intros Hx Hl. unfold forward.
    destruct (decide (length (shape x) < 2)%nat); [lia|].
    unfold torch_movedim. rewrite Hx, Hl.
    rewrite decide_False by lia. reflexivity. }
  split; [|exact Htwo].
  destruct (forward self x init_hidden_states) as [[prediction fin]|e] eqn:Hrun.
  2:{ split.
      2:{ intros Hx Hl. specialize (Htwo Hx Hl). congruence. }
      revert Hrun. unfold forward.
      destruct (decide (length (shape x) < 2)%nat) as [Hshape | Hshape].
      { intros [= <-]. left. split; [reflexivity | exact Hshape]. }
      intros Hrun. right. split; [|lia].
      match type of Hrun with
      | context [torch_movedim ?t ?s ?d] =>
          pose proof (torch_movedim_outcome t s d) as Hm;
          destruct (torch_movedim t s d) as [x1|e1]
      end; cbn [mbind result_bind] in Hrun; [|congruence].
      match type of Hrun with
      | context [forward_layers self ?init ?idxs ?x2 []] =>
          pose proof (forward_layers_outcome self init idxs x2 []) as Hloop;
          destruct (forward_layers self init idxs x2 []) as [[x' fin']|e2]
      end; cbn [mbind result_bind] in Hrun; [|destruct Hloop; congruence].
      unfold list_last in Hrun.
      destruct (last fin') as [h|]; cbn [mbind result_bind] in Hrun;
        [|congruence].
      match type of Hrun with
      | context [torch_movedim ?t ?s ?d] =>
          pose proof (torch_movedim_outcome t s d) as Hm2;
          destruct (torch_movedim t s d) as [h1|e3]
      end; cbn [mbind result_bind mret result_ret] in Hrun;
        [discriminate Hrun | congruence]. }
  revert Hrun. unfold forward.
  destruct (decide (length (shape x) < 2)%nat) as [Hshape | Hshape];
    [discriminate|].
  intros Hrun.
  match type of Hrun with
  | context [torch_movedim ?t ?s ?d] =>
      pose proof (torch_movedim_outcome t s d) as Hm;
      destruct (torch_movedim t s d) as [x1|e1]
  end; cbn [mbind result_bind] in Hrun; [|discriminate Hrun].
  set (init := match init_hidden_states with
               | Some hs => hs
               | None => replicate (n_layers self) None
               end) in *.
  assert ((n_layers self <= length init)%nat
          <-> forall hs, init_hidden_states = Some hs ->
                         (n_layers self <= length hs)%nat) as Hinit.
  { unfold init. destruct init_hidden_states as [hs|].
    - split; [intros Hle hs' [= <-]; exact Hle | intros Hle; apply Hle; reflexivity].
    - rewrite length_replicate. split; [intros _ hs' [=] | lia]. }
  match type of Hrun with
  | context [forward_layers self init ?idxs ?x2 []] =>
      pose proof (forward_layers_outcome self init idxs x2 []) as Hloop;
      destruct (forward_layers self init idxs x2 []) as [[x' fin']|e2]
  end; cbn [mbind result_bind] in Hrun; [|discriminate Hrun].
  destruct Hloop as [Hlen Hall]. rewrite length_seq in Hlen.
  cbn [length Nat.add] in Hlen. apply Forall_seq_lt in Hall.
  unfold list_last in Hrun. rewrite last_lookup in Hrun.
  destruct (fin' !! Nat.pred (length fin')) as [h|] eqn:Hh;
    cbn [mbind result_bind] in Hrun; [|discriminate Hrun].
  apply lookup_lt_Some in Hh.
  match type of Hrun with
  | context [torch_movedim ?t ?s ?d] =>
      destruct (torch_movedim t s d) as [h1|e3]
  end; cbn [mbind result_bind mret result_ret] in Hrun; [|discriminate Hrun].
  injection Hrun as _ <-. cbv zeta in Hm.
  split; [lia|]. split; [lia|]. split; [lia|]. split; [lia|].
  split; [apply Hinit; lia | exact Hlen].
Qed.

(** forward reads the first n_layers hidden states only. *)
Lemma forward_layers_extra_states (self : RNO tensor)
    (hs extra : list (option tensor)) (idxs : list nat) :
  forall (x : tensor) (fin : list tensor),
    Forall (fun i => (i < length hs)%nat) idxs ->
    forward_layers self (hs ++ extra) idxs x fin
    = forward_layers self hs idxs x fin.
Proof.
  induction idxs as [|i idxs IH]; intros x fin Hall; [reflexivity|].
  apply Forall_cons in Hall as [Hi Hall].
  cbn [forward_layers]. unfold list_get.
  rewrite (lookup_app_l hs extra i Hi).
  destruct (layers self !! i) as [layer|]; cbn [mbind result_bind]; [|reflexivity].
  destruct (hs !! i) as [h|]; cbn [mbind result_bind]; [|reflexivity].
  destruct (decide (Z.of_nat i < Z.of_nat (n_layers self) - 1)%Z);
    apply IH; exact Hall.
Qed.

(** Hidden states beyond the first n_layers are ignored: they change
    neither the prediction nor the hidden states handed back. *)
Theorem forward_ignores_extra_states (self : RNO tensor) (x : tensor)
    (hs extra : list (option tensor)) :
  (n_layers self <= length hs)%nat ->
  forward self x (Some (hs ++ extra)) = forward self x (Some hs).
Proof.
  intros Hlen. unfold forward.
  destruct (decide (length (shape x) < 2)%nat); [reflexivity|].
  destruct (torch_movedim _ _ _) as [x1|e]; cbn [mbind result_bind];
    [|reflexivity].
  rewrite forward_layers_extra_states; [reflexivity|].
  apply Forall_forall. intros i Hi. apply elem_of_seq in Hi. lia.
Qed.

(** With a single layer the residual flag has no effect on forward. *)
Theorem forward_one_layer_residual (r1 r2 : bool)
    (padding : option (DomainPadding tensor)) (lift proj : tensor -> tensor)
    (ls : list (tensor -> option tensor -> tensor)) (x : tensor)
    (init_hidden_states : option (list (option tensor))) :
  forward {| n_layers := 1; residual := r1; domain_padding := padding;
             lifting := lift; layers := ls; projection := proj |}
          x init_hidden_states
  = forward {| n_layers := 1; residual := r2; domain_padding := padding;
               lifting := lift; layers := ls; projection := proj |}
            x init_hidden_states.
Proof.
  unfold forward. cbn [n_layers residual domain_padding lifting layers projection].
  destruct (decide (length (shape x) < 2)%nat); [reflexivity|].
  destruct (torch_movedim _ _ _) as [x1|e]; cbn [mbind result_bind];
    [|reflexivity].
  cbn [seq forward_layers n_layers residual layers].
  destruct (decide (Z.of_nat 0 < Z.of_nat 1 - 1)%Z); [lia|]. reflexivity.
Qed.

(** *** The rollout *)

Lemma predict_loop_length (self : RNO tensor) (k : nat) :
  forall (x : tensor) (states : list (option tensor)) (output out : list tensor),
    predict_loop self k x states output = Ok out ->
    length out = (length output + k)%nat.
Proof.
  induction k as [|k IH]; intros x states output out Hrun.
  - cbn in Hrun. injection Hrun as <-. lia.
  - cbn [predict_loop] in Hrun.
    destruct (forward self x (Some states)) as [[pred new_states]|e];
      cbn [mbind result_bind] in Hrun; [|discriminate Hrun].
    destruct (add_time_axis pred) as [next_x|e];
      cbn [mbind result_bind] in Hrun; [|discriminate Hrun].
    apply IH in Hrun. rewrite length_app in Hrun. cbn [length] in Hrun. lia.
Qed.

(** Whenever predict returns, the result is the stack along axis 1 of
    exactly num_steps predictions and num_steps is at least 1; for
    num_steps = 0 predict raises RuntimeError, as torch.stack has nothing
    to stack. *)
Theorem predict_stacks_num_steps (self : RNO tensor) (x : tensor) (num_steps : nat) :
  (forall r, predict self x num_steps = Ok r ->
     (1 <= num_steps)%nat
     /\ exists preds : list tensor,
          length preds = num_steps /\ r = stack preds 1)
  /\ (num_steps = 0%nat -> predict self x num_steps = Raise RuntimeError).
Proof.
  split.
  - intros r Hrun. unfold predict in Hrun.
    destruct (predict_loop self num_steps x (replicate (n_layers self) None) [])
      as [out|e] eqn:Hloop; cbn [mbind result_bind] in Hrun; [|discriminate Hrun].
    apply predict_loop_length in Hloop. cbn [length Nat.add] in Hloop.
    destruct out as [|p out]; [discriminate Hrun|].
    cbn [torch_stack] in Hrun. injection Hrun as <-.
    cbn [length] in Hloop. split; [lia|].
    exists (p :: out). split; [exact Hloop | reflexivity].
  - intros ->. reflexivity.
Qed.

End ForwardOutcome.

Lemma forward_ignores_extra_states_witness :
  forward toy_rno ([1; 1; 4; 3]%nat, 1%Z) (Some ([None; None] ++ [None]))
  = forward toy_rno ([1; 1; 4; 3]%nat, 1%Z) (Some [None; None]).
Proof.
  apply (forward_ignores_extra_states toy_rno ([1; 1; 4; 3]%nat, 1%Z)
           [None; None] [None]).
  cbn. lia.
Defined.

End RnoFacts.

Module CalibrationSetFacts.
Import Calibration CalibrationFacts CalibrationSet.

Section RankGuarantee.
Context {A : Type} `{RatioOps A}.
Hypothesis leb_total : forall a b : A, ratio_leb a b = true \/ ratio_leb b a = true.
Hypothesis leb_trans : forall a b c : A,
  ratio_leb a b = true -> ratio_leb b c = true -> ratio_leb a c = true.

Lemma filter_length_mono {B : Type} (P Q : B -> Prop)
    `{!forall x, Decision (P x)} `{!forall x, Decision (Q x)} (l : list B) :
  (forall x, P x -> Q x) ->
  (length (filter P l) <= length (filter Q l))%nat.
Proof.
  intros HPQ. induction l as [|x l IH]; [reflexivity|].
  rewrite !filter_cons.
  destruct (decide (P x)) as [HP | HP].
  - rewrite decide_True by (apply HPQ; exact HP). cbn [length]. lia.
  - destruct (decide (Q x)); cbn [length]; lia.
Qed.

Lemma filter_length_Forall2 {B C : Type} (R : B -> C -> Prop)
    (P : B -> Prop) (Q : C -> Prop)
    `{!forall x, Decision (P x)} `{!forall x, Decision (Q x)}
    (l : list B) (k : list C) :
  Forall2 (fun x y => R x y /\ (P x -> Q y)) l k ->
  (length (filter P l) <= length (filter Q k))%nat.
Proof.
  induction 1 as [|x y l k [_ HPQ] _ IH]; [reflexivity|].
  rewrite !filter_cons.
  destruct (decide (P x)) as [HP | HP].
  - rewrite decide_True by (apply HPQ; exact HP). cbn [length]. lia.
  - destruct (decide (Q y)); cbn [length]; lia.
Qed.

Lemma sorted_n_above (l : list A) (k : nat) (x : A) :
  StronglySorted (fun a b => ratio_leb b a = true) l ->
  l !! k = Some x -> (n_above x l <= k)%nat.
Proof.
  unfold n_above. intros Hs. revert k.
  induction Hs as [|a l Hs IH Hall]; intros k Hk; [discriminate Hk|].
  rewrite filter_cons. destruct k as [|k]; cbn in Hk.
  - injection Hk as ->.
    rewrite decide_False
      by (destruct (leb_total x x) as [E | E]; rewrite E; discriminate).
    assert (filter (fun r => ratio_leb r x = false) l = []) as ->; [|reflexivity].
    clear -Hall. induction Hall as [|b l Hb _ IHl]; [reflexivity|].
    rewrite filter_cons, decide_False by (rewrite Hb; discriminate).
    exact IHl.
  - specialize (IH k Hk).
    destruct (decide (ratio_leb a x = false)); cbn [length]; lia.
Qed.

Lemma rank_n_above (l : list A) (k : nat) (x : A) :
  sort_desc l !! k = Some x -> (n_above x l <= k)%nat.
Proof.
  intros Hk.
  pose proof (sorted_n_above _ _ _ (sort_desc_sorted l leb_total leb_trans) Hk) as Hle.
  unfold n_above in *.
  rewrite <- (Permutation_length
                (filter_Permutation (fun r => ratio_leb r x = false) _ _
                   (sort_desc_Permutation l))).
  exact Hle.
Qed.

Lemma topk_last_inv (l : list A) (d : Z) (x : A) :
  (vals ← torch_topk l (d + 1); py_last vals) = Ok x ->
  (0 <= d)%Z /\ sort_desc l !! Z.to_nat d = Some x.
Proof.
  unfold torch_topk. intros Hrun.
  destruct (decide (0 <= d + 1 <= Z.of_nat (length l))%Z) as [Hr | Hr];
    [|discriminate Hrun].
  cbn [mbind result_bind] in Hrun.
  destruct (decide (d + 1 = 0)%Z) as [E | E].
  - rewrite E in Hrun. cbn in Hrun. discriminate Hrun.
  - split; [lia|].
    destruct (lookup_lt_is_Some_2 (sort_desc l) (Z.to_nat d)) as [y Hy].
    { rewrite (Permutation_length (sort_desc_Permutation l)). lia. }
    replace (Z.to_nat (d + 1)) with (S (Z.to_nat d)) in Hrun by lia.
    rewrite (py_last_take _ _ _ Hy) in Hrun. congruence.
Qed.

Lemma mapM_result_Forall2 {B C : Type} (f : B -> result C) (l : list B)
    (k : list C) :
  mapM f l = Ok k -> Forall2 (fun x y => f x = Ok y) l k.
Proof.
  revert k. induction l as [|x l IH]; intros k Hrun; cbn [mapM] in Hrun.
  - injection Hrun as <-. constructor.
  - destruct (f x) as [y|e] eqn:Hx; cbn [mbind result_bind] in Hrun;
      [|discriminate Hrun].
    destruct (mapM f l) as [k'|e]; cbn [mbind result_bind] in Hrun;
      [|discriminate Hrun].
    injection Hrun as <-. constructor; [exact Hx | apply IH; reflexivity].
Qed.

(** The guarantee on the calibration set.  For a comparison that is a
    total preorder, whenever a scale factor is computed from the indices
    (domain_idx, function_idx), it is the absolute value of a stored ratio
    statistic c0 such that at most function_idx calibration functions have
    more than domain_idx pointwise ratios strictly above c0. *)
Theorem uncertainty_scaling_factor_covers
    (val_ratios : list (list A)) (domain_idx function_idx : Z) (c : A) :
  uncertainty_scaling_factor val_ratios domain_idx function_idx = Ok c ->
  exists c0,
    c = ratio_abs c0
    /\ (0 <= domain_idx)%Z /\ (0 <= function_idx)%Z
    /\ (length (uncovered c0 (Z.to_nat domain_idx) val_ratios)
        <= Z.to_nat function_idx)%nat.
Proof.
  unfold uncertainty_scaling_factor, val_ratios_pointwise_quantile.
  intros Hrun.
  destruct (mapM _ val_ratios) as [q|e] eqn:Hq; cbn [mbind result_bind] in Hrun;
    [|discriminate Hrun].
  destruct (vals ← torch_topk q (function_idx + 1); py_last vals)
    as [c0|e] eqn:Hc0.
  2:{ destruct (torch_topk q (function_idx + 1)) as [vals|e'];
        cbn [mbind result_bind] in Hrun, Hc0; [|discriminate Hrun].
      rewrite Hc0 in Hrun. discriminate Hrun. }
  assert (c = ratio_abs c0) as Hc.
  { destruct (torch_topk q (function_idx + 1)) as [vals|e'];
      cbn [mbind result_bind] in Hrun, Hc0; [|discriminate Hc0].
    rewrite Hc0 in Hrun. injection Hrun as <-. reflexivity. }
  apply topk_last_inv in Hc0 as [Hf Hc0].
  apply mapM_result_Forall2 in Hq.
  exists c0. split; [exact Hc|].
  assert (0 <= domain_idx)%Z as Hd.
  { destruct Hq as [|row s rows stats Hrow _].
    - cbn in Hc0. rewrite lookup_nil in Hc0. discriminate Hc0.
    - apply topk_last_inv in Hrow. lia. }
  split; [exact Hd|]. split; [exact Hf|].
  apply Nat.le_trans with (n_above c0 q); [|apply rank_n_above; exact Hc0].
  unfold uncovered, n_above at 2.
  apply (filter_length_Forall2
           (fun row s => sort_desc row !! Z.to_nat domain_idx = Some s)).
  eapply Forall2_impl; [exact Hq|]. cbv beta. intros row s Hrow.
  apply topk_last_inv in Hrow as [_ Hrow]. split; [exact Hrow|].
  intros Hmany.
  destruct (ratio_leb s c0) eqn:Hs; [exfalso | reflexivity].
  pose proof (rank_n_above _ _ _ Hrow) as Hle.
  assert (n_above c0 row <= n_above s row)%nat; [|lia].
  apply filter_length_mono. intros r Hr.
  destruct (ratio_leb r s) eqn:Hrs; [|reflexivity].
  rewrite (leb_trans _ _ _ Hrs Hs) in Hr. discriminate Hr.
Qed.

End RankGuarantee.

Lemma uncertainty_scaling_factor_covers_witness :
  exists c0 : Z,
    1%Z = ratio_abs c0
    /\ (0 <= 1)%Z /\ (0 <= 1)%Z
    /\ (length (uncovered c0 (Z.to_nat 1) [[4; 3]; [2; 1]]%Z)
        <= Z.to_nat 1)%nat.
Proof.
  apply (uncertainty_scaling_factor_covers (A := Z) (H := Z_ratio)
           Z_leb_total Z_leb_trans [[4; 3]; [2; 1]]%Z 1 1 1%Z).
  reflexivity.
Defined.

End CalibrationSetFacts.

Module CoverageFacts.
Import Coverage.

(** *** Rows of a view *)

Lemma chunks_length {A} (m : nat) (l : list A) (count : nat) :
  length (chunks m l count) = count.
Proof. unfold chunks. rewrite length_fmap, length_seq. reflexivity. Qed.

Lemma chunks_Forall2 {A B} (R : A -> B -> Prop) (m count : nat)
    (l : list A) (k : list B) :
  Forall2 R l k -> Forall2 (Forall2 R) (chunks m l count) (chunks m k count).
Proof.
  intros Hlk. unfold chunks. apply Forall2_fmap.
  induction (seq 0 count) as [|i idxs IH]; constructor; [|exact IH].
  apply Forall2_take, Forall2_drop, Hlk.
Qed.

(** Two tensors with as many elements are viewed alike. *)
Lemma view_rows_Forall2 {A B} (R : A -> B -> Prop) (d0 : nat)
    (l : list A) (k : list B) :
  Forall2 R l k ->
  match view_rows d0 l, view_rows d0 k with
  | Ok rows, Ok rows' => Forall2 (Forall2 R) rows rows'
  | Raise e, Raise e' => e = e'
  | _, _ => False
  end.
Proof.
  intros Hlk. unfold view_rows. rewrite <- (Forall2_length _ _ _ Hlk).
  destruct (decide (length l = 0%nat)); [reflexivity|].
  destruct (decide (d0 = 0%nat \/ (length l mod d0)%nat <> 0%nat)); [reflexivity|].
  apply chunks_Forall2, Hlk.
Qed.

Lemma chunks_row_length {A} (m count : nat) (l : list A) :
  length l = (count * m)%nat ->
  Forall (fun row => length row = m) (chunks m l count).
Proof.
  intros Hlen. unfold chunks. apply Forall_fmap, Forall_forall.
  intros i Hi. apply elem_of_seq in Hi. cbn.
  rewrite length_take, length_drop. nia.
Qed.

(** A view that torch accepts has at least one row, and no row is empty:
    no mean below is taken over nothing. *)
Lemma view_rows_nonempty {A} (d0 : nat) (l : list A) (rows : list (list A)) :
  view_rows d0 l = Ok rows ->
  length rows = d0 /\ d0 <> 0%nat
  /\ Forall (fun row => length row = (length l / d0)%nat
                        /\ length row <> 0%nat) rows.
Proof.
  unfold view_rows. intros Hrun.
  destruct (decide (length l = 0%nat)) as [|Hl]; [discriminate Hrun|].
  destruct (decide (d0 = 0%nat \/ (length l mod d0)%nat <> 0%nat)) as [|Hd];
    [discriminate Hrun|].
  injection Hrun as <-.
  assert (d0 <> 0%nat /\ (length l mod d0 = 0)%nat) as [Hd0 Hmod] by lia.
  pose proof (Nat.div_mod_eq (length l) d0) as Hdiv.
  split; [apply chunks_length|]. split; [exact Hd0|].
  eapply Forall_impl; [apply chunks_row_length; lia|].
  cbn. intros row ->. split; [reflexivity|]. nia.
Qed.

(** *** Sums and means of rationals *)

Lemma Qsum_le (l k : list Q) : Forall2 Qle l k -> (Qsum l <= Qsum k)%Q.
Proof.
  induction 1 as [|x y l k Hxy _ IH]; unfold Qsum; cbn [foldr];
    [apply Qle_refl|].
  apply Qplus_le_compat; assumption.
Qed.

Lemma inv_length_nonneg (n : nat) : (0 <= / inject_Z (Z.of_nat n))%Q.
Proof.
  apply Qinv_le_0_compat. change 0%Q with (inject_Z 0).
  rewrite <- Zle_Qle. lia.
Qed.

Lemma Qmean_le (l k : list Q) : Forall2 Qle l k -> (Qmean l <= Qmean k)%Q.
Proof.
  intros Hlk. unfold Qmean, Qdiv. rewrite (Forall2_length _ _ _ Hlk).
  apply Qmult_le_compat_r; [apply Qsum_le, Hlk | apply inv_length_nonneg].
Qed.

Lemma Qsum_to_float_bounds (l : list bool) :
  (0 <= Qsum (to_float <$> l) <= inject_Z (Z.of_nat (length l)))%Q.
Proof.
  induction l as [|b l [IH0 IH1]].
  - cbn. split; apply Qle_refl.
  - cbn [fmap list_fmap Qsum foldr length]. fold (Qsum (to_float <$> l)).
    rewrite Nat2Z.inj_succ. unfold Z.succ. rewrite inject_Z_plus.
    change (inject_Z 1) with 1%Q.
    destruct b; cbn [to_float]; split; Lqa.lra.
Qed.

(** A mean of indicator values is a fraction. *)
Lemma Qmean_to_float_bounds (l : list bool) :
  (0 <= Qmean (to_float <$> l) <= 1)%Q.
Proof.
  destruct (Qsum_to_float_bounds l) as [H0 H1].
  unfold Qmean. rewrite length_fmap.
  destruct l as [|b l].
  - cbn. split; [apply Qle_refl | discriminate].
  - set (n := inject_Z (Z.of_nat (length (b :: l)))) in *.
    assert (0 < n)%Q as Hn.
    { subst n. change 0%Q with (inject_Z 0). rewrite <- Zlt_Qlt.
      cbn [length]. lia. }
    split.
    + apply Qle_shift_div_l; [exact Hn|]. Lqa.lra.
    + apply Qle_shift_div_r; [exact Hn|]. Lqa.lra.
Qed.

Lemma to_float_le (b b' : bool) :
  (b = true -> b' = true) -> (to_float b <= to_float b')%Q.
Proof. destruct b, b'; cbn; intros Himp; try discriminate; try (specialize (Himp eq_refl); discriminate). Qed.

Lemma Forall2_concat {A B} (R : A -> B -> Prop) (ls : list (list A))
    (ks : list (list B)) :
  Forall2 (Forall2 R) ls ks -> Forall2 R (concat ls) (concat ks).
Proof.
  induction 1 as [|l k ls ks Hlk _ IH]; cbn; [constructor|].
  apply Forall2_app; assumption.
Qed.

(** *** Relating two runs *)

Lemma mapM_outcome_rel {A A' B B'} (R : B -> B' -> Prop)
    (f : A -> result B) (g : A' -> result B') (l : list A) (l' : list A') :
  Forall2 (fun x x' => outcome_rel R (f x) (g x')) l l' ->
  outcome_rel (Forall2 R) (mapM f l) (mapM g l').
Proof.
  induction 1 as [|x x' l l' Hx _ IH]; cbn [mapM]; [constructor|].
  unfold outcome_rel in Hx.
  destruct (f x) as [y|e], (g x') as [y'|e']; try contradiction;
    cbn [mbind result_bind]; [|exact Hx].
  unfold outcome_rel in IH.
  destruct (mapM f l) as [ys|e], (mapM g l') as [ys'|e']; try contradiction;
    cbn [mbind result_bind mret result_ret outcome_rel]; [|exact IH].
  constructor; assumption.
Qed.

(** [eval_coverage_bandwidth] on two loaders whose batches are related *)
Lemma eval_outcome_rel (Rw : Q -> Q -> Prop) (Rm : Q -> Q -> Prop)
    (loader loader' : list batch) (alpha alpha' : Q) :
  (forall l k, Forall2 Rw l k -> Rm (Qmean l) (Qmean k)) ->
  Forall2 (fun b b' => outcome_rel (stats_rel Rw)
                         (batch_stats alpha b) (batch_stats alpha' b'))
          loader loader' ->
  outcome_rel (fun r r' => Rm r.1 r'.1 /\ (r.2 <= r'.2)%Q)
    (eval_coverage_bandwidth loader alpha)
    (eval_coverage_bandwidth loader' alpha').
Proof.
  intros HRm Hall. unfold eval_coverage_bandwidth.
  pose proof (mapM_outcome_rel _ _ _ _ _ Hall) as Hstats.
  unfold outcome_rel in Hstats.
  destruct (mapM (batch_stats alpha) loader) as [stats|e],
           (mapM (batch_stats alpha') loader') as [stats'|e'];
    try contradiction; cbn [mbind result_bind]; [|exact Hstats].
  destruct Hstats as [|s s' stats stats' Hs Hstats]; [reflexivity|].
  change (torch_cat (snd <$> s :: stats)) with (Ok (concat (snd <$> s :: stats))).
  change (torch_cat (snd <$> s' :: stats')) with (Ok (concat (snd <$> s' :: stats'))).
  change (torch_cat (fst <$> s :: stats)) with (Ok (concat (fst <$> s :: stats))).
  change (torch_cat (fst <$> s' :: stats')) with (Ok (concat (fst <$> s' :: stats'))).
  cbn [mbind result_bind mret result_ret outcome_rel fst snd].
  assert (Forall2 (stats_rel Rw) (s :: stats) (s' :: stats')) as Hall'
    by (constructor; assumption).
  split.
  - apply HRm.
    apply (Forall2_concat Rw (fst <$> s :: stats) (fst <$> s' :: stats')).
    apply Forall2_fmap. eapply Forall2_impl; [exact Hall'|].
    intros ? ? [Hw _]. exact Hw.
  - apply Qmean_le. apply Forall2_fmap.
    eapply Forall2_impl; [|intros b b'; apply to_float_le].
    apply (Forall2_concat _ (snd <$> s :: stats) (snd <$> s' :: stats')).
    apply Forall2_fmap. eapply Forall2_impl; [exact Hall'|].
    intros ? ? [_ Hi]. exact Hi.
Qed.


Lemma batch_stats_rel (Rw : Q -> Q -> Prop) (alpha alpha' : Q) (b b' : batch) :
  (forall l k, Forall2 Rw l k -> Rw (Qmean l) (Qmean k)) ->
  b_shape b = b_shape b' ->
  Forall2 Rw (Qabs <$> uncertainty_pred b) (Qabs <$> uncertainty_pred b') ->
  Forall2 (fun x y : bool => x = true -> y = true) (in_pred b) (in_pred b') ->
  (alpha <= alpha')%Q ->
  outcome_rel (stats_rel Rw) (batch_stats alpha b) (batch_stats alpha' b').
Proof.
  intros HRw Hshape Hunc Hin Halpha. unfold batch_stats.
  cbv zeta. rewrite <- Hshape.
  destruct (shape0 (b_shape b)) as [n|e]; cbn [mbind result_bind];
    [|reflexivity].
  pose proof (view_rows_Forall2 Rw n _ _ Hunc) as Hw.
  destruct (view_rows n (Qabs <$> uncertainty_pred b)) as [widths|e],
           (view_rows n (Qabs <$> uncertainty_pred b')) as [widths'|e'];
    try contradiction; cbn [mbind result_bind]; [|exact Hw].
  destruct (shape0 (squeeze (b_shape b))) as [n'|e]; cbn [mbind result_bind];
    [|reflexivity].
  pose proof (view_rows_Forall2 _ n' _ _ Hin) as Hrows.
  destruct (view_rows n' (in_pred b)) as [rows|e],
           (view_rows n' (in_pred b')) as [rows'|e'];
    try contradiction; cbn [mbind result_bind]; [|exact Hrows].
  cbn [mret result_ret outcome_rel]. split; cbn [fst snd].
  - apply Forall2_fmap. eapply Forall2_impl; [exact Hw|]. exact HRw.
  - apply Forall2_fmap. eapply Forall2_impl; [exact Hrows|].
    intros row row' Hrow. cbv beta. rewrite !Qle_bool_iff. intros Hle.
    apply Qle_trans with (1 - alpha)%Q; [Lqa.lra|].
    apply Qle_trans with (Qmean (to_float <$> row)); [exact Hle|].
    apply Qmean_le, Forall2_fmap.
    eapply Forall2_impl; [exact Hrow|]. intros x y. apply to_float_le.
Qed.

Lemma Forall2_diag {A} (R : A -> A -> Prop) (l : list A) :
  (forall x, R x x) -> Forall2 R l l.
Proof. intros HR. induction l; constructor; auto. Qed.

Lemma eval_percentage_bounds (loader : list batch) (alpha w p : Q) :
  eval_coverage_bandwidth loader alpha = Ok (w, p) -> (0 <= p <= 1)%Q.
Proof.
  unfold eval_coverage_bandwidth. intros Hrun.
  destruct (mapM _ loader) as [stats|e]; cbn [mbind result_bind] in Hrun;
    [|discriminate Hrun].
  destruct (torch_cat (snd <$> stats)) as [ip|e]; cbn [mbind result_bind] in Hrun;
    [|discriminate Hrun].
  destruct (torch_cat (fst <$> stats)) as [iv|e]; cbn [mbind result_bind] in Hrun;
    [|discriminate Hrun].
  injection Hrun as _ <-. apply Qmean_to_float_bounds.
Qed.

(** A larger alpha asks for less: the outcome of eval_coverage_bandwidth
    is the same exception for both levels, or two results with the same
    mean interval width and a percentage of instances, a fraction between
    0 and 1, that does not decrease with alpha. *)
Theorem eval_coverage_bandwidth_monotone (test_loader : list batch)
    (alpha alpha' : Q) :
  (alpha <= alpha')%Q ->
  match eval_coverage_bandwidth test_loader alpha,
        eval_coverage_bandwidth test_loader alpha' with
  | Ok (mean_interval, percentage), Ok (mean_interval', percentage') =>
      mean_interval = mean_interval'
      /\ (0 <= percentage)%Q /\ (percentage <= percentage')%Q
      /\ (percentage' <= 1)%Q
  | Raise e, Raise e' => e = e'
  | _, _ => False
  end.
Proof.
  intros Halpha.
  assert (forall l k : list Q, Forall2 eq l k -> Qmean l = Qmean k) as Hmean.
  { intros l k Hlk. apply list_eq_Forall2 in Hlk. congruence. }
  assert (outcome_rel (fun r r' : Q * Q => r.1 = r'.1 /\ (r.2 <= r'.2)%Q)
            (eval_coverage_bandwidth test_loader alpha)
            (eval_coverage_bandwidth test_loader alpha')) as Hrel.
  { apply (eval_outcome_rel eq eq); [exact Hmean|].
    apply Forall2_diag. intros b. apply batch_stats_rel.
    - exact Hmean.
    - reflexivity.
    - apply Forall2_diag. reflexivity.
    - apply Forall2_diag. intros x Hx. exact Hx.
    - exact Halpha. }
  unfold outcome_rel in Hrel.
  pose proof (eval_percentage_bounds test_loader alpha) as Hb.
  pose proof (eval_percentage_bounds test_loader alpha') as Hb'.
  destruct (eval_coverage_bandwidth test_loader alpha) as [[w p]|e],
           (eval_coverage_bandwidth test_loader alpha') as [[w' p']|e'];
    cbn [fst snd] in Hrel; try exact Hrel.
  specialize (Hb w p eq_refl). specialize (Hb' w' p' eq_refl). tauto.
Qed.

Lemma eval_coverage_bandwidth_monotone_witness :
  match eval_coverage_bandwidth [two_instance_batch; one_instance_batch] (1 # 10),
        eval_coverage_bandwidth [two_instance_batch; one_instance_batch] (1 # 2)
  with
  | Ok (mean_interval, percentage), Ok (mean_interval', percentage') =>
      mean_interval = mean_interval'
      /\ (0 <= percentage)%Q /\ (percentage <= percentage')%Q
      /\ (percentage' <= 1)%Q
  | Raise e, Raise e' => e = e'
  | _, _ => False
  end.
Proof.
  apply (eval_coverage_bandwidth_monotone
           [two_instance_batch; one_instance_batch] (1 # 10) (1 # 2)).
  unfold Qle. cbn. lia.
Defined.


Lemma in_pred_scaled (c : Q) (b : batch) :
  (1 <= Qabs c)%Q ->
  Forall2 (fun x y : bool => x = true -> y = true)
          (in_pred b) (in_pred (scaled c b)).
Proof.
  intros Hc. unfold in_pred, scaled. cbn [pointwise_true_err uncertainty_pred].
  generalize (uncertainty_pred b) as us.
  induction (pointwise_true_err b) as [|e es IH]; intros [|u us];
    cbn [zip_with fmap list_fmap]; constructor; [|apply IH].
  unfold Qlt_bool. rewrite !negb_true_iff.
  intros Hlt. apply not_true_is_false. rewrite Qle_bool_iff.
  apply not_true_iff_false in Hlt. rewrite Qle_bool_iff in Hlt.
  intros Hle. apply Hlt.
  apply Qle_trans with (Qabs (u * c)); [|exact Hle].
  rewrite Qabs_Qmult. pose proof (Qabs_nonneg u) as Hu.
  pose proof (Qmult_le_compat_r 1 (Qabs c) (Qabs u) Hc Hu) as Hm.
  rewrite Qmult_1_l, Qmult_comm in Hm. exact Hm.
Qed.

(** Scaling the predicted uncertainty by a factor c with |c| >= 1, as
    the calibrated processor does, lowers neither the mean interval width
    nor the percentage of covered instances; it raises exactly when the
    unscaled evaluation raises, and the same exception. *)
Theorem eval_coverage_bandwidth_scaled (test_loader : list batch) (alpha c : Q) :
  (1 <= Qabs c)%Q ->
  match eval_coverage_bandwidth test_loader alpha,
        eval_coverage_bandwidth (scaled c <$> test_loader) alpha with
  | Ok (mean_interval, percentage), Ok (mean_interval', percentage') =>
      (mean_interval <= mean_interval')%Q
      /\ (percentage <= percentage')%Q
  | Raise e, Raise e' => e = e'
  | _, _ => False
  end.
Proof.
  intros Hc.
  assert (outcome_rel (fun r r' => (r.1 <= r'.1)%Q /\ (r.2 <= r'.2)%Q)
            (eval_coverage_bandwidth test_loader alpha)
            (eval_coverage_bandwidth (scaled c <$> test_loader) alpha)) as H.
  { apply (eval_outcome_rel Qle Qle); [apply Qmean_le|].
    apply Forall2_fmap_r, Forall2_diag. intros b. cbv beta. unfold compose.
    apply batch_stats_rel.
    - apply Qmean_le.
    - reflexivity.
    - cbn [scaled uncertainty_pred]. apply Forall2_fmap.
      apply Forall2_fmap_r, Forall2_diag. intros u. unfold compose.
      rewrite Qabs_Qmult. pose proof (Qabs_nonneg u) as Hu.
      pose proof (Qmult_le_compat_r 1 (Qabs c) (Qabs u) Hc Hu) as Hm.
      rewrite Qmult_1_l, Qmult_comm in Hm. exact Hm.
    - apply in_pred_scaled, Hc.
    - apply Qle_refl. }
  unfold outcome_rel in H.
  destruct (eval_coverage_bandwidth test_loader alpha) as [[w p]|e],
           (eval_coverage_bandwidth (scaled c <$> test_loader) alpha) as [[w' p']|e'];
    exact H.
Qed.

Lemma eval_coverage_bandwidth_scaled_witness :
  match eval_coverage_bandwidth [two_instance_batch; one_instance_batch] (1 # 10),
        eval_coverage_bandwidth
          (scaled 2 <$> [two_instance_batch; one_instance_batch]) (1 # 10)
  with
  | Ok (mean_interval, percentage), Ok (mean_interval', percentage') =>
      (mean_interval <= mean_interval')%Q
      /\ (percentage <= percentage')%Q
  | Raise e, Raise e' => e = e'
  | _, _ => False
  end.
Proof.
  apply (eval_coverage_bandwidth_scaled
           [two_instance_batch; one_instance_batch] (1 # 10) 2).
  unfold Qle. cbn. lia.
Defined.


(** *** How many instances a batch counts for *)

Lemma numel_mod (d : nat) (shape : list nat) :
  d ∈ shape -> (numel shape mod d = 0)%nat.
Proof.
  intros Hd. apply Nat.Lcm0.mod_divide.
  induction shape as [|a shape IH]; [inversion Hd|].
  cbn [numel foldr]. fold (numel shape).
  apply elem_of_cons in Hd as [-> | Hd].
  - apply Nat.divide_mul_l, Nat.divide_refl.
  - apply Nat.divide_mul_r, IH, Hd.
Qed.

Lemma numel_elem_nonzero (d : nat) (shape : list nat) :
  d ∈ shape -> numel shape <> 0%nat -> d <> 0%nat.
Proof.
  induction shape as [|a shape IH]; intros Hd Hn; [inversion Hd|].
  cbn [numel foldr] in Hn. fold (numel shape) in Hn.
  apply elem_of_cons in Hd as [-> | Hd]; [lia|]. apply IH; [exact Hd | lia].
Qed.

Lemma view_rows_dim {A} (d : nat) (shape : list nat) (l : list A) :
  d ∈ shape -> length l = numel shape -> numel shape <> 0%nat ->
  view_rows d l = Ok (chunks (numel shape / d) l d).
Proof.
  intros Hd Hlen Hn. unfold view_rows. rewrite Hlen.
  rewrite decide_False by exact Hn.
  rewrite decide_False; [reflexivity|].
  pose proof (numel_mod d shape Hd). pose proof (numel_elem_nonzero d shape Hd Hn).
  lia.
Qed.

Lemma in_pred_length (b : batch) :
  batch_wf b -> length (in_pred b) = numel (b_shape b).
Proof.
  intros [He Hu]. unfold in_pred. rewrite length_zip_with. lia.
Qed.

(** A batch of two or more instances yields one width and one coverage
    decision per instance.  A batch of a single instance yields one width,
    but squeeze() also drops its batch axis: it yields as many coverage
    decisions as the first remaining axis is long (one per grid row for a
    field on a grid), or IndexError when no axis remains. *)
Theorem batch_stats_instances (alpha : Q) (b : batch) (n : nat)
    (rest : list nat) :
  batch_wf b -> b_shape b = n :: rest -> numel (b_shape b) <> 0%nat ->
  (2 <= n ->
     batch_stats alpha b
     = Ok (Qmean <$> chunks (numel rest) (Qabs <$> uncertainty_pred b) n,
           (fun row => Qle_bool (1 - alpha) (Qmean (to_float <$> row)))
             <$> chunks (numel rest) (in_pred b) n))%nat
  /\ (n = 1%nat ->
      match squeeze rest with
      | [] => batch_stats alpha b = Raise IndexError
      | d :: _ =>
          d <> 1%nat
          /\ exists avg_interval in_pred_instancewise,
               batch_stats alpha b = Ok (avg_interval, in_pred_instancewise)
               /\ length avg_interval = 1%nat
               /\ length in_pred_instancewise = d
      end).
Proof.
  intros Hwf Hshape Hn.
  pose proof (in_pred_length b Hwf) as Hin.
  destruct Hwf as [_ Hu]. unfold batch_stats.
  revert Hin Hu Hn. generalize (in_pred b) as ip. rewrite !Hshape.
  intros ip Hin Hu Hn.
  assert (n <> 0%nat) as Hn0
    by (apply (numel_elem_nonzero n (n :: rest)); [left | exact Hn]).
  assert (numel (n :: rest) / n = numel rest)%nat as Hdiv.
  { cbn [numel foldr]. fold (numel rest).
    rewrite Nat.mul_comm. apply Nat.div_mul, Hn0. }
  cbn [shape0 mbind result_bind].
  rewrite (view_rows_dim n (n :: rest));
    [| left | rewrite length_fmap; exact Hu | exact Hn].
  cbn [mbind result_bind]. rewrite Hdiv. split.
  - intros Hn2. unfold squeeze.
    rewrite filter_cons, decide_True by lia. cbn [shape0 mbind result_bind].
    rewrite (view_rows_dim n (n :: rest)); [| left | exact Hin | exact Hn].
    rewrite Hdiv. reflexivity.
  - intros ->.
    assert (squeeze (1%nat :: rest) = squeeze rest) as ->
      by (unfold squeeze; rewrite filter_cons, decide_False by lia; reflexivity).
    destruct (squeeze rest) as [|d s] eqn:Hsq; [reflexivity|].
    assert (d ∈ rest /\ d <> 1%nat) as [Hd Hd1].
    { apply and_comm, (list_elem_of_filter (fun d => d <> 1%nat)).
      fold (squeeze rest). rewrite Hsq. left. }
    split; [exact Hd1|]. cbn [shape0 mbind result_bind].
    rewrite (view_rows_dim d (1%nat :: rest));
      [| right; exact Hd | exact Hin | exact Hn].
    cbn [mbind result_bind mret result_ret].
    eexists _, _. split; [reflexivity|].
    rewrite !length_fmap, !chunks_length. split; reflexivity.
Qed.

Lemma one_instance_batch_wf : batch_wf one_instance_batch.
Proof. split; reflexivity. Qed.

Lemma batch_stats_instances_witness :
  (2 <= 1 ->
     batch_stats (1 # 10) one_instance_batch
     = Ok (Qmean <$> chunks (numel [1; 2; 2]%nat)
                       (Qabs <$> uncertainty_pred one_instance_batch) 1,
           (fun row => Qle_bool (1 - (1 # 10)) (Qmean (to_float <$> row)))
             <$> chunks (numel [1; 2; 2]%nat) (in_pred one_instance_batch) 1))%nat
  /\ (1%nat = 1%nat ->
      match squeeze [1; 2; 2]%nat with
      | [] => batch_stats (1 # 10) one_instance_batch = Raise IndexError
      | d :: _ =>
          d <> 1%nat
          /\ exists avg_interval in_pred_instancewise,
               batch_stats (1 # 10) one_instance_batch
               = Ok (avg_interval, in_pred_instancewise)
               /\ length avg_interval = 1%nat
               /\ length in_pred_instancewise = d
      end).
Proof.
  apply (batch_stats_instances (1 # 10) one_instance_batch 1 [1; 2; 2]%nat).
  - exact one_instance_batch_wf.
  - reflexivity.
  - cbn. lia.
Defined.


End CoverageFacts.

Module DatasetSplitFacts.
Import DatasetSplit.

Lemma py_slice_nonneg {A} (l : list A) (a b : Z) :
  (0 <= a <= b)%Z ->
  py_slice l (Some a) (Some b)
  = take (Z.to_nat b - Z.to_nat a) (drop (Z.to_nat a) l).
Proof.
  intros Hab. unfold py_slice, slice_bound. cbn [from_option].
  rewrite !(proj2 (Z.ltb_ge _ 0)) by lia.
  destruct (decide (Z.of_nat (length l) <= a)%Z) as [Hl | Hl].
  - rewrite !drop_ge by lia. rewrite !take_nil. reflexivity.
  - rewrite (Z.min_l a) by lia.
    destruct (decide (b <= Z.of_nat (length l))%Z) as [Hb | Hb].
    + rewrite (Z.min_l b) by lia. f_equal. lia.
    + rewrite (Z.min_r b) by lia.
      rewrite !take_ge; [reflexivity | |]; rewrite length_drop; lia.
Qed.

Lemma py_slice_prefix {A} (l : list A) (b : Z) :
  (0 <= b)%Z -> py_slice l None (Some b) = take (Z.to_nat b) l.
Proof.
  intros Hb. unfold py_slice, slice_bound. cbn [from_option].
  rewrite (proj2 (Z.ltb_ge _ 0)) by lia.
  rewrite Z.sub_0_r. change (Z.to_nat 0) with 0%nat. rewrite drop_0.
  destruct (decide (b <= Z.of_nat (length l))%Z) as [Hl | Hl].
  - rewrite Z.min_l by lia. reflexivity.
  - rewrite Z.min_r by lia. rewrite !take_ge by lia. reflexivity.
Qed.

Lemma take_take_drop {A} (l : list A) (n m : nat) :
  take n l ++ take m (drop n l) = take (n + m) l.
Proof.
  revert l. induction n as [|n IH]; intros [|x l]; cbn;
    try rewrite take_nil; try reflexivity.
  f_equal. apply IH.
Qed.

(** For sizes that are not negative, the three parts are consecutive
    segments of the training set: put one after the other they are its
    first n_train_solution + n_train_residual + n_calib_residual samples,
    in order, and no sample is in two parts.  A training set that is too
    short is not refused: the later parts are cut short. *)
Theorem split_train_db_partition {A} (train_db : list A)
    (n_train_solution n_train_residual n_calib_residual : Z) :
  (0 <= n_train_solution)%Z -> (0 <= n_train_residual)%Z ->
  (0 <= n_calib_residual)%Z ->
  let s := split_train_db train_db n_train_solution n_train_residual
             n_calib_residual in
  let n := length train_db in
  solution_train_db s ++ residual_train_db s ++ residual_calib_db s
  = take (Z.to_nat (n_train_solution + n_train_residual + n_calib_residual))
         train_db
  /\ length (solution_train_db s) = Z.to_nat n_train_solution `min` n
  /\ length (residual_train_db s)
     = Z.to_nat n_train_residual `min` (n - Z.to_nat n_train_solution)
  /\ length (residual_calib_db s)
     = Z.to_nat n_calib_residual
       `min` (n - Z.to_nat n_train_solution - Z.to_nat n_train_residual).
Proof.
  intros Hs Hr Hc. cbv zeta. unfold split_train_db.
  cbn [solution_train_db residual_train_db residual_calib_db].
  rewrite py_slice_prefix by lia. rewrite !py_slice_nonneg by lia.
  replace (Z.to_nat (n_train_solution + n_train_residual)
           - Z.to_nat n_train_solution)%nat
    with (Z.to_nat n_train_residual) by lia.
  replace (Z.to_nat (n_train_solution + n_train_residual + n_calib_residual)
           - Z.to_nat (n_train_solution + n_train_residual))%nat
    with (Z.to_nat n_calib_residual) by lia.
  split; [|rewrite !length_take, !length_drop; lia].
  rewrite app_assoc, take_take_drop.
  replace (Z.to_nat (n_train_solution + n_train_residual))
    with (Z.to_nat n_train_solution + Z.to_nat n_train_residual)%nat by lia.
  rewrite take_take_drop. f_equal. lia.
Qed.

Lemma split_train_db_partition_witness :
  let s := split_train_db [10; 11; 12; 13; 14; 15]%Z 2 3 4 in
  let n := length [10; 11; 12; 13; 14; 15]%Z in
  solution_train_db s ++ residual_train_db s ++ residual_calib_db s
  = take (Z.to_nat (2 + 3 + 4)) [10; 11; 12; 13; 14; 15]%Z
  /\ length (solution_train_db s) = Z.to_nat 2 `min` n
  /\ length (residual_train_db s) = Z.to_nat 3 `min` (n - Z.to_nat 2)
  /\ length (residual_calib_db s)
     = Z.to_nat 4 `min` (n - Z.to_nat 2 - Z.to_nat 3).
Proof.
  apply (split_train_db_partition [10; 11; 12; 13; 14; 15]%Z 2 3 4); lia.
Defined.

End DatasetSplitFacts.

Module UtilsFacts.
Import Utils.

(** *** The wandb API key *)
Section WandbKeyFacts.
Variable strip : string -> string.

(** set_wandb_api_key pins the key.  When it returns, the key that
    get_wandb_api_key would have returned before is now in the environment:
    get_wandb_api_key and wandb_login use it whatever the key file holds
    afterwards, and a second call changes nothing.  It raises only when
    the variable is unset: then either reading the file raises, as it does
    for get_wandb_api_key, or the stripped content of the file holds a
    null byte, which os.environ refuses with a ValueError while
    get_wandb_api_key returns it. *)
Theorem set_wandb_api_key_pins (environ : gmap string string)
    (api_key_file : result string) :
  match set_wandb_api_key strip environ api_key_file with
  | Ok environ' =>
      exists key,
        get_wandb_api_key strip environ api_key_file = Ok key
        /\ environ' !! "WANDB_API_KEY" = Some key
        /\ (forall name, name <> "WANDB_API_KEY" ->
              environ' !! name = environ !! name)
        /\ forall api_key_file',
             get_wandb_api_key strip environ' api_key_file' = Ok key
             /\ wandb_login strip environ' api_key_file' None = Ok key
             /\ set_wandb_api_key strip environ' api_key_file' = Ok environ'
  | Raise e =>
      environ !! "WANDB_API_KEY" = None
      /\ (api_key_file = Raise e
          /\ get_wandb_api_key strip environ api_key_file = Raise e
          \/ exists content,
               api_key_file = Ok content
               /\ has_nul (strip content) = true
               /\ e = ValueError
               /\ get_wandb_api_key strip environ api_key_file
                  = Ok (strip content))
  end.
Proof.
  unfold set_wandb_api_key, wandb_login, get_wandb_api_key.
  destruct (environ !! "WANDB_API_KEY") as [key|] eqn:Henv.
  - exists key. rewrite Henv. repeat split; reflexivity.
  - destruct api_key_file as [content|e]; cbn [mbind result_bind mret result_ret].
    + unfold environ_set.
      destruct (has_nul (strip content)) eqn:Hnul.
      * split; [reflexivity|]. right. exists content.
        split; [reflexivity|]. split; [exact Hnul|]. split; reflexivity.
      * exists (strip content). split; [reflexivity|].
        rewrite lookup_insert_eq. split; [reflexivity|].
        split; [|repeat split; reflexivity].
        intros name Hname. apply lookup_insert_ne. congruence.
    + split; [reflexivity|]. left. split; reflexivity.
Qed.

End WandbKeyFacts.

Section NormalizerFacts.

(** Whatever the tensors are: a sample_idx whose first entry has more
    axes than the mean leaves the local names std and mean of decode
    unbound, and decode raises (UnboundLocalError, a NameError) instead of
    decoding. *)
Theorem decode_unbound_std {X S I : Type} `{NormalizerOps X S} `{IndexOps S I}
    (self : UnitGaussianNormalizer S) (x : X) (sample_idx : I) :
  (s_rank (mean self) < idx_rank sample_idx)%nat ->
  decode self x (Some sample_idx) = Raise (NameError "std").
Proof.
  intros Hrank. unfold decode, decode_locals.
  rewrite decide_False by lia. cbn [mbind result_bind mret result_ret].
  rewrite decide_False by lia. reflexivity.
Qed.

Lemma decode_unbound_std_witness :
  decode (H0 := toy_index_ops)
    {| mean := [fin 0]; std := [fin 1]; eps := fin 0 |} [[fin 2]] (Some 2%nat)
  = Raise (NameError "std").
Proof.
  apply (decode_unbound_std (H0 := toy_index_ops)
           {| mean := [fin 0]; std := [fin 1]; eps := fin 0 |} [[fin 2]] 2%nat).
  cbn. lia.
Defined.

(** One sample through encode and decode *)
Lemma lookup_zip_with_inv {B C D} (f : B -> C -> D) (l : list B) (k : list C)
    (i : nat) (d : D) :
  zip_with f l k !! i = Some d ->
  exists b c, l !! i = Some b /\ k !! i = Some c /\ d = f b c.
Proof.
  rewrite lookup_zip_with. intros Hd.
  destruct (l !! i) as [b|]; [|discriminate Hd].
  destruct (k !! i) as [c|]; [|discriminate Hd].
  cbn in Hd. injection Hd as <-. exists b, c. repeat split.
Qed.

(** For statistics and samples of one shape: at a position where
    std + eps is zero the values of the samples are lost.  encode divides
    by zero there, and decode after encode hands a non-finite value back
    for every sample, whatever it held. *)
Theorem decode_encode_zero_std {I : Type} `{IndexOps (list np_float) I}
    (self : UnitGaussianNormalizer (list np_float))
    (x : list (list np_float)) (k : nat) :
  length (std self) = length (mean self) ->
  Forall (fun row => length row = length (mean self)) x ->
  s_add_eps (std self) (eps self) !! k = Some (fin 0) ->
  exists y,
    decode self (encode self x) None = Ok y
    /\ length y = length x
    /\ forall row, row ∈ y -> row !! k = Some None.
Proof.
  intros Hstd Hrows Hzero. unfold decode, decode_locals, encode.
  cbn [mbind result_bind mret result_ret x_sub x_div x_mul x_add rows_ops].
  eexists. split; [reflexivity|]. split.
  { unfold rows_op. rewrite !length_fmap. reflexivity. }
  assert (k < length (mean self))%nat as Hk.
  { apply lookup_lt_Some in Hzero. cbn [s_add_eps rows_ops] in Hzero.
    rewrite length_fmap in Hzero. lia. }
  assert (length (s_add_eps (std self) (eps self)) = length (mean self)) as Hs.
  { cbn [s_add_eps rows_ops]. rewrite length_fmap. exact Hstd. }
  intros row Hrow. unfold rows_op in Hrow.
  apply list_elem_of_fmap in Hrow as (r3 & -> & Hrow).
  apply list_elem_of_fmap in Hrow as (r2 & -> & Hrow).
  apply list_elem_of_fmap in Hrow as (r1 & -> & Hrow).
  apply list_elem_of_fmap in Hrow as (x0 & -> & Hrow).
  rewrite Forall_forall in Hrows. specialize (Hrows _ Hrow). cbv beta.
  destruct (lookup_lt_is_Some_2
              (zip_with np_add
                 (zip_with np_mul
                    (zip_with np_div (zip_with np_sub x0 (mean self))
                       (s_add_eps (std self) (eps self)))
                    (s_add_eps (std self) (eps self))) (mean self)) k)
    as [v Hv].
  { rewrite !length_zip_with. lia. }
  transitivity (Some v); [exact Hv|]. f_equal.
  apply lookup_zip_with_inv in Hv as (a & m & Ha & _ & ->).
  apply lookup_zip_with_inv in Ha as (b & s & Hb & Hs1 & ->).
  apply lookup_zip_with_inv in Hb as (c & s' & _ & Hs2 & ->).
  rewrite Hzero in Hs1, Hs2. injection Hs1 as <-. injection Hs2 as <-.
  unfold np_add, np_mul, np_div, np_lift2, fin.
  destruct c as [c|]; cbn [mbind option_bind]; [|reflexivity].
  destruct (Req_dec_T 0 0) as [_ | Hne]; [reflexivity | contradiction].
Qed.

Lemma decode_encode_zero_std_witness :
  exists y,
    decode (H0 := toy_index_ops)
      {| mean := [fin 1]; std := [fin 0]; eps := fin 0 |}
      (encode {| mean := [fin 1]; std := [fin 0]; eps := fin 0 |} [[fin 5]])
      None = Ok y
    /\ length y = length [[fin 5]]
    /\ forall row, row ∈ y -> row !! 0%nat = Some None.
Proof.
  apply (decode_encode_zero_std (H := toy_index_ops)
           {| mean := [fin 1]; std := [fin 0]; eps := fin 0 |} [[fin 5]] 0).
  - reflexivity.
  - repeat constructor.
  - cbn. unfold np_add, np_lift2, fin. cbn. do 2 f_equal. lra.
Defined.

End NormalizerFacts.

Section StatisticsFacts.

(** The degenerate generators.  Without items, next() raises
    StopIteration.  With a single item the count is 1 and the division by
    count - 1 makes the standard deviation non-finite at every position,
    whatever the item holds. *)
Theorem compute_statistics_degenerate {X : Type}
    `{TensorStatistics X (list np_float)} (reduce_dim : list Z) :
  compute_statistics (GeneratorInput (X := X) (S := list np_float) [])
    reduce_dim
  = inl StopIteration
  /\ forall item : list np_float,
       exists st,
         compute_statistics (GeneratorInput (X := X) [item]) reduce_dim = inr st
         /\ st_count st = 1%Z
         /\ st_std st = (fun _ => None) <$> item.
Proof.
  split; [reflexivity|]. intros item.
  eexists. split; [reflexivity|]. split; [reflexivity|].
  cbn [st_std accumulate_items s_sqrt s_div_count s_minus s_square
       vector_statistics_ops].
  change (1 - 1)%Z with 0%Z.
  induction item as [|v item IH]; [reflexivity|].
  cbn [fmap list_fmap zip_with]. f_equal; [|exact IH].
  unfold np_sqrt, np_div, np_sub, np_mul, np_lift2, of_int.
  destruct v as [a|]; cbn [mbind option_bind]; [|reflexivity].
  destruct (Req_dec_T 1 0) as [E | _]; [lra|]. cbn [mbind option_bind].
  destruct (Req_dec_T 0 0) as [_ | E]; [reflexivity | contradiction].
Qed.

End StatisticsFacts.

End UtilsFacts.

Module UqnoOutcomeFacts.
Import Uqno.

Section Outcome.
Context {tensor : Type} `{Collaborators tensor}.

(** postprocess returns exactly when the sample that the base processor
    hands back carries both 'y' and 'x'.  Otherwise it raises KeyError:
    for 'y' when 'y' is missing, for 'x' when 'y' is there and 'x' is
    missing; nothing else is raised. *)
Theorem postprocess_outcome (self : processor) (out : tensor * tensor)
    (smp : gmap string tensor) :
  let smp_base := (base_postprocess false out.1 smp).2 in
  match postprocess self out smp with
  | Ok _ => is_Some (smp_base !! "y") /\ is_Some (smp_base !! "x")
  | Raise e =>
      (e = KeyError "y" /\ smp_base !! "y" = None)
      \/ (e = KeyError "x" /\ is_Some (smp_base !! "y")
          /\ smp_base !! "x" = None)
  end.
Proof.
  destruct out as [g_hat pred_uncertainty]. cbv zeta. cbn [fst].
  unfold postprocess. cbn [base_train scale_factor].
  destruct (base_postprocess false g_hat smp) as [g_hat' smp_base]. cbn [snd].
  unfold dict_get.
  destruct (smp_base !! "y") as [g_true|] eqn:Hy; cbn [mbind result_bind];
    [|left; split; reflexivity].
  unfold dict_pop. rewrite lookup_insert_ne by discriminate.
  destruct (smp_base !! "x") as [x|] eqn:Hx;
    cbn [mbind result_bind mret result_ret].
  - split; eexists; reflexivity.
  - right. repeat split. eexists; reflexivity.
Qed.

(** Calibration composes with postprocess.  After set_scale_factor(c),
    postprocess raises what the uncalibrated processor raises, or returns
    the same sample and the uncalibrated uncertainty times c; the
    processor keeps the factor c afterwards, and of two calls of
    set_scale_factor the last one counts. *)
Theorem postprocess_set_scale_factor (self : processor) (c c0 : tensor)
    (out : tensor * tensor) (smp : gmap string tensor) :
  match postprocess {| base_train := base_train self; scale_factor := None |}
          out smp with
  | Ok (_, (uncertainty, smp')) =>
      exists self',
        postprocess (set_scale_factor self c) out smp
        = Ok (self', (t_mul uncertainty c, smp'))
        /\ scale_factor self' = Some c
        /\ base_train self' = false
  | Raise e => postprocess (set_scale_factor self c) out smp = Raise e
  end
  /\ set_scale_factor (set_scale_factor self c0) c = set_scale_factor self c.
Proof.
  split; [|reflexivity].
  destruct out as [g_hat pred_uncertainty].
  unfold postprocess, set_scale_factor. cbn [base_train scale_factor].
  destruct (base_postprocess false g_hat smp) as [g_hat' smp_base].
  destruct (dict_get smp_base "y") as [g_true|e]; cbn [mbind result_bind];
    [|reflexivity].
  destruct (dict_pop _ "x") as [smp'|e];
    cbn [mbind result_bind mret result_ret]; [|reflexivity].
  eexists. repeat split.
Qed.

End Outcome.

End UqnoOutcomeFacts.

Module UnoFacts.
Import Uno.

Section UnoForward.
Context {tensor : Type} `{UnoOps tensor}.

Lemma is_skip_source_spec (m : gmap Z Z) (j : Z) :
  is_skip_source m j = true <-> exists i, m !! i = Some j.
Proof.
  unfold is_skip_source. rewrite bool_decide_eq_true, list_elem_of_fmap.
  split.
  - intros [[i j'] [-> Hin]]. exists i. apply elem_of_map_to_list. exact Hin.
  - intros [i Hi]. exists (i, j). split; [reflexivity|].
    apply elem_of_map_to_list. exact Hi.
Qed.

(** The loop goes through when every skip output it reads is there *)
Lemma uno_forward_layers_returns (self : UNO tensor) (m k : nat) (x : tensor)
    (skip_outputs : gmap Z tensor) :
  assembled self -> skips_point_back self ->
  (k + m = n_layers self)%nat ->
  (forall j : Z, (0 <= j < Z.of_nat k)%Z ->
     is_skip_source (horizontal_skips_map self) j = true ->
     is_Some (skip_outputs !! j)) ->
  exists y, forward_layers self (seq k m) x skip_outputs = Ok y.
Proof.
  intros [Hblocks Hskips] Hback. revert k x skip_outputs.
  induction m as [|m IH]; intros k x skip_outputs Hkm Hdom.
  - eexists. reflexivity.
  - cbn [seq forward_layers].
    assert (exists x', match horizontal_skips_map self !! Z.of_nat k with
                       | Some source =>
                           skip_val ← int_dict_get skip_outputs source;
                           mret (cat [x; resample skip_val
                                          (res_scalings x skip_val (n_dim self))
                                          (seqZ (- n_dim self) (n_dim self))] 1)
                       | None => mret x
                       end = Ok x') as [x' ->].
    { destruct (horizontal_skips_map self !! Z.of_nat k) as [source|] eqn:Hmap;
        [|eexists; reflexivity].
      destruct (Hdom source) as [skip_val Hval].
      - apply (Hback k); [lia | exact Hmap].
      - apply is_skip_source_spec. eexists. exact Hmap.
      - unfold int_dict_get. rewrite Hval. eexists. reflexivity. }
    cbn [mbind result_bind]. unfold Rno.list_get.
    destruct (lookup_lt_is_Some_2 (fno_blocks self) k) as [block ->]; [lia|].
    cbn [mbind result_bind].
    destruct (is_skip_source (horizontal_skips_map self) (Z.of_nat k)) eqn:Hsrc.
    + destruct (Hskips k ltac:(lia) Hsrc) as [skip Hskip].
      unfold module_dict_get. rewrite Hskip.
      cbn [mbind result_bind mret result_ret].
      apply IH; [lia|]. intros j Hj Hjsrc.
      destruct (decide (j = Z.of_nat k)) as [-> | Hne].
      * rewrite lookup_insert_eq. eexists. reflexivity.
      * rewrite lookup_insert_ne by congruence. apply Hdom; [lia | exact Hjsrc].
    + cbn [mbind result_bind mret result_ret].
      apply IH; [lia|]. intros j Hj Hjsrc.
      destruct (decide (j = Z.of_nat k)) as [-> | Hne]; [congruence|].
      apply Hdom; [lia | exact Hjsrc].
Qed.

(** The loop raises when a layer ahead reads a skip output that no earlier
    layer has stored *)
Lemma uno_forward_layers_raises (self : UNO tensor) (m k : nat) (x : tensor)
    (skip_outputs : gmap Z tensor) (i : nat) (source : Z) :
  (forall j : Z, is_Some (skip_outputs !! j) -> (0 <= j < Z.of_nat k)%Z) ->
  (k <= i < k + m)%nat ->
  horizontal_skips_map self !! Z.of_nat i = Some source ->
  ~ (0 <= source < Z.of_nat i)%Z ->
  exists e, forward_layers self (seq k m) x skip_outputs = Raise e.
Proof.
  revert k x skip_outputs.
  induction m as [|m IH]; intros k x skip_outputs Hdom Hi Hmap Hsource; [lia|].
  cbn [seq forward_layers].
  destruct (decide (i = k)) as [-> | Hne].
  - rewrite Hmap. unfold int_dict_get.
    destruct (skip_outputs !! source) as [v|] eqn:Hv.
    + exfalso. apply Hsource, Hdom. eexists. exact Hv.
    + eexists. reflexivity.
  - destruct (match horizontal_skips_map self !! Z.of_nat k with
              | Some source0 => _
              | None => _
              end) as [x'|e]; cbn [mbind result_bind]; [|eexists; reflexivity].
    destruct (Rno.list_get (fno_blocks self) k) as [block|e];
      cbn [mbind result_bind]; [|eexists; reflexivity].
    destruct (is_skip_source (horizontal_skips_map self) (Z.of_nat k)).
    + destruct (module_dict_get _ _) as [skip|e];
        cbn [mbind result_bind mret result_ret]; [|eexists; reflexivity].
      apply IH; [|lia | exact Hmap | exact Hsource].
      intros j Hj. destruct (decide (j = Z.of_nat k)) as [-> | Hjk]; [lia|].
      rewrite lookup_insert_ne in Hj by congruence.
      specialize (Hdom j Hj). lia.
    + cbn [mbind result_bind mret result_ret].
      apply IH; [|lia | exact Hmap | exact Hsource].
      intros j Hj. specialize (Hdom j Hj). lia.
Qed.

(** On an UNO assembled as __init__ assembles it, forward returns exactly
    when every skip connection that enters a layer comes from an earlier
    layer; a connection from the layer itself, from a later layer or from
    a number that is no layer makes forward raise, at the latest when the
    entered layer reads skip_outputs. *)
Theorem forward_returns_iff_skips_point_back (self : UNO tensor) (x : tensor) :
  assembled self ->
  (is_Ok (forward self x) <-> skips_point_back self).
Proof.
  intros Hasm. unfold forward. split.
  - intros [y Hy] i source Hi Hmap.
    destruct (decide (0 <= source < Z.of_nat i)%Z) as [Hok | Hbad]; [exact Hok|].
    exfalso.
    destruct (uno_forward_layers_raises self (n_layers self) 0
                (match domain_padding self with
                 | Some p => Rno.pad p (lifting self x)
                 | None => lifting self x
                 end) ∅ i source) as [e He];
      [|lia | exact Hmap | exact Hbad |].
    + intros j [v Hv]. rewrite lookup_empty in Hv. discriminate Hv.
    + rewrite He in Hy. discriminate Hy.
  - intros Hback.
    destruct (uno_forward_layers_returns self (n_layers self) 0
                (match domain_padding self with
                 | Some p => Rno.pad p (lifting self x)
                 | None => lifting self x
                 end) ∅ Hasm Hback) as [y Hy]; [lia | lia |].
    rewrite Hy. eexists. reflexivity.
Qed.

End UnoForward.

Lemma toy_uno_assembled (skips : gmap Z Z) : assembled (toy_uno skips).
Proof.
  split; [reflexivity|]. intros [|[|[|i]]] Hi _; cbn in Hi; try lia;
    eexists; reflexivity.
Qed.

Lemma forward_returns_iff_skips_point_back_witness :
  is_Ok (forward (H := toy_ops) (toy_uno (<[2%Z := 0%Z]> ∅)) 1%positive)
  <-> skips_point_back (toy_uno (<[2%Z := 0%Z]> ∅)).
Proof.
  apply (forward_returns_iff_skips_point_back (H := toy_ops)
           (toy_uno (<[2%Z := 0%Z]> ∅)) 1%positive).
  apply toy_uno_assembled.
Defined.

End UnoFacts.

Module SpectrumFacts.
Import Spectrum.

Section SpectrumIndex.

Lemma wavenumber_abs (k : Z) (a : nat) :
  (Z.of_nat a <= k)%Z ->
  Z.abs (default 0%Z ((arange 0 k ++ arange (- k) 0) !! a)) = Z.of_nat a.
Proof.
  intros Ha. unfold arange. rewrite Z.sub_0_r.
  replace (0 - - k)%Z with k by lia.
  destruct (decide (Z.of_nat a < k)%Z) as [Hlt | Hge].
  - rewrite lookup_app_l by (rewrite length_seqZ; lia).
    rewrite lookup_seqZ_lt by lia. cbn. lia.
  - rewrite lookup_app_r by (rewrite length_seqZ; lia).
    rewrite length_seqZ.
    destruct (decide (k = 0)%Z) as [-> | Hk].
    + assert (a = 0%nat) as -> by lia. reflexivity.
    + rewrite lookup_seqZ_lt by lia. cbn. lia.
Qed.

Lemma wavenumbers_length (k : Z) :
  (0 <= k)%Z -> length (arange 0 k ++ arange (- k) 0) = Z.to_nat (2 * k).
Proof.
  intros Hk. unfold arange. rewrite length_app, !length_seqZ. lia.
Qed.

Lemma where_eq_elem (index : matrix) (j : Z) (a b : nat) :
  (a, b) ∈ where_eq index j
  <-> (a < m_rows index)%nat /\ (b < m_cols index)%nat /\ m_at index a b = j.
Proof.
  unfold where_eq. rewrite list_elem_of_bind. split.
  - intros (a' & Hb & Ha'). apply list_elem_of_bind in Hb as (b' & Hab & Hb').
    apply list_elem_of_singleton in Hab. injection Hab as -> ->.
    apply list_elem_of_filter in Hb' as [Hat Hb'].
    apply elem_of_seq in Ha', Hb'. repeat split; [lia | lia | exact Hat].
  - intros (Ha & Hb & Hat). exists a. split; [|apply elem_of_seq; lia].
    apply list_elem_of_bind. exists b. split; [left|].
    apply list_elem_of_filter. split; [exact Hat | apply elem_of_seq; lia].
Qed.

(** The outcome of the bookkeeping of lines 166-184 *)
Lemma spectrum_index_cases (n_observations : nat) :
  match spectrum_index n_observations with
  | Ok index =>
      Nat.Even n_observations
      /\ m_rows index = n_observations /\ m_cols index = n_observations
      /\ (forall a b : nat,
            (a < n_observations)%nat -> (b < n_observations)%nat ->
            m_at index a b
            = if decide (a <= n_observations / 2 /\ b <= n_observations / 2)%nat
              then Z.of_nat (a + b) else (-1)%Z)
      /\ (forall (j : Z) (a b : nat),
            (1 <= j)%Z ->
            (a, b) ∈ where_eq index j
            <-> (a <= n_observations / 2)%nat /\ (b <= n_observations / 2)%nat
                /\ Z.of_nat (a + b) = j)
  | Raise e => Nat.Odd n_observations /\ e = RuntimeError
  end.
Proof.
  rename n_observations into n.
  destruct (Nat.Even_or_Odd n) as [[k Hk] | [k Hk]].
  - (* even *)
    assert (Z.of_nat n / 2 = Z.of_nat k)%Z as Hkmax
      by (symmetry; apply (Z.div_unique _ _ _ 0); lia).
    assert (n / 2 = k)%nat as Hhalf
      by (rewrite Hk, Nat.mul_comm; apply Nat.div_mul; lia).
    unfold spectrum_index. rewrite Hkmax.
    unfold mat_add.
    cbn [m_rows m_cols mat_abs transpose repeat_rows].
    rewrite wavenumbers_length by lia.
    replace (Z.to_nat (2 * Z.of_nat k)) with n by lia.
    unfold broadcast. rewrite !decide_True by reflexivity.
    cbn [mbind result_bind mret result_ret].
    unfold set_block.
    cbn [m_rows m_cols slice_block minus_ones m_at mat_abs transpose repeat_rows].
    rewrite decide_True by (split; left; reflexivity).
    cbn [m_rows m_cols m_at].
    assert (forall a b : nat,
              (a < n)%nat -> (b < n)%nat ->
              (if decide (a < Z.to_nat (Z.of_nat k + 1) `min` n
                          /\ b < Z.to_nat (Z.of_nat k + 1) `min` n)%nat
               then
                 (Z.abs (default 0%Z
                           ((arange 0 (Z.of_nat k) ++ arange (- Z.of_nat k) 0)
                              !! bcast_idx (Z.to_nat (Z.of_nat k + 1) `min` n) a))
                  + Z.abs (default 0%Z
                             ((arange 0 (Z.of_nat k) ++ arange (- Z.of_nat k) 0)
                                !! bcast_idx (Z.to_nat (Z.of_nat k + 1) `min` n) b)))%Z
               else (-1)%Z)
              = if decide (a <= n / 2 /\ b <= n / 2)%nat
                then Z.of_nat (a + b) else (-1)%Z) as Hat.
    { intros a b Ha Hb. rewrite Hhalf.
      assert (Z.to_nat (Z.of_nat k + 1) `min` n = S k) as -> by lia.
      destruct (decide (a <= k /\ b <= k)%nat) as [[Hak Hbk] | Hout].
      - rewrite decide_True by lia.
        unfold bcast_idx. destruct (decide (S k = 1%nat)); [lia|].
        rewrite !wavenumber_abs by lia. lia.
      - rewrite decide_False by lia. reflexivity. }
    split; [exists k; exact Hk|]. split; [reflexivity|]. split; [reflexivity|].
    split.
    + intros a b Ha Hb.
      rewrite <- (Hat a b Ha Hb).
      destruct (decide (a < Z.to_nat (Z.of_nat k + 1) `min` n
                        /\ b < Z.to_nat (Z.of_nat k + 1) `min` n)%nat);
        [|reflexivity].
      unfold bcast_idx.
      destruct (decide (n = 1%nat)); [lia|].
      destruct (decide (Z.to_nat (Z.of_nat k + 1) `min` n = 1%nat)); [lia|].
      reflexivity.
    + intros j a b Hj. rewrite where_eq_elem. cbn [m_rows m_cols m_at].
      split.
      * intros (Ha & Hb & Heq).
        assert ((if decide (a <= n / 2 /\ b <= n / 2)%nat
                 then Z.of_nat (a + b) else (-1)%Z) = j) as Heq'.
        { rewrite <- (Hat a b Ha Hb).
          destruct (decide (a < Z.to_nat (Z.of_nat k + 1) `min` n
                            /\ b < Z.to_nat (Z.of_nat k + 1) `min` n)%nat);
            [|exact Heq].
          rewrite <- Heq. unfold bcast_idx.
          destruct (decide (n = 1%nat)); [lia|].
          destruct (decide (Z.to_nat (Z.of_nat k + 1) `min` n = 1%nat)); [lia|].
          reflexivity. }
        destruct (decide (a <= n / 2 /\ b <= n / 2)%nat) as [[? ?] | ?]; [|lia].
        repeat split; assumption.
      * intros (Ha & Hb & Heq).
        assert (a < n /\ b < n)%nat as [Han Hbn].
        { rewrite Hhalf in Ha, Hb. destruct k as [|k]; lia. }
        split; [exact Han|]. split; [exact Hbn|].
        pose proof (Hat a b Han Hbn) as Hab.
        rewrite (decide_True (P := (a <= n / 2 /\ b <= n / 2)%nat)) in Hab
          by (split; assumption).
        rewrite <- Heq, <- Hab.
        destruct (decide (a < Z.to_nat (Z.of_nat k + 1) `min` n
                          /\ b < Z.to_nat (Z.of_nat k + 1) `min` n)%nat);
          [|reflexivity].
        unfold bcast_idx.
        destruct (decide (n = 1%nat)); [lia|].
        destruct (decide (Z.to_nat (Z.of_nat k + 1) `min` n = 1%nat)); [lia|].
        reflexivity.
  - (* odd *)
    destruct k as [|k].
    + (* one point *)
      assert (n = 1%nat) as -> by lia.
      replace (spectrum_index 1) with (@Raise matrix RuntimeError)
        by (vm_compute; reflexivity).
      cbv beta iota.
      split; [exists 0%nat; reflexivity | reflexivity].
    + assert (Z.of_nat n / 2 = Z.of_nat (S k))%Z as Hkmax
        by (symmetry; apply (Z.div_unique _ _ _ 1); lia).
      unfold spectrum_index. rewrite Hkmax.
      unfold mat_add.
      cbn [m_rows m_cols mat_abs transpose repeat_rows].
      rewrite wavenumbers_length by lia.
      unfold broadcast.
      repeat (rewrite decide_False by lia). cbn [mbind result_bind].
      cbv beta iota.
      split; [exists (S k); exact Hk | reflexivity].
Qed.

(** The tensor index exists exactly for an even number of points.  It is
    then n x n and holds a + b at the positions (a, b) of the block
    0 <= a, b <= n/2 and -1 elsewhere, so that torch.where(index == j)
    gives the positions of that block with a + b = j.  For an odd number
    of points the wavenumber tensors do not broadcast, or the block does
    not fit: RuntimeError. *)
Theorem spectrum_index_outcome (n_observations : nat) :
  match spectrum_index n_observations with
  | Ok index =>
      Nat.Even n_observations
      /\ m_rows index = n_observations /\ m_cols index = n_observations
      /\ (forall a b : nat,
            (a < n_observations)%nat -> (b < n_observations)%nat ->
            m_at index a b
            = if decide (a <= n_observations / 2 /\ b <= n_observations / 2)%nat
              then Z.of_nat (a + b) else (-1)%Z)
      /\ (forall (j : Z) (a b : nat),
            (1 <= j)%Z ->
            (a, b) ∈ where_eq index j
            <-> (a <= n_observations / 2)%nat /\ (b <= n_observations / 2)%nat
                /\ Z.of_nat (a + b) = j)
  | Raise e => Nat.Odd n_observations /\ e = RuntimeError
  end.
Proof. exact (spectrum_index_cases n_observations). Qed.

(** spectrum_2d never returns for an odd number of points. *)
Theorem spectrum_2d_odd {signal column out : Type}
    `{SpectrumOps signal column out}
    (sig : signal) (n_observations : nat) (normalize : bool) :
  Nat.Odd n_observations ->
  exists e, spectrum_2d sig n_observations normalize = Raise e.
Proof.
  intros Hodd. unfold spectrum_2d.
  destruct (shape0 sig) as [T|e]; cbn [mbind result_bind];
    [|eexists; reflexivity].
  destruct (view sig T n_observations n_observations) as [sig'|e];
    cbn [mbind result_bind]; [|eexists; reflexivity].
  destruct normalize; cbn [mbind result_bind]; [|eexists; reflexivity].
  pose proof (spectrum_index_cases n_observations) as Hindex.
  destruct (spectrum_index n_observations) as [index|e];
    cbn [mbind result_bind]; [|eexists; reflexivity].
  destruct Hindex as [Heven _].
  exfalso. destruct Heven as [a Ha], Hodd as [b Hb]. lia.
Qed.

End SpectrumIndex.

Lemma spectrum_2d_odd_witness :
  exists e, spectrum_2d (H := toy_spectrum_ops) [1%Z; 2%Z] 3 true = Raise e.
Proof.
  apply (spectrum_2d_odd (H := toy_spectrum_ops) [1%Z; 2%Z] 3 true).
  exists 1%nat. reflexivity.
Defined.

End SpectrumFacts.
